(** * secrets_handler: masking and unmasking of secrets in configuration files

    A shallow embedding of [scripts/secrets_handler.py].  File contents are
    Python [str] values, modelled as lists of Unicode code points; the
    regular expressions of [FILES_CONFIG] are modelled by a small syntax
    with a greedy backtracking matcher, and [re.sub] with a callback by a
    left-to-right scan that threads the state the callback closes over. *)

From Stdlib Require Import NArith Lia.
From Stdlib Require Import Strings.String Strings.Ascii.
From stdpp Require Import base list strings gmap.

Local Open Scope N_scope.

(** ** Text *)

(** A character is a code point, a text a list of them. *)
Definition char := N.
Definition text := list char.

(** A literal of the source, as the text it denotes. *)
Definition lit (s : string) : text :=
  map (fun a => N.of_nat (nat_of_ascii a)) (list_ascii_of_string s).

Definition QUOTE : char := 34.
Definition DASH : char := 45.
Definition STAR : char := 42.

(** [\s] on a [str] pattern: the code points for which [str.isspace] holds. *)
Definition is_space (c : char) : bool :=
  ((9 <=? c) && (c <=? 13)) || ((28 <=? c) && (c <=? 32))
  || (c =? 133) || (c =? 160) || (c =? 5760)
  || ((8192 <=? c) && (c <=? 8202))
  || (c =? 8232) || (c =? 8233) || (c =? 8239) || (c =? 8287) || (c =? 12288).

(** ** Regular expressions of the configuration *)

(** The character classes that occur: whitespace, neither whitespace nor
    dash, and anything but the double quote. *)
Inductive cclass := CSpace | CNotSpaceDash | CNotQuote.

Definition in_class (k : cclass) (c : char) : bool :=
  match k with
  | CSpace => is_space c
  | CNotSpaceDash => negb (is_space c || (c =? DASH))
  | CNotQuote => negb (c =? QUOTE)
  end.
Arguments in_class : simpl never.

(** One item of a concatenation: a literal character, [k*] or [k+]. *)
Inductive atom := Lit (c : char) | Star (k : cclass) | Plus (k : cclass).

Definition regex := list atom.

Definition lits (s : string) : regex := map Lit (lit s).

(** A pattern has three groups: [(prefix)(value)(suffix)]. *)
Record pattern := Pattern { prefix : regex; value : regex; suffix : regex }.

#[global] Instance cclass_eq_dec : EqDecision cclass.
Proof. solve_decision. Defined.
#[global] Instance atom_eq_dec : EqDecision atom.
Proof. solve_decision. Defined.

(** A match object: the three groups and the text after the match. *)
Record mtch := Match { m_prefix : text; m_value : text; m_suffix : text; m_rest : text }.

(** [match.group(0)] *)
Definition group0 (m : mtch) : text := m_prefix m ++ m_value m ++ m_suffix m.

Section Matcher.
Context {A : Type}.

(** Greedy repetition with backtracking: take as many characters of the
    class as possible, and give one back each time the continuation fails.
    [acc] holds the characters of the current group, last one first. *)
Fixpoint star (k : cclass) (s : text) (acc : text)
    (cont : text -> text -> option A) : option A :=
  match s with
  | c :: s' =>
      if in_class k c then
        match star k s' (c :: acc) cont with
        | Some r => Some r
        | None => cont acc s
        end
      else cont acc s
  | [] => cont acc []
  end.

Fixpoint run (r : regex) (s : text) (acc : text)
    (cont : text -> text -> option A) : option A :=
  match r with
  | [] => cont acc s
  | Lit c :: r' =>
      match s with
      | x :: s' => if x =? c then run r' s' (x :: acc) cont else None
      | [] => None
      end
  | Star k :: r' => star k s acc (fun acc' s' => run r' s' acc' cont)
  | Plus k :: r' =>
      match s with
      | x :: s' =>
          if in_class k x
          then star k s' (x :: acc) (fun acc' s' => run r' s' acc' cont)
          else None
      | [] => None
      end
  end.
End Matcher.

(** The pattern matched at the start of [s] ([re.match] semantics; the scan
    of [re.sub] tries it at every position in turn). *)
Definition match_at (p : pattern) (s : text) : option mtch :=
  run (prefix p) s [] (fun a1 s1 =>
  run (value p) s1 [] (fun a2 s2 =>
  run (suffix p) s2 [] (fun a3 s3 =>
    Some (Match (rev a1) (rev a2) (rev a3) s3)))).

(** ** The configuration *)

Definition MASK : text := lit "******".
Arguments MASK : simpl never.

(** The value groups of the two file layouts: one or more characters that
    are neither whitespace nor dash; zero or more characters other than the
    double quote. *)
Definition value_compose : regex := [Plus CNotSpaceDash].
Definition value_yaml : regex := [Star CNotQuote].

(** The key, the value group, and an empty third group. *)
Definition compose_pattern (key : string) : pattern :=
  Pattern (lits key) value_compose [].

(** The key, optional whitespace and an opening double quote; the value
    group; the closing double quote. *)
Definition yaml_pattern (key : string) : pattern :=
  Pattern (lits key ++ [Star CSpace; Lit QUOTE]) value_yaml [Lit QUOTE].

Definition COMPOSE_FILE : string := "docker-compose.yml".
Definition YAML_FILE : string := "configs/config.yaml".

Definition compose_patterns : list pattern :=
  [ compose_pattern "DATABASE_PASSWORD="; compose_pattern "MYSQL_ROOT_PASSWORD=" ].

Definition yaml_patterns : list pattern :=
  [ yaml_pattern "password:"; yaml_pattern "oss_access_key:";
    yaml_pattern "oss_secret_key:"; yaml_pattern "api_key:" ].

(** The keys the patterns start with. *)
Definition compose_keys : list string :=
  [ "DATABASE_PASSWORD="; "MYSQL_ROOT_PASSWORD=" ].
Definition yaml_keys : list string :=
  [ "password:"; "oss_access_key:"; "oss_secret_key:"; "api_key:" ].

(** The dict literal, in insertion order. *)
Definition FILES_CONFIG : list (string * list pattern) :=
  [ (COMPOSE_FILE, compose_patterns); (YAML_FILE, yaml_patterns) ].

(** ** [re.sub] with a callback *)

Section Sub.
Context {St : Type}.
Variable p : pattern.
(** The callback, with the state it closes over made explicit. *)
Variable repl : mtch -> St -> text * St.

(** Scan from the left: where the pattern matches, emit the callback's
    result and go on after the match; elsewhere copy one character.  An
    empty match is replaced and the scan moves one character on. *)
Fixpoint sub_fuel (fuel : nat) (s : text) (st : St) : text * St :=
  match fuel with
  | O => (s, st)
  | S fuel' =>
      match match_at p s with
      | Some m =>
          let '(out, st1) := repl m st in
          match group0 m, s with
          | [], [] => (out, st1)
          | [], c :: s' =>
              let '(o, st2) := sub_fuel fuel' s' st1 in (out ++ c :: o, st2)
          | _ :: _, _ =>
              let '(o, st2) := sub_fuel fuel' (m_rest m) st1 in (out ++ o, st2)
          end
      | None =>
          match s with
          | [] => ([], st)
          | c :: s' => let '(o, st2) := sub_fuel fuel' s' st in (c :: o, st2)
          end
      end
  end.

Definition re_sub (s : text) (st : St) : text * St :=
  sub_fuel (S (length s)) s st.
End Sub.

(** ** The two callbacks *)

(** [mask_replacer]; the state is the list [file_secrets] it appends to. *)
Definition mask_replacer (m : mtch) (file_secrets : list text) : text * list text :=
  if decide (m_value m = MASK) then (group0 m, file_secrets)
  else (m_prefix m ++ MASK ++ m_suffix m, file_secrets ++ [m_value m]).

(** [unmask_replacer]; the state is [current_file_secrets], popped at the front. *)
Definition unmask_replacer (m : mtch) (current_file_secrets : list text)
    : text * list text :=
  match current_file_secrets with
  | [] => (group0 m, current_file_secrets)
  | orig_value :: remaining =>
      if decide (m_value m = MASK)
      then (m_prefix m ++ orig_value ++ m_suffix m, remaining)
      else (group0 m, current_file_secrets)
  end.

(** ** The body of [mask] for one file *)

(** From the content read to the content to write and the captured list. *)
Definition mask_content (patterns : list pattern) (content : text)
    : text * list text :=
  fold_left (fun acc pattern => re_sub pattern mask_replacer acc.1 acc.2)
            patterns (content, []).

(** ** The body of [unmask] for one file *)

(** [needle in hay] on strings. *)
Fixpoint str_contains (needle hay : string) : bool :=
  String.prefix needle hay ||
  match hay with
  | EmptyString => false
  | String _ hay' => str_contains needle hay'
  end.

(** The masked-form pattern: the text of the value group is replaced by the
    escaped mask token when it is the value group of the file's layout. *)
Definition mask_search_pattern (filepath : string) (p : pattern) : pattern :=
  let target :=
    if str_contains "docker-compose.yml" filepath then value_compose else value_yaml in
  if decide (value p = target)
  then Pattern (prefix p) (map Lit MASK) (suffix p)
  else p.

Definition unmask_content (filepath : string) (patterns : list pattern)
    (content : text) (file_secrets : list text) : text * list text :=
  fold_left (fun acc pattern =>
               re_sub (mask_search_pattern filepath pattern) unmask_replacer acc.1 acc.2)
            patterns (content, file_secrets).

(** ** Files, the store and the two commands *)

(** What [.secrets.json] holds: nothing, text that does not parse, or an
    object mapping paths to lists of strings. *)
Inductive store_file :=
| StoreAbsent
| StoreCorrupt
| StoreJson (d : gmap string (list text)).

Inductive message :=
| ErrorLoadingSecrets
| MaskedSecrets (n : nat) (filepath : string)
| NoSecretsFound
| UnmaskedSecrets (n : Z) (filepath : string).

Record world := World {
  files : gmap string text;
  secrets_file : store_file;
  printed : list message
}.

(** [load_secrets]: the mapping and what was printed. *)
Definition load_secrets (w : world) : gmap string (list text) * list message :=
  match secrets_file w with
  | StoreAbsent => (∅, [])
  | StoreCorrupt => (∅, [ErrorLoadingSecrets])
  | StoreJson d => (d, [])
  end.

(** One turn of the loop of [mask]. *)
Definition mask_file (st : gmap string text * gmap string (list text) * list message)
    (entry : string * list pattern)
    : gmap string text * gmap string (list text) * list message :=
  let '(fs, secrets, out) := st in
  let '(filepath, patterns) := entry in
  match fs !! filepath with
  | None => st
  | Some content =>
      let '(new_content, file_secrets) := mask_content patterns content in
      match file_secrets with
      | [] => st
      | _ :: _ =>
          (<[filepath := new_content]> fs,
           <[filepath := file_secrets]> secrets,
           out ++ [MaskedSecrets (length file_secrets) filepath])
      end
  end.

Definition mask (w : world) : world :=
  let '(secrets, out0) := load_secrets w in
  let '(fs, secrets', out) :=
    fold_left mask_file FILES_CONFIG (files w, secrets, printed w ++ out0) in
  World fs (StoreJson secrets') out.

(** One turn of the loop of [unmask]. *)
Definition unmask_file (secrets : gmap string (list text))
    (st : gmap string text * list message) (entry : string * list pattern)
    : gmap string text * list message :=
  let '(fs, out) := st in
  let '(filepath, patterns) := entry in
  match fs !! filepath, secrets !! filepath with
  | Some content, Some file_secrets =>
      let '(new_content, current_file_secrets) :=
        unmask_content filepath patterns content file_secrets in
      (<[filepath := new_content]> fs,
       out ++ [UnmaskedSecrets
                 (Z.of_nat (length file_secrets)
                  - Z.of_nat (length current_file_secrets))%Z filepath])
  | _, _ => st
  end.

Definition unmask (w : world) : world :=
  let '(secrets, out0) := load_secrets w in
  if decide (secrets = ∅) then
    World (files w) (secrets_file w) (printed w ++ out0 ++ [NoSecretsFound])
  else
    let '(fs, out) :=
      fold_left (unmask_file secrets) FILES_CONFIG (files w, printed w ++ out0) in
    World fs (secrets_file w) out.

(** * The scan as a list of items *)

(** What [re.finditer] sees: the matches, and the characters between them. *)
Inductive item := Ch (c : char) | Fld (m : mtch).

Fixpoint items_fuel (p : pattern) (fuel : nat) (s : text) : list item :=
  match fuel with
  | O => map Ch s
  | S fuel' =>
      match match_at p s with
      | Some m =>
          match group0 m, s with
          | [], [] => [Fld m]
          | [], c :: s' => Fld m :: Ch c :: items_fuel p fuel' s'
          | _ :: _, _ => Fld m :: items_fuel p fuel' (m_rest m)
          end
      | None =>
          match s with
          | [] => []
          | c :: s' => Ch c :: items_fuel p fuel' s'
          end
      end
  end.

Definition items (p : pattern) (s : text) : list item :=
  items_fuel p (S (length s)) s.

(** The matches alone, left to right. *)
Definition fld_of (i : item) : option mtch :=
  match i with Fld m => Some m | Ch _ => None end.

Definition matches (p : pattern) (s : text) : list mtch :=
  omap fld_of (items p s).

(** Rebuild a text from items, each match rewritten by the callback. *)
Fixpoint rewrite_items {St : Type} (repl : mtch -> St -> text * St)
    (d : list item) (st : St) : text * St :=
  match d with
  | [] => ([], st)
  | Ch c :: d' => let '(o, st') := rewrite_items repl d' st in (c :: o, st')
  | Fld m :: d' =>
      let '(out, st1) := repl m st in
      let '(o, st2) := rewrite_items repl d' st1 in (out ++ o, st2)
  end.

Definition item_text (i : item) : text :=
  match i with Ch c => [c] | Fld m => group0 m end.

Definition render (d : list item) : text := concat (map item_text d).

(** * What the configured patterns match *)

(** The longest run of characters of a class at the start of a text. *)
Fixpoint span (k : cclass) (s : text) : text * text :=
  match s with
  | c :: s' =>
      if in_class k c then let '(u, r) := span k s' in (c :: u, r) else ([], s)
  | [] => ([], [])
  end.

(** The text after a literal, if the text starts with it. *)
Fixpoint strip (l s : text) : option text :=
  match l, s with
  | [], _ => Some s
  | c :: l', x :: s' => if x =? c then strip l' s' else None
  | _ :: _, [] => None
  end.

Definition starts_in (k : cclass) (s : text) : bool :=
  match s with c :: _ => in_class k c | [] => false end.

(** The two layouts, over an arbitrary key, and their masked forms. *)
Definition compose_pat (K : text) : pattern := Pattern (map Lit K) value_compose [].
Definition yaml_pat (K : text) : pattern :=
  Pattern (map Lit K ++ [Star CSpace; Lit QUOTE]) value_yaml [Lit QUOTE].
Definition compose_masked (K : text) : pattern :=
  Pattern (map Lit K) (map Lit MASK) [].
Definition yaml_masked (K : text) : pattern :=
  Pattern (map Lit K ++ [Star CSpace; Lit QUOTE]) (map Lit MASK) [Lit QUOTE].

(** The matches of the four shapes, read off the text directly. *)
Definition compose_match (K s : text) : option mtch :=
  match strip K s with
  | Some t =>
      match span CNotSpaceDash t with
      | ([], _) => None
      | (v, r) => Some (Match K v [] r)
      end
  | None => None
  end.

Definition yaml_match (K s : text) : option mtch :=
  match strip K s with
  | Some t =>
      let '(w, t1) := span CSpace t in
      match strip [QUOTE] t1 with
      | Some t2 =>
          let '(v, t3) := span CNotQuote t2 in
          match strip [QUOTE] t3 with
          | Some r => Some (Match (K ++ w ++ [QUOTE]) v [QUOTE] r)
          | None => None
          end
      | None => None
      end
  | None => None
  end.

Definition compose_masked_match (K s : text) : option mtch :=
  match strip K s with
  | Some t =>
      match strip MASK t with
      | Some r => Some (Match K MASK [] r)
      | None => None
      end
  | None => None
  end.

Definition yaml_masked_match (K s : text) : option mtch :=
  match strip K s with
  | Some t =>
      let '(w, t1) := span CSpace t in
      match strip [QUOTE] t1 with
      | Some t2 =>
          match strip MASK t2 with
          | Some t3 =>
              match strip [QUOTE] t3 with
              | Some r => Some (Match (K ++ w ++ [QUOTE]) MASK [QUOTE] r)
              | None => None
              end
          | None => None
          end
      | None => None
      end
  | None => None
  end.


(** * Auxiliary notions for the statements *)

(** The mapping the next run would load. *)
Definition stored (w : world) : gmap string (list text) := (load_secrets w).1.

(** ** Masking, as the specification words it *)

(** One pattern over the current content: the matches that do not overlap,
    left to right; a match whose value zone is the mask token stays as it
    is, any other is rewritten to prefix, mask token, suffix and its value
    is recorded. *)
Definition masked_item (i : item) : text :=
  match i with
  | Ch c => [c]
  | Fld m =>
      if decide (m_value m = MASK) then group0 m
      else m_prefix m ++ MASK ++ m_suffix m
  end.

Definition mask_pattern_spec (p : pattern) (content : text) : text * list text :=
  (concat (map masked_item (items p content)),
   filter (fun v => v <> MASK) (map m_value (matches p content))).

(** The patterns in list order, each over the content the previous ones
    left; the recorded values of each appended after those before. *)
Fixpoint mask_spec (patterns : list pattern) (content : text) : text * list text :=
  match patterns with
  | [] => (content, [])
  | p :: rest =>
      let '(content1, values1) := mask_pattern_spec p content in
      let '(content2, values2) := mask_spec rest content1 in
      (content2, values1 ++ values2)
  end.

(** ** Unmasking, as the specification words it *)

(** The number of matches among the items. *)
Definition count_matches (d : list item) : nat := length (omap fld_of d).

(** The items with the match numbered [i], [i+1], ... rewritten to prefix,
    stored value of that number, suffix; a match whose number is beyond the
    stored sequence is left as it is. *)
Fixpoint restore_from (i : nat) (d : list item) (stored : list text) : text :=
  match d with
  | [] => []
  | Ch c :: d' => c :: restore_from i d' stored
  | Fld m :: d' =>
      match (stored !! i : option text) with
      | Some v => m_prefix m ++ v ++ m_suffix m
      | None => group0 m
      end ++ restore_from (S i) d' stored
  end.

(** One masked-form pattern over the current content: the first matches
    take the stored values in order; what is left of the sequence goes on
    to the next pattern. *)
Definition unmask_pattern_spec (q : pattern) (content : text) (stored : list text)
    : text * list text :=
  (restore_from 0 (items q content) stored,
   drop (count_matches (items q content)) stored).

Fixpoint unmask_spec (qs : list pattern) (content : text) (stored : list text)
    : text * list text :=
  match qs with
  | [] => (content, stored)
  | q :: rest =>
      let '(content1, stored1) := unmask_pattern_spec q content stored in
      unmask_spec rest content1 stored1
  end.

(** The masked occurrences the scan comes across, all patterns together. *)
Fixpoint occurrences (qs : list pattern) (content : text) (stored : list text) : nat :=
  match qs with
  | [] => 0
  | q :: rest =>
      let '(content1, stored1) := unmask_pattern_spec q content stored in
      (count_matches (items q content) + occurrences rest content1 stored1)%nat
  end.

(** A pattern whose value group can only match the mask token. *)
Definition masked_form (q : pattern) : Prop :=
  forall s m, match_at q s = Some m -> m_value m = MASK.

(** ** Frames *)

(** Two items with the same frame: the same character, or two matches with
    the same prefix and the same suffix. *)
Inductive same_frame : item -> item -> Prop :=
| same_frame_ch c : same_frame (Ch c) (Ch c)
| same_frame_fld m m' :
    m_prefix m = m_prefix m' -> m_suffix m = m_suffix m' ->
    same_frame (Fld m) (Fld m').

(** The value zones that were rewritten held the mask token. *)
Inductive only_masked : item -> item -> Prop :=
| only_masked_ch c : only_masked (Ch c) (Ch c)
| only_masked_fld m m' :
    m_value m = MASK \/ m_value m' = m_value m -> only_masked (Fld m) (Fld m').

(** [s'] is [s] with nothing but value zones of matches of [p] rewritten. *)
Definition value_edit (p : pattern) (s s' : text) : Prop :=
  exists d', Forall2 same_frame (items p s) d' /\
             s = render (items p s) /\ s' = render d'.

Definition masked_value_edit (q : pattern) (s s' : text) : Prop :=
  exists d', Forall2 same_frame (items q s) d' /\
             Forall2 only_masked (items q s) d' /\
             s = render (items q s) /\ s' = render d'.

(** A chain of rewrites, one per pattern, each over the previous result. *)
Inductive edit_chain (R : pattern -> text -> text -> Prop)
    : list pattern -> text -> text -> Prop :=
| edit_chain_nil s : edit_chain R [] s s
| edit_chain_cons p ps s s1 s2 :
    R p s s1 -> edit_chain R ps s1 s2 -> edit_chain R (p :: ps) s s2.


(** ** Positions *)

(** The text from each position on, the empty text after the last. *)
Fixpoint suffixes (s : text) : list text :=
  s :: match s with [] => [] | _ :: s' => suffixes s' end.

(** Does the pattern match at some position of the text? *)
Definition matches_anywhere (q : pattern) (s : text) : bool :=
  existsb (fun t => bool_decide (is_Some (match_at q t))) (suffixes s).

(** ** Masked texts *)

(** The content one pattern's pass of [mask] leaves, and what it captures. *)
Definition mask_pass (p : pattern) (s : text) : text := (mask_pattern_spec p s).1.
Definition mask_caps (p : pattern) (s : text) : list text := (mask_pattern_spec p s).2.

(** Wherever the pattern matches in [s], the value zone is the mask token. *)
Definition all_masked (p : pattern) (s : text) : Prop :=
  forall a t m, s = a ++ t -> match_at p t = Some m -> m_value m = MASK.

(** The same, for the positions of [a] in the text [a ++ t]. *)
Definition clean_after (p : pattern) (a t : text) : Prop :=
  forall a1 x m, a = a1 ++ x -> x <> [] ->
    match_at p (x ++ t) = Some m -> m_value m = MASK.

(** A key the layouts can work with: not empty, no star, no double quote. *)
Definition good_key (K : text) : bool :=
  match K with
  | [] => false
  | _ :: _ => forallb (fun c => negb (c =? STAR) && negb (c =? QUOTE)) K
  end.

(** ** Contents made of fields *)

#[global] Instance pattern_eq_dec : EqDecision pattern.
Proof. solve_decision. Defined.
#[global] Instance mtch_eq_dec : EqDecision mtch.
Proof. solve_decision. Defined.

(** A content seen as filler characters and fields; a field is a match of
    one of the patterns, given by its three groups. *)
Inductive ditem :=
| Gap (c : char)
| Field (p : pattern) (pre v suf : text).

Definition doc := list ditem.

Definition ditem_text (i : ditem) : text :=
  match i with Gap c => [c] | Field _ pre v suf => pre ++ v ++ suf end.

Definition drender (D : doc) : text := concat (map ditem_text D).

(** The values of the fields of a pattern, in order. *)
Fixpoint field_values (p : pattern) (D : doc) : list text :=
  match D with
  | [] => []
  | Gap _ :: D' => field_values p D'
  | Field q _ v _ :: D' =>
      if decide (q = p) then v :: field_values p D' else field_values p D'
  end.

(** The fields of the selected patterns, masked. *)
Definition dmask_item (sel : pattern -> bool) (i : ditem) : ditem :=
  match i with
  | Gap c => Gap c
  | Field p pre v suf => if sel p then Field p pre MASK suf else Field p pre v suf
  end.

Definition dmask (sel : pattern -> bool) (D : doc) : doc := map (dmask_item sel) D.

(** No field holds the mask token. *)
Definition no_masked_field (D : doc) : bool :=
  forallb (fun i => match i with
                    | Gap _ => true
                    | Field _ _ v _ => bool_decide (v <> MASK)
                    end) D.

Definition no_match (p : pattern) (t : text) : bool :=
  match match_at p t with None => true | Some _ => false end.

(** The text from each position but the first, none of them empty. *)
Fixpoint nonempty_suffixes (s : text) : list text :=
  match s with [] => [] | _ :: s' => s :: nonempty_suffixes s' end.

Definition inner (x : text) : list text :=
  match x with [] => [] | _ :: x' => nonempty_suffixes x' end.

(** No pattern matches at a position inside the span [x], followed by [r]. *)
Definition quietb (ps : list pattern) (x r : text) : bool :=
  forallb (fun x2 => forallb (fun q => no_match q (x2 ++ r)) ps) (inner x).

(** The patterns match in the content exactly where the document has its
    fields: at a filler character none matches; at a field its pattern
    matches with these groups and no other pattern does; inside the span of
    a field none matches. *)
Fixpoint faithfulb (ps : list pattern) (D : doc) : bool :=
  match D with
  | [] => forallb (fun q => no_match q []) ps
  | Gap c :: D' =>
      forallb (fun q => no_match q (c :: drender D')) ps && faithfulb ps D'
  | Field p pre v suf :: D' =>
      bool_decide (p ∈ ps)
      && bool_decide (pre ++ v ++ suf <> [])
      && bool_decide (match_at p ((pre ++ v ++ suf) ++ drender D')
                      = Some (Match pre v suf (drender D')))
      && forallb (fun q => bool_decide (q = p)
                           || no_match q ((pre ++ v ++ suf) ++ drender D')) ps
      && quietb ps (pre ++ v ++ suf) (drender D')
      && faithfulb ps D'
  end.

(** The items the scan of [p] sees in a document it is faithful to. *)
Fixpoint proj (p : pattern) (D : doc) : list item :=
  match D with
  | [] => []
  | Gap c :: D' => Ch c :: proj p D'
  | Field q pre v suf :: D' =>
      if decide (q = p) then Fld (Match pre v suf (drender D')) :: proj p D'
      else map Ch (pre ++ v ++ suf) ++ proj p D'
  end.

(** The same, as propositions. *)
Definition quiet (ps : list pattern) (x r : text) : Prop :=
  forall q x1 x2, q ∈ ps -> x = x1 ++ x2 -> x1 <> [] -> x2 <> [] ->
    match_at q (x2 ++ r) = None.

Inductive Faithful (ps : list pattern) : doc -> Prop :=
| Faithful_nil :
    (forall q, q ∈ ps -> match_at q [] = None) -> Faithful ps []
| Faithful_gap c D :
    (forall q, q ∈ ps -> match_at q (c :: drender D) = None) ->
    Faithful ps D -> Faithful ps (Gap c :: D)
| Faithful_field p pre v suf D :
    p ∈ ps -> pre ++ v ++ suf <> [] ->
    match_at p ((pre ++ v ++ suf) ++ drender D) = Some (Match pre v suf (drender D)) ->
    (forall q, q ∈ ps -> q <> p -> match_at q ((pre ++ v ++ suf) ++ drender D) = None) ->
    quiet ps (pre ++ v ++ suf) (drender D) ->
    Faithful ps D -> Faithful ps (Field p pre v suf :: D).

(** Selections of patterns: one pattern; all but one of a selection. *)
Definition only (p : pattern) : pattern -> bool := fun q => bool_decide (q = p).
Definition without (sel : pattern -> bool) (p : pattern) : pattern -> bool :=
  fun q => sel q && negb (bool_decide (q = p)).
Definition among (l : list pattern) : pattern -> bool := fun q => bool_decide (q ∈ l).

(** The masked form finds what the pattern finds, where that is masked. *)
Definition masked_agrees (q q' : pattern) : Prop :=
  forall t,
    (match_at q t = None -> match_at q' t = None) /\
    (forall m, match_at q t = Some m -> m_value m = MASK -> match_at q' t = Some m).

(** Two texts that are the same up to the value zone of a first field. *)
Inductive first_diff (ps : list pattern) : text -> text -> Prop :=
| first_diff_same r : first_diff ps r r
| first_diff_field g p pre v v' suf r2 r2' :
    p ∈ ps ->
    match_at p ((pre ++ v ++ suf) ++ r2) = Some (Match pre v suf r2) ->
    match_at p ((pre ++ v' ++ suf) ++ r2') = Some (Match pre v' suf r2') ->
    first_diff ps (g ++ (pre ++ v ++ suf) ++ r2) (g ++ (pre ++ v' ++ suf) ++ r2').

(** ** Keys *)

(** A key fit for both layouts: a good key without whitespace or dash. *)
Definition key_ok (K : text) : bool :=
  good_key K && forallb (in_class CNotSpaceDash) K.

(** Does [K] occur in [s]? *)
Definition occurs_in (K s : text) : bool :=
  existsb (fun t => bool_decide (is_Some (strip K t))) (suffixes s).

(** No key occurs inside another. *)
Definition independent (Ks : list text) : bool :=
  forallb (fun Ki =>
    forallb (fun Kj => bool_decide (Ki = Kj) || negb (occurs_in Ki Kj)) Ks) Ks.

Definition keys_ok (Ks : list text) : bool :=
  forallb key_ok Ks && independent Ks && bool_decide (NoDup Ks).

(** * The command line *)



(** ** What the commands report *)

(** The line [mask] prints for a configured file, seen from the state
    before the run: one line when the file exists and at least one value is
    captured in it, none otherwise. *)
Definition mask_report (w : world) (entry : string * list pattern) : list message :=
  let '(filepath, patterns) := entry in
  match files w !! filepath with
  | Some content =>
      match (mask_content patterns content).2 with
      | [] => []
      | v :: vs => [MaskedSecrets (length (v :: vs)) filepath]
      end
  | None => []
  end.

(** The line [unmask] prints for a configured file: one line when the file
    exists and its path has an entry in the store, none otherwise. *)
Definition unmask_report (w : world) (entry : string * list pattern) : list message :=
  let '(filepath, patterns) := entry in
  match files w !! filepath, stored w !! filepath with
  | Some content, Some file_secrets =>
      [UnmaskedSecrets
         (Z.of_nat (length file_secrets)
          - Z.of_nat (length (unmask_content filepath patterns content file_secrets).2))%Z
         filepath]
  | _, _ => []
  end.

(** ** What a masked-form pattern matches *)

(** The text [t] starts with the key of [p] immediately followed by the
    mask token (environment-style layout), or with the key, optional
    whitespace, a double quote, the mask token and the closing double quote
    (quoted layout); [m] is that match, with what follows as its rest. *)
Definition token_after_key (f : string) (p : pattern) (t : text) (m : mtch) : Prop :=
  (f = COMPOSE_FILE /\
   exists key, p = compose_pattern key /\
     t = lit key ++ MASK ++ m_rest m /\
     m = Match (lit key) MASK [] (m_rest m)) \/
  (f = YAML_FILE /\
   exists key w, p = yaml_pattern key /\ forallb is_space w = true /\
     t = lit key ++ w ++ [QUOTE] ++ MASK ++ [QUOTE] ++ m_rest m /\
     m = Match (lit key ++ w ++ [QUOTE]) MASK [QUOTE] (m_rest m)).
(** * Properties of the matcher *)

Section MatcherFacts.
Context {A : Type}.
Implicit Types (s acc u : text) (cont : text -> text -> option A).

Lemma star_split k s acc cont x :
  star k s acc cont = Some x ->
  exists u s', s = u ++ s' /\ cont (rev u ++ acc) s' = Some x.
Proof.
  revert acc. induction s as [|c s IH]; intros acc; simpl.
  - intros H. by exists [], [].
  - destruct (in_class k c).
    + destruct (star k s (c :: acc) cont) as [r|] eqn:E.
      * intros [= ->]. destruct (IH _ E) as (u & s' & -> & Hc).
        exists (c :: u), s'. split; [done|]. simpl. by rewrite <- app_assoc.
      * intros H. by exists [], (c :: s).
    + intros H. by exists [], (c :: s).
Qed.

Lemma run_split r s acc cont x :
  run r s acc cont = Some x ->
  exists u s', s = u ++ s' /\ cont (rev u ++ acc) s' = Some x.
Proof.
  revert s acc. induction r as [|a r IH]; intros s acc; simpl.
  - intros H. by exists [], s.
  - destruct a as [c|k|k].
    + destruct s as [|x0 s]; [done|]. destruct (x0 =? c); [|done].
      intros H. destruct (IH _ _ H) as (u & s' & -> & Hc).
      exists (x0 :: u), s'. split; [done|]. simpl. by rewrite <- app_assoc.
    + intros H. destruct (star_split _ _ _ _ _ H) as (u & s1 & -> & H1).
      destruct (IH _ _ H1) as (u' & s' & -> & Hc).
      exists (u ++ u'), s'. split; [by rewrite app_assoc|].
      by rewrite rev_app_distr, <- app_assoc.
    + destruct s as [|x0 s]; [done|]. destruct (in_class k x0); [|done].
      intros H. destruct (star_split _ _ _ _ _ H) as (u & s1 & -> & H1).
      destruct (IH _ _ H1) as (u' & s' & -> & Hc).
      exists (x0 :: u ++ u'), s'. split; [simpl; by rewrite app_assoc|].
      simpl. rewrite rev_app_distr, <- !app_assoc. exact Hc.
Qed.
End MatcherFacts.

(** A match splits the text into its three groups and the rest. *)
Lemma match_at_split p s m :
  match_at p s = Some m -> s = group0 m ++ m_rest m.
Proof.
  unfold match_at. intros H.
  destruct (run_split _ _ _ _ _ H) as (u1 & s1 & -> & H1).
  destruct (run_split _ _ _ _ _ H1) as (u2 & s2 & -> & H2).
  destruct (run_split _ _ _ _ _ H2) as (u3 & s3 & -> & H3).
  injection H3 as <-. unfold group0. simpl.
  rewrite !app_nil_r, !rev_involutive. by rewrite <- !app_assoc.
Qed.

Lemma match_at_rest_length p s m :
  match_at p s = Some m -> length s = (length (group0 m) + length (m_rest m))%nat.
Proof. intros H. rewrite (match_at_split _ _ _ H) at 1. apply length_app. Qed.

(** * Properties of the scan *)

Section SubFacts.
Context {St : Type}.
Variable p : pattern.
Variable repl : mtch -> St -> text * St.

(** More fuel than the length of the text changes nothing. *)
Lemma sub_fuel_enough fuel s st :
  (length s < fuel)%nat ->
  sub_fuel p repl fuel s st = re_sub p repl s st.
Proof.
  unfold re_sub. revert s st.
  induction fuel as [fuel IH] using lt_wf_ind. intros s st Hlen.
  destruct fuel as [|fuel]; [lia|]. simpl.
  destruct (match_at p s) as [m|] eqn:Em.
  - destruct (repl m st) as [out st1].
    pose proof (match_at_rest_length _ _ _ Em) as Hl.
    destruct (group0 m) as [|g0 g] eqn:Eg.
    + destruct s as [|c s']; [done|]. simpl in Hlen.
      by rewrite (IH fuel) by (simpl; lia).
    + simpl in Hl. rewrite (IH fuel) by lia.
      by rewrite (IH (length s)) by lia.
  - destruct s as [|c s']; [done|]. simpl in Hlen.
    by rewrite (IH fuel) by (simpl; lia).
Qed.

(** The scan, one step at a time. *)
Lemma re_sub_unfold s st :
  re_sub p repl s st =
  match match_at p s with
  | Some m =>
      let '(out, st1) := repl m st in
      match group0 m, s with
      | [], [] => (out, st1)
      | [], c :: s' =>
          let '(o, st2) := re_sub p repl s' st1 in (out ++ c :: o, st2)
      | _ :: _, _ =>
          let '(o, st2) := re_sub p repl (m_rest m) st1 in (out ++ o, st2)
      end
  | None =>
      match s with
      | [] => ([], st)
      | c :: s' => let '(o, st2) := re_sub p repl s' st in (c :: o, st2)
      end
  end.
Proof.
  unfold re_sub at 1. simpl.
  destruct (match_at p s) as [m|] eqn:Em.
  - destruct (repl m st) as [out st1].
    pose proof (match_at_rest_length _ _ _ Em) as Hl.
    destruct (group0 m) as [|g0 g] eqn:Eg.
    + destruct s as [|c s']; [done|]. by rewrite sub_fuel_enough by (simpl; lia).
    + simpl in Hl. by rewrite sub_fuel_enough by lia.
  - destruct s as [|c s']; [done|]. by rewrite sub_fuel_enough by (simpl; lia).
Qed.
End SubFacts.

Section ItemsFacts.
Variable p : pattern.

Lemma items_fuel_enough fuel s :
  (length s < fuel)%nat -> items_fuel p fuel s = items p s.
Proof.
  unfold items. revert s.
  induction fuel as [fuel IH] using lt_wf_ind. intros s Hlen.
  destruct fuel as [|fuel]; [lia|]. simpl.
  destruct (match_at p s) as [m|] eqn:Em.
  - pose proof (match_at_rest_length _ _ _ Em) as Hl.
    destruct (group0 m) as [|g0 g] eqn:Eg.
    + destruct s as [|c s']; [done|]. simpl in Hlen.
      by rewrite (IH fuel) by (simpl; lia).
    + simpl in Hl. rewrite (IH fuel) by lia.
      by rewrite (IH (length s)) by lia.
  - destruct s as [|c s']; [done|]. simpl in Hlen.
    by rewrite (IH fuel) by (simpl; lia).
Qed.

Lemma items_unfold s :
  items p s =
  match match_at p s with
  | Some m =>
      match group0 m, s with
      | [], [] => [Fld m]
      | [], c :: s' => Fld m :: Ch c :: items p s'
      | _ :: _, _ => Fld m :: items p (m_rest m)
      end
  | None =>
      match s with
      | [] => []
      | c :: s' => Ch c :: items p s'
      end
  end.
Proof.
  unfold items at 1. simpl.
  destruct (match_at p s) as [m|] eqn:Em.
  - pose proof (match_at_rest_length _ _ _ Em) as Hl.
    destruct (group0 m) as [|g0 g] eqn:Eg.
    + destruct s as [|c s']; [done|]. by rewrite items_fuel_enough by (simpl; lia).
    + simpl in Hl. by rewrite items_fuel_enough by lia.
  - destruct s as [|c s']; [done|]. by rewrite items_fuel_enough by (simpl; lia).
Qed.

(** Induction along the scan. *)
Lemma scan_ind (P : text -> Prop) :
  (forall s, match_at p s = None -> s = [] -> P s) ->
  (forall c s, match_at p (c :: s) = None -> P s -> P (c :: s)) ->
  (forall m, match_at p [] = Some m -> group0 m = [] -> P []) ->
  (forall m c s, match_at p (c :: s) = Some m -> group0 m = [] -> P s -> P (c :: s)) ->
  (forall m s, match_at p s = Some m -> group0 m <> [] -> P (m_rest m) -> P s) ->
  forall s, P s.
Proof.
  intros H1 H2 H3 H4 H5 s.
  remember (length s) as n eqn:Hn. revert s Hn.
  induction n as [n IH] using lt_wf_ind. intros s ->.
  destruct (match_at p s) as [m|] eqn:Em.
  - pose proof (match_at_rest_length _ _ _ Em) as Hl.
    destruct (group0 m) as [|g0 g] eqn:Eg.
    + destruct s as [|c s']; [by eapply H3|].
      eapply H4; eauto. eapply IH; [|done]. simpl; lia.
    + eapply H5; eauto; [by rewrite Eg|]. eapply IH; [|done]. simpl in Hl. lia.
  - destruct s as [|c s']; [by eapply H1|].
    eapply H2; eauto. eapply IH; [|done]. simpl; lia.
Qed.

(** The items of a text spell the text. *)
Lemma render_items s : render (items p s) = s.
Proof.
  induction s as [s Em ->|c s Em IH|m Em Eg|m c s Em Eg IH|m s Em Eg IH]
    using scan_ind; rewrite items_unfold, Em; unfold render in *; simpl.
  - done.
  - by rewrite IH.
  - rewrite Eg. simpl. by rewrite Eg.
  - rewrite Eg. simpl. by rewrite Eg, IH.
  - destruct (group0 m) eqn:E; [done|]. simpl. rewrite E, IH, <- E.
    symmetry. by apply (match_at_split p).
Qed.

(** [re.sub] rewrites the matches of the scan and copies the rest. *)
Lemma re_sub_items {St} (repl : mtch -> St -> text * St) s st :
  re_sub p repl s st = rewrite_items repl (items p s) st.
Proof.
  revert st.
  induction s as [s Em ->|c s Em IH|m Em Eg|m c s Em Eg IH|m s Em Eg IH]
    using scan_ind; intros st; rewrite re_sub_unfold, items_unfold, Em; simpl.
  - done.
  - by rewrite IH.
  - destruct (repl m st) as [out st1] eqn:Er. rewrite Eg. simpl.
    by rewrite Er, app_nil_r.
  - destruct (repl m st) as [out st1] eqn:Er. rewrite Eg. simpl.
    rewrite Er, IH. by destruct (rewrite_items repl (items p s) st1).
  - destruct (repl m st) as [out st1] eqn:Er.
    destruct (group0 m) eqn:E; [done|]. simpl. by rewrite Er, IH.
Qed.
End ItemsFacts.

(** * Facts about the configured patterns *)

Lemma span_spec k s u r :
  span k s = (u, r) ->
  s = u ++ r /\ forallb (in_class k) u = true /\ starts_in k r = false.
Proof.
  revert u r. induction s as [|c s IH]; simpl; intros u r.
  - by intros [= <- <-].
  - destruct (in_class k c) eqn:Ec.
    + destruct (span k s) as [u' r'] eqn:E. intros [= <- <-].
      destruct (IH _ _ eq_refl) as (-> & Hu & Hr). simpl. by rewrite Ec, Hu.
    + intros [= <- <-]. simpl. by rewrite Ec.
Qed.

Lemma span_app_stop k u r :
  forallb (in_class k) u = true -> starts_in k r = false -> span k (u ++ r) = (u, r).
Proof.
  intros Hu Hr. induction u as [|c u IH]; simpl in *.
  - destruct r as [|c r]; [done|]. simpl in *. by rewrite Hr.
  - apply andb_true_iff in Hu as [Hc Hu]. by rewrite Hc, IH.
Qed.

Lemma strip_spec l s r : strip l s = Some r <-> s = l ++ r.
Proof.
  revert s. induction l as [|c l IH]; intros s; simpl.
  - destruct s; split; congruence.
  - destruct s as [|x s]; [split; congruence|].
    destruct (N.eqb_spec x c) as [->|Hne].
    + rewrite IH. split; congruence.
    + split; congruence.
Qed.

Lemma strip_app l r : strip l (l ++ r) = Some r.
Proof. by apply strip_spec. Qed.

Section Greedy.
Context {A : Type}.
Implicit Types (cont : text -> text -> option A).

(** If the continuation accepts the longest run, nothing is given back. *)
Lemma star_longest k s acc cont :
  is_Some (cont (rev (span k s).1 ++ acc) (span k s).2) ->
  star k s acc cont = cont (rev (span k s).1 ++ acc) (span k s).2.
Proof.
  revert acc. induction s as [|c s IH]; intros acc; simpl; [done|].
  destruct (in_class k c); [|done].
  destruct (span k s) as [u r] eqn:E. simpl in *.
  rewrite <- app_assoc. simpl. intros Hs.
  rewrite IH by done. by destruct Hs as [x ->].
Qed.

(** If the continuation refuses whatever starts with a character of the
    class, giving back cannot help. *)
Lemma star_no_backtrack k s acc cont :
  (forall a c t, in_class k c = true -> cont a (c :: t) = None) ->
  star k s acc cont = cont (rev (span k s).1 ++ acc) (span k s).2.
Proof.
  intros Hc. revert acc. induction s as [|c s IH]; intros acc; simpl; [done|].
  destruct (in_class k c) eqn:Ec; [|done].
  destruct (span k s) as [u r] eqn:E. simpl in *.
  rewrite <- app_assoc. simpl. rewrite IH.
  destruct (cont _ r) eqn:E2; [done|]. by rewrite Hc.
Qed.

Lemma run_lits l r s acc cont :
  run (map Lit l ++ r) s acc cont =
  match strip l s with
  | Some s' => run r s' (rev l ++ acc) cont
  | None => None
  end.
Proof.
  revert s acc. induction l as [|c l IH]; intros s acc; simpl.
  - by destruct s.
  - destruct s as [|x s]; [done|].
    destruct (N.eqb_spec x c) as [->|Hne]; [|done].
    rewrite IH. by rewrite <- app_assoc.
Qed.
End Greedy.

Lemma match_at_compose K s : match_at (compose_pat K) s = compose_match K s.
Proof.
  unfold match_at, compose_match, compose_pat. simpl.
  rewrite <- (app_nil_r (map Lit K)), run_lits.
  destruct (strip K s) as [t|]; [|done]. simpl.
  destruct t as [|x t]; [done|]. simpl.
  destruct (in_class CNotSpaceDash x); [|done].
  rewrite star_longest by (simpl; eauto).
  destruct (span CNotSpaceDash t) as [u r]. simpl.
  by rewrite app_nil_r, rev_involutive, rev_app_distr, rev_involutive.
Qed.

Lemma match_at_compose_masked K s :
  match_at (compose_masked K) s = compose_masked_match K s.
Proof.
  unfold match_at, compose_masked_match, compose_masked. cbn [prefix value suffix].
  rewrite <- (app_nil_r (map Lit K)), run_lits.
  destruct (strip K s) as [t|]; [|done]. cbn [run].
  rewrite <- (app_nil_r (map Lit MASK)), run_lits.
  destruct (strip MASK t) as [r|]; [|done]. simpl.
  by rewrite !app_nil_r, !rev_involutive.
Qed.

Lemma match_at_yaml K s : match_at (yaml_pat K) s = yaml_match K s.
Proof.
  unfold match_at, yaml_match, yaml_pat. simpl.
  rewrite run_lits.
  destruct (strip K s) as [t|]; [|done]. simpl.
  rewrite star_no_backtrack.
  2:{ intros a c u Hc. simpl. destruct (N.eqb_spec c QUOTE) as [->|]; done. }
  destruct (span CSpace t) as [w t1]. simpl.
  destruct t1 as [|q t2]; [done|].
  destruct (N.eqb_spec q QUOTE) as [->|Hq]; [|done].
  rewrite star_no_backtrack.
  2:{ intros a c u Hc. simpl. destruct (N.eqb_spec c QUOTE) as [->|]; done. }
  destruct (span CNotQuote t2) as [v t3]. simpl.
  destruct t3 as [|q' r]; [done|].
  destruct (N.eqb_spec q' QUOTE) as [->|Hq']; [|done].
  rewrite !app_nil_r, rev_involutive. simpl.
  by rewrite rev_app_distr, !rev_involutive, <- app_assoc.
Qed.

Lemma match_at_yaml_masked K s :
  match_at (yaml_masked K) s = yaml_masked_match K s.
Proof.
  unfold match_at, yaml_masked_match, yaml_masked. cbn [prefix value suffix].
  rewrite run_lits.
  destruct (strip K s) as [t|]; [|done]. cbn [run].
  rewrite star_no_backtrack.
  2:{ intros a c u Hc. simpl. destruct (N.eqb_spec c QUOTE) as [->|]; done. }
  destruct (span CSpace t) as [w t1]. cbn [fst snd strip].
  destruct t1 as [|q t2]; [done|].
  destruct (N.eqb_spec q QUOTE) as [->|Hq]; [|done].
  rewrite <- (app_nil_r (map Lit MASK)), run_lits.
  destruct (strip MASK t2) as [t3|]; [|done]. simpl.
  destruct t3 as [|q' r]; [done|].
  destruct (N.eqb_spec q' QUOTE) as [->|Hq']; [|done].
  rewrite app_nil_r, rev_app_distr, !rev_involutive, <- app_assoc.
  reflexivity.
Qed.

(** The patterns of the configuration are of these shapes. *)
Lemma compose_pattern_pat key : compose_pattern key = compose_pat (lit key).
Proof. reflexivity. Qed.

Lemma yaml_pattern_pat key : yaml_pattern key = yaml_pat (lit key).
Proof. reflexivity. Qed.

Lemma mask_search_compose K :
  mask_search_pattern COMPOSE_FILE (compose_pat K) = compose_masked K.
Proof. reflexivity. Qed.

Lemma mask_search_yaml K :
  mask_search_pattern YAML_FILE (yaml_pat K) = yaml_masked K.
Proof. reflexivity. Qed.

(** * The commands *)

Lemma compose_yaml_paths : COMPOSE_FILE <> YAML_FILE.
Proof. discriminate. Qed.

(** One turn of the loop of [mask], seen from a path [f]. *)
Lemma mask_file_lookup fs secrets out g qs f :
  let st' := mask_file (fs, secrets, out) (g, qs) in
  (f <> g -> st'.1.1 !! f = fs !! f /\ st'.1.2 !! f = secrets !! f) /\
  (f = g ->
   match fs !! f with
   | None => st'.1.1 !! f = None /\ st'.1.2 !! f = secrets !! f
   | Some content =>
       match (mask_content qs content).2 with
       | [] => st'.1.1 !! f = Some content /\ st'.1.2 !! f = secrets !! f
       | _ :: _ =>
           st'.1.1 !! f = Some (mask_content qs content).1 /\
           st'.1.2 !! f = Some (mask_content qs content).2
       end
   end).
Proof.
  simpl. split.
  - intros Hne. destruct (fs !! g) as [content|] eqn:E; [|done].
    destruct (mask_content qs content) as [nc [|v vs]]; [done|]. simpl.
    by rewrite !lookup_insert_ne.
  - intros ->. destruct (fs !! g) as [content|] eqn:E; [|done].
    destruct (mask_content qs content) as [nc [|v vs]]; [done|]. simpl.
    by rewrite !lookup_insert_eq.
Qed.

(** What [mask] leaves at a configured path: the file and the store entry. *)
Lemma mask_lookup w f ps :
  (f, ps) ∈ FILES_CONFIG ->
  match files w !! f with
  | None => files (mask w) !! f = None /\ stored (mask w) !! f = stored w !! f
  | Some content =>
      match (mask_content ps content).2 with
      | [] => files (mask w) !! f = Some content /\ stored (mask w) !! f = stored w !! f
      | _ :: _ =>
          files (mask w) !! f = Some (mask_content ps content).1 /\
          stored (mask w) !! f = Some (mask_content ps content).2
      end
  end.
Proof.
  intros Hin. unfold mask, stored.
  destruct (load_secrets w) as [secrets out0] eqn:El. unfold FILES_CONFIG in *.
  cbn [fold_left].
  destruct (mask_file (files w, secrets, printed w ++ out0)
              (COMPOSE_FILE, compose_patterns)) as [[fs1 sec1] out1] eqn:E1.
  destruct (mask_file (fs1, sec1, out1) (YAML_FILE, yaml_patterns))
    as [[fs2 sec2] out2] eqn:E2.
  pose proof (mask_file_lookup (files w) secrets (printed w ++ out0)
                COMPOSE_FILE compose_patterns f) as [H1n H1e].
  pose proof (mask_file_lookup fs1 sec1 out1 YAML_FILE yaml_patterns f) as [H2n H2e].
  rewrite E1 in H1n, H1e. rewrite E2 in H2n, H2e. cbn [fst snd] in *.
  cbn [files secrets_file load_secrets fst].
  apply elem_of_cons in Hin as [[= -> ->]|Hin].
  - clear H1n. specialize (H1e eq_refl).
    destruct (H2n compose_yaml_paths) as [-> ->]. exact H1e.
  - apply elem_of_cons in Hin as [[= -> ->]|Hin]; [|by apply elem_of_nil in Hin].
    destruct (H1n (not_eq_sym compose_yaml_paths)) as [Ha Hb].
    specialize (H2e eq_refl). rewrite Ha, Hb in H2e. exact H2e.
Qed.

Lemma mask_at_path w f ps content :
  (f, ps) ∈ FILES_CONFIG ->
  files w !! f = Some content ->
  match (mask_content ps content).2 with
  | [] => files (mask w) !! f = Some content /\ stored (mask w) !! f = stored w !! f
  | _ :: _ =>
      files (mask w) !! f = Some (mask_content ps content).1 /\
      stored (mask w) !! f = Some (mask_content ps content).2
  end.
Proof. intros Hin Hf. pose proof (mask_lookup w f ps Hin) as H. by rewrite Hf in H. Qed.

(** * Masking follows the specification's wording *)

Lemma rewrite_items_mask d acc :
  rewrite_items mask_replacer d acc =
  (concat (map masked_item d),
   acc ++ filter (fun v => v <> MASK) (map m_value (omap fld_of d))).
Proof.
  revert acc. induction d as [|[c|m] d IH]; intros acc; simpl.
  - by rewrite app_nil_r.
  - by rewrite IH.
  - unfold mask_replacer. destruct (decide (m_value m = MASK)) as [E|E].
    + rewrite IH. rewrite filter_cons_False by (by intros H; apply H). done.
    + rewrite IH. rewrite filter_cons_True by done.
      f_equal. by rewrite <- app_assoc.
Qed.

Lemma re_sub_mask p s acc :
  re_sub p mask_replacer s acc =
  ((mask_pattern_spec p s).1, acc ++ (mask_pattern_spec p s).2).
Proof. by rewrite re_sub_items, rewrite_items_mask. Qed.

Lemma mask_fold_spec ps s acc :
  fold_left (fun a p => re_sub p mask_replacer a.1 a.2) ps (s, acc) =
  ((mask_spec ps s).1, acc ++ (mask_spec ps s).2).
Proof.
  revert s acc. induction ps as [|p ps IH]; intros s acc.
  - simpl. by rewrite app_nil_r.
  - cbn [fold_left mask_spec fst snd]. rewrite re_sub_mask, IH.
    destruct (mask_pattern_spec p s) as [c1 v1]. cbn [fst snd].
    destruct (mask_spec ps c1) as [c2 v2]. cbn [fst snd].
    by rewrite app_assoc.
Qed.

Lemma mask_content_spec ps s : mask_content ps s = mask_spec ps s.
Proof.
  unfold mask_content. rewrite mask_fold_spec. by destruct (mask_spec ps s).
Qed.

(** * Unmasking follows the specification's wording *)

(** Every match among the items is a match of the pattern somewhere. *)
Lemma items_are_matches p s m :
  Fld m ∈ items p s -> exists t, match_at p t = Some m.
Proof.
  induction s as [s Em ->|c s Em IH|m' Em Eg|m' c s Em Eg IH|m' s Em Eg IH]
    using (scan_ind p); rewrite items_unfold, Em.
  - by intros H%elem_of_nil.
  - intros [H|H]%elem_of_cons; [done|]. by apply IH.
  - rewrite Eg. intros [[= ->]|H%elem_of_nil]%elem_of_cons; [|done]. eauto.
  - rewrite Eg. intros [[= ->]|[H|H]%elem_of_cons]%elem_of_cons; eauto. done.
  - destruct (group0 m') eqn:E; [done|].
    intros [[= ->]|H]%elem_of_cons; eauto.
Qed.

Lemma masked_form_items q s :
  masked_form q -> Forall (fun i => forall m, i = Fld m -> m_value m = MASK) (items q s).
Proof.
  intros Hq. apply Forall_forall. intros i Hi m ->.
  destruct (items_are_matches _ _ _ Hi) as [t Ht]. by eapply Hq.
Qed.

Lemma unmask_replacer_cons m v rest :
  m_value m = MASK ->
  unmask_replacer m (v :: rest) = (m_prefix m ++ v ++ m_suffix m, rest).
Proof. intros E. unfold unmask_replacer. by rewrite decide_True. Qed.

Lemma rewrite_items_unmask d stored i :
  Forall (fun it => forall m, it = Fld m -> m_value m = MASK) d ->
  rewrite_items unmask_replacer d (drop i stored) =
  (restore_from i d stored, drop (i + count_matches d) stored).
Proof.
  intros Hd. revert i. induction Hd as [|[c|m] d Hm Hd IH]; intros i.
  - unfold count_matches. simpl. by rewrite Nat.add_0_r.
  - simpl. by rewrite IH.
  - cbn [rewrite_items restore_from]. unfold count_matches in *.
    cbn [omap list_omap fld_of length].
    destruct (stored !! i) as [v|] eqn:Ei.
    + replace (drop i stored) with (v :: drop (S i) stored)
        by (symmetry; by apply drop_S).
      rewrite unmask_replacer_cons by by apply Hm.
      rewrite IH. f_equal. f_equal. lia.
    + apply lookup_ge_None in Ei.
      assert (Hi : drop i stored = []) by (apply drop_ge; exact Ei).
      assert (HSi : drop (S i) stored = []) by (apply drop_ge, le_S; exact Ei).
      rewrite Hi. cbn [unmask_replacer]. rewrite <- HSi at 1. rewrite IH.
      f_equal. f_equal. lia.
Qed.

Lemma re_sub_unmask q s stored :
  masked_form q ->
  re_sub q unmask_replacer s stored = unmask_pattern_spec q s stored.
Proof.
  intros Hq. rewrite re_sub_items. unfold unmask_pattern_spec.
  rewrite <- (drop_0 stored) at 1.
  by rewrite rewrite_items_unmask by by apply masked_form_items.
Qed.

Lemma unmask_fold_spec (g : pattern -> pattern) ps s stored :
  Forall (fun p => masked_form (g p)) ps ->
  fold_left (fun a p => re_sub (g p) unmask_replacer a.1 a.2) ps (s, stored) =
  unmask_spec (map g ps) s stored.
Proof.
  intros Hps. revert s stored. induction Hps as [|p ps Hp Hps IH]; intros s stored.
  - done.
  - cbn [fold_left map unmask_spec fst snd]. rewrite re_sub_unmask by done.
    destruct (unmask_pattern_spec (g p) s stored) as [c1 st1]. apply IH.
Qed.

Lemma compose_masked_form K : masked_form (compose_masked K).
Proof.
  intros s m. rewrite match_at_compose_masked. unfold compose_masked_match.
  destruct (strip K s); [|done]. destruct (strip MASK _); [|done]. by intros [= <-].
Qed.

Lemma yaml_masked_form K : masked_form (yaml_masked K).
Proof.
  intros s m. rewrite match_at_yaml_masked. unfold yaml_masked_match.
  destruct (strip K s); [|done]. destruct (span CSpace _).
  destruct (strip [QUOTE] _); [|done]. destruct (strip MASK _); [|done].
  destruct (strip [QUOTE] _); [|done]. by intros [= <-].
Qed.

Lemma config_masked_form f ps :
  (f, ps) ∈ FILES_CONFIG -> Forall (fun p => masked_form (mask_search_pattern f p)) ps.
Proof.
  unfold FILES_CONFIG. rewrite !elem_of_cons, elem_of_nil.
  intros [[= -> ->]|[[= -> ->]|[]]].
  - repeat constructor; apply compose_masked_form.
  - repeat constructor; apply yaml_masked_form.
Qed.

Lemma unmask_content_spec f ps s stored :
  (f, ps) ∈ FILES_CONFIG ->
  unmask_content f ps s stored = unmask_spec (map (mask_search_pattern f) ps) s stored.
Proof.
  intros Hin. unfold unmask_content. apply unmask_fold_spec.
  by apply config_masked_form.
Qed.

(** What is left of the stored sequence, and how many values were used. *)
Lemma unmask_spec_remaining qs s stored :
  length (unmask_spec qs s stored).2 = (length stored - occurrences qs s stored)%nat.
Proof.
  revert s stored. induction qs as [|q qs IH]; intros s stored.
  - simpl. lia.
  - cbn [unmask_spec occurrences].
    destruct (unmask_pattern_spec q s stored) as [c1 st1] eqn:E.
    rewrite IH. unfold unmask_pattern_spec in E. injection E as _ <-.
    rewrite length_drop. lia.
Qed.

(** * Frames *)

Lemma same_frame_refl i : same_frame i i.
Proof. destruct i; by constructor. Qed.

Lemma render_cons i d : render (i :: d) = item_text i ++ render d.
Proof. reflexivity. Qed.

Lemma rewrite_items_mask_frame d acc :
  exists d', Forall2 same_frame d d' /\ (rewrite_items mask_replacer d acc).1 = render d'.
Proof.
  rewrite rewrite_items_mask. cbn [fst]. clear acc.
  induction d as [|[c|m] d (d' & Hf & Hr)].
  - by exists [].
  - exists (Ch c :: d'). split; [constructor; [constructor|done]|].
    simpl. rewrite render_cons. by rewrite Hr.
  - cbn [map concat masked_item]. destruct (decide (m_value m = MASK)).
    + exists (Fld m :: d'). split; [constructor; [apply same_frame_refl|done]|].
      rewrite render_cons. by rewrite Hr.
    + exists (Fld (Match (m_prefix m) MASK (m_suffix m) (m_rest m)) :: d').
      split; [constructor; [by constructor|done]|].
      rewrite render_cons. by rewrite Hr.
Qed.

Lemma rewrite_items_unmask_frame d st :
  exists d', Forall2 same_frame d d' /\ Forall2 only_masked d d' /\
             (rewrite_items unmask_replacer d st).1 = render d'.
Proof.
  revert st. induction d as [|[c|m] d IH]; intros st.
  - exists []. by repeat constructor.
  - destruct (IH st) as (d' & Hf & Hm & Hr). exists (Ch c :: d').
    repeat split; [by repeat constructor..|].
    simpl. destruct (rewrite_items unmask_replacer d st). simpl in *.
    rewrite render_cons. by rewrite Hr.
  - cbn [rewrite_items]. unfold unmask_replacer at 1.
    destruct st as [|v st].
    + destruct (IH []) as (d' & Hf & Hm & Hr). exists (Fld m :: d').
      split; [constructor; [apply same_frame_refl|done]|].
      split; [constructor; [constructor; by right|done]|].
      destruct (rewrite_items unmask_replacer d []). simpl in *.
      rewrite render_cons. by rewrite Hr.
    + destruct (decide (m_value m = MASK)) as [E|E].
      * destruct (IH st) as (d' & Hf & Hm & Hr).
        exists (Fld (Match (m_prefix m) v (m_suffix m) (m_rest m)) :: d').
        split; [constructor; [by constructor|done]|].
        split; [constructor; [constructor; by left|done]|].
        destruct (rewrite_items unmask_replacer d st). simpl in *.
        rewrite render_cons. by rewrite Hr.
      * destruct (IH (v :: st)) as (d' & Hf & Hm & Hr). exists (Fld m :: d').
        split; [constructor; [apply same_frame_refl|done]|].
        split; [constructor; [constructor; by right|done]|].
        destruct (rewrite_items unmask_replacer d (v :: st)). simpl in *.
        rewrite render_cons. by rewrite Hr.
Qed.

Lemma mask_pass_value_edit p s acc : value_edit p s (re_sub p mask_replacer s acc).1.
Proof.
  rewrite re_sub_items.
  destruct (rewrite_items_mask_frame (items p s) acc) as (d' & Hf & Hr).
  exists d'. by rewrite render_items.
Qed.

Lemma unmask_pass_value_edit q s st :
  masked_value_edit q s (re_sub q unmask_replacer s st).1.
Proof.
  rewrite re_sub_items.
  destruct (rewrite_items_unmask_frame (items q s) st) as (d' & Hf & Hm & Hr).
  exists d'. by rewrite render_items.
Qed.

Lemma mask_fold_chain ps s acc :
  edit_chain value_edit ps s
    (fold_left (fun a p => re_sub p mask_replacer a.1 a.2) ps (s, acc)).1.
Proof.
  revert s acc. induction ps as [|p ps IH]; intros s acc; [constructor|].
  cbn [fold_left fst snd].
  pose proof (mask_pass_value_edit p s acc) as H.
  destruct (re_sub p mask_replacer s acc) as [s1 acc1]. by econstructor.
Qed.

Lemma unmask_fold_chain (g : pattern -> pattern) ps s st :
  edit_chain masked_value_edit (map g ps) s
    (fold_left (fun a p => re_sub (g p) unmask_replacer a.1 a.2) ps (s, st)).1.
Proof.
  revert s st. induction ps as [|p ps IH]; intros s st; [constructor|].
  cbn [fold_left fst snd map].
  pose proof (unmask_pass_value_edit (g p) s st) as H.
  destruct (re_sub (g p) unmask_replacer s st) as [s1 st1]. by econstructor.
Qed.

(** * Texts without a match *)

Lemma compose_patterns_keys : compose_patterns = map compose_pattern compose_keys.
Proof. reflexivity. Qed.

Lemma yaml_patterns_keys : yaml_patterns = map yaml_pattern yaml_keys.
Proof. reflexivity. Qed.

Lemma suffixes_self s : s ∈ suffixes s.
Proof. destruct s; left. Qed.

Lemma matches_anywhere_cons q c s :
  matches_anywhere q (c :: s) = false ->
  match_at q (c :: s) = None /\ matches_anywhere q s = false.
Proof.
  unfold matches_anywhere. cbn [suffixes existsb].
  intros [H1 H2]%orb_false_elim. split; [|done].
  apply bool_decide_eq_false in H1. destruct (match_at q (c :: s)); [|done].
  destruct H1. eauto.
Qed.

Lemma matches_anywhere_nil q :
  matches_anywhere q [] = false -> match_at q [] = None.
Proof.
  unfold matches_anywhere. cbn [suffixes existsb].
  intros [H1 _]%orb_false_elim.
  apply bool_decide_eq_false in H1. destruct (match_at q []); [|done].
  destruct H1. eauto.
Qed.

(** Where the pattern matches nowhere, the scan sees characters only. *)
Lemma items_no_match q s : matches_anywhere q s = false -> items q s = map Ch s.
Proof.
  induction s as [|c s IH]; intros H; rewrite items_unfold.
  - by rewrite matches_anywhere_nil.
  - apply matches_anywhere_cons in H as [-> H]. simpl. by rewrite IH.
Qed.

Lemma restore_from_chars i s stored : restore_from i (map Ch s) stored = s.
Proof. induction s as [|c s IH]; simpl; by rewrite ?IH. Qed.

Lemma count_matches_chars s : count_matches (map Ch s) = 0%nat.
Proof. unfold count_matches. induction s as [|c s IH]; simpl; done. Qed.

Lemma unmask_pattern_spec_no_match q s stored :
  matches_anywhere q s = false -> unmask_pattern_spec q s stored = (s, stored).
Proof.
  intros H. unfold unmask_pattern_spec. rewrite items_no_match by done.
  by rewrite restore_from_chars, count_matches_chars.
Qed.

Lemma unmask_spec_no_match qs s stored :
  (forall q, q ∈ qs -> matches_anywhere q s = false) ->
  unmask_spec qs s stored = (s, stored).
Proof.
  induction qs as [|q qs IH]; intros H; [done|].
  cbn [unmask_spec]. rewrite unmask_pattern_spec_no_match by (apply H; left).
  apply IH. intros q' Hq'. apply H. by right.
Qed.

(** What a match somewhere means for the masked forms of the two layouts. *)
Lemma matches_anywhere_true q s :
  matches_anywhere q s = true <-> exists a t m, s = a ++ t /\ match_at q t = Some m.
Proof.
  unfold matches_anywhere. rewrite existsb_exists. split.
  - intros (t & Hin & Hm). apply bool_decide_eq_true in Hm as [m Hm].
    apply list_elem_of_In in Hin.
    assert (exists a, s = a ++ t) as [a ->].
    { clear Hm. induction s as [|c s IH]; simpl in Hin.
      - apply elem_of_cons in Hin as [->|Hin%elem_of_nil]; [by exists []|done].
      - apply elem_of_cons in Hin as [->|Hin]; [by exists []|].
        destruct (IH Hin) as [a ->]. by exists (c :: a). }
    eauto.
  - intros (a & t & m & -> & Hm). exists t. split.
    + apply list_elem_of_In. clear Hm. induction a as [|c a IH]; simpl.
      * apply suffixes_self.
      * by right.
    + apply bool_decide_eq_true. eauto.
Qed.

Lemma compose_masked_anywhere K s :
  matches_anywhere (compose_masked K) s = true <->
  exists a b, s = a ++ K ++ MASK ++ b.
Proof.
  rewrite matches_anywhere_true. split.
  - intros (a & t & m & -> & Hm). rewrite match_at_compose_masked in Hm.
    unfold compose_masked_match in Hm.
    destruct (strip K t) as [t1|] eqn:E1; [|done].
    destruct (strip MASK t1) as [r|] eqn:E2; [|done].
    apply strip_spec in E1 as ->. apply strip_spec in E2 as ->. eauto.
  - intros (a & b & ->). exists a, (K ++ MASK ++ b), (Match K MASK [] b).
    split; [done|]. rewrite match_at_compose_masked. unfold compose_masked_match.
    by rewrite !strip_app.
Qed.

Lemma yaml_masked_anywhere K s :
  matches_anywhere (yaml_masked K) s = true <->
  exists a w b, forallb is_space w = true /\
                s = a ++ K ++ w ++ [QUOTE] ++ MASK ++ [QUOTE] ++ b.
Proof.
  rewrite matches_anywhere_true. split.
  - intros (a & t & m & -> & Hm). rewrite match_at_yaml_masked in Hm.
    unfold yaml_masked_match in Hm.
    destruct (strip K t) as [t1|] eqn:E1; [|done].
    destruct (span CSpace t1) as [w t2] eqn:Ew.
    destruct (strip [QUOTE] t2) as [t3|] eqn:E2; [|done].
    destruct (strip MASK t3) as [t4|] eqn:E3; [|done].
    destruct (strip [QUOTE] t4) as [r|] eqn:E4; [|done].
    apply strip_spec in E1 as ->. apply span_spec in Ew as (-> & Hw & _).
    apply strip_spec in E2 as ->. apply strip_spec in E3 as ->.
    apply strip_spec in E4 as ->. exists a, w, r. split; [exact Hw|done].
  - intros (a & w & b & Hw & ->).
    exists a, (K ++ w ++ [QUOTE] ++ MASK ++ [QUOTE] ++ b),
      (Match (K ++ w ++ [QUOTE]) MASK [QUOTE] b).
    split; [done|]. rewrite match_at_yaml_masked. unfold yaml_masked_match.
    rewrite strip_app. rewrite (span_app_stop CSpace w) by done.
    change ([QUOTE] ++ MASK ++ [QUOTE] ++ b) with ([QUOTE] ++ (MASK ++ [QUOTE] ++ b)).
    by rewrite !strip_app.
Qed.

(** * One pass of mask, step by step *)

Lemma masked_item_fld m : masked_item (Fld m) = m_prefix m ++ MASK ++ m_suffix m.
Proof.
  unfold masked_item, group0. destruct (decide (m_value m = MASK)) as [->|]; done.
Qed.

Section PassSteps.
Variable p : pattern.

Lemma mask_pass_nil : match_at p [] = None -> mask_pass p [] = [].
Proof. intros E. unfold mask_pass, mask_pattern_spec. by rewrite items_unfold, E. Qed.

Lemma mask_pass_skip c s :
  match_at p (c :: s) = None -> mask_pass p (c :: s) = c :: mask_pass p s.
Proof. intros E. unfold mask_pass, mask_pattern_spec. by rewrite items_unfold, E. Qed.

Lemma mask_pass_match s m :
  match_at p s = Some m -> group0 m <> [] ->
  mask_pass p s = (m_prefix m ++ MASK ++ m_suffix m) ++ mask_pass p (m_rest m).
Proof.
  intros E Hg. unfold mask_pass, mask_pattern_spec. rewrite items_unfold, E.
  destruct (group0 m) eqn:Eg; [done|]. cbn [fst map concat].
  by rewrite masked_item_fld.
Qed.

Lemma mask_caps_nil : match_at p [] = None -> mask_caps p [] = [].
Proof.
  intros E. unfold mask_caps, mask_pattern_spec, matches. by rewrite items_unfold, E.
Qed.

Lemma mask_caps_skip c s :
  match_at p (c :: s) = None -> mask_caps p (c :: s) = mask_caps p s.
Proof.
  intros E. unfold mask_caps, mask_pattern_spec, matches. by rewrite items_unfold, E.
Qed.

Lemma mask_caps_match s m :
  match_at p s = Some m -> group0 m <> [] ->
  mask_caps p s =
    (if decide (m_value m = MASK) then [] else [m_value m]) ++ mask_caps p (m_rest m).
Proof.
  intros E Hg. unfold mask_caps, mask_pattern_spec, matches. rewrite items_unfold, E.
  destruct (group0 m) eqn:Eg; [done|]. cbn [snd omap list_omap fld_of map].
  destruct (decide (m_value m = MASK)) as [Ev|Ev].
  - by rewrite filter_cons_False by (intros H; by apply H).
  - by rewrite filter_cons_True by done.
Qed.
End PassSteps.

(** * Masked texts *)

Lemma all_masked_app p a t : all_masked p (a ++ t) -> all_masked p t.
Proof.
  intros H a' t' m -> Hm. apply (H (a ++ a') t' m); [by rewrite app_assoc|done].
Qed.

Lemma all_masked_head p t m : all_masked p t -> match_at p t = Some m -> m_value m = MASK.
Proof. intros H. by apply (H [] t m). Qed.

Lemma all_masked_split p a t :
  clean_after p a t -> all_masked p t -> all_masked p (a ++ t).
Proof.
  intros Hc Ht a' t' m E Hm.
  apply app_eq_app in E as [l [[-> ->]|[-> ->]]].
  - destruct l as [|c l].
    + rewrite app_nil_l in Hm. by eapply all_masked_head.
    + by apply (Hc a' (c :: l) m).
  - by apply (Ht l t' m).
Qed.

Lemma clean_after_nil p t : clean_after p [] t.
Proof. intros a1 x m E Hx. by destruct a1, x. Qed.

(** One more character on the left, checked or known to be clean. *)
Lemma clean_after_snoc p a c t :
  clean_after p a (c :: t) ->
  (forall m, match_at p (c :: t) = Some m -> m_value m = MASK) ->
  clean_after p (a ++ [c]) t.
Proof.
  intros Hc Hh a1 x m E Hx Hm.
  destruct (exists_last Hx) as (y & c' & ->).
  rewrite app_assoc in E. apply app_inj_tail in E as [-> <-].
  rewrite <- app_assoc in Hm. simpl in Hm.
  destruct y as [|c0 y]; [by apply Hh|]. by apply (Hc a1 (c0 :: y) m).
Qed.

(** A text in which every match is masked is left as it is, and nothing is
    captured. *)
Lemma mask_pass_all_masked p s :
  all_masked p s -> mask_pass p s = s /\ mask_caps p s = [].
Proof.
  induction s as [s Em ->|c s Em IH|m Em Eg|m c s Em Eg IH|m s Em Eg IH]
    using (scan_ind p); intros H.
  - by rewrite mask_pass_nil, mask_caps_nil.
  - rewrite mask_pass_skip, mask_caps_skip by done.
    destruct IH as [-> ->]; [|done]. by apply (all_masked_app p [c]).
  - pose proof (all_masked_head _ _ _ H Em) as Ev.
    unfold group0 in Eg. rewrite Ev in Eg. by destruct (m_prefix m).
  - pose proof (all_masked_head _ _ _ H Em) as Ev.
    unfold group0 in Eg. rewrite Ev in Eg. by destruct (m_prefix m).
  - pose proof (all_masked_head _ _ _ H Em) as Ev.
    pose proof (match_at_split _ _ _ Em) as Es.
    rewrite (mask_pass_match p s m), (mask_caps_match p s m) by done.
    rewrite decide_True by done.
    destruct IH as [-> ->].
    { apply (all_masked_app p (group0 m)). by rewrite <- Es. }
    split; [|done]. rewrite Es. unfold group0. by rewrite Ev.
Qed.

Section PassKeeps.
Variables pj pk : pattern.
Hypothesis pk_nonempty : forall t m, match_at pk t = Some m -> group0 m <> [].
Hypothesis step : forall a t m,
  match_at pk t = Some m -> clean_after pj a t -> (pj = pk \/ all_masked pj t) ->
  clean_after pj (a ++ m_prefix m ++ MASK ++ m_suffix m) (m_rest m).

Lemma head_masked t :
  match_at pk t = None -> (pj = pk \/ all_masked pj t) ->
  forall m, match_at pj t = Some m -> m_value m = MASK.
Proof.
  intros Hn [->|H] m Hm; [congruence|]. by eapply all_masked_head.
Qed.

Lemma tail_masked a t :
  (pj = pk \/ all_masked pj (a ++ t)) -> (pj = pk \/ all_masked pj t).
Proof. intros [->|H]; [by left|right]. by eapply all_masked_app. Qed.

(** A pass of [pk] keeps, or makes, every match of [pj] masked. *)
Lemma pass_keeps_masked t a :
  clean_after pj a t -> (pj = pk \/ all_masked pj t) ->
  all_masked pj (a ++ mask_pass pk t).
Proof.
  revert a.
  induction t as [t Em ->|c t Em IH|m Em Eg|m c t Em Eg IH|m t Em Eg IH]
    using (scan_ind pk); intros a Hc Hor.
  - rewrite mask_pass_nil by done. apply all_masked_split; [done|].
    intros a' t' m E Hm. symmetry in E. apply app_eq_nil in E as [-> ->].
    by eapply head_masked.
  - rewrite mask_pass_skip by done. rewrite cons_middle, app_assoc.
    apply IH.
    + apply clean_after_snoc; [done|]. by apply head_masked.
    + by apply (tail_masked [c]).
  - by destruct (pk_nonempty _ _ Em).
  - by destruct (pk_nonempty _ _ Em).
  - rewrite (mask_pass_match pk t m) by done. rewrite app_assoc.
    apply IH.
    + by apply (step a t m).
    + apply (tail_masked (group0 m)). by rewrite <- (match_at_split _ _ _ Em).
Qed.
End PassKeeps.

(** * Text lemmas for the two layouts *)

Lemma span_app k z s :
  span k (z ++ s) =
  match (span k z).2 with
  | [] => (z ++ (span k s).1, (span k s).2)
  | _ :: _ => ((span k z).1, (span k z).2 ++ s)
  end.
Proof.
  induction z as [|c z IH]; simpl.
  - by destruct (span k s).
  - destruct (in_class k c); [|done]. rewrite IH.
    destruct (span k z) as [z1 [|c2 z2]]; simpl; [|done].
    by destruct (span k s).
Qed.

Lemma span_all k z : forallb (in_class k) z = true -> span k z = (z, []).
Proof.
  intros H. rewrite <- (app_nil_r z) at 1. by rewrite span_app_stop.
Qed.

Lemma span_fst_all k s : forallb (in_class k) (span k s).1 = true.
Proof. destruct (span k s) as [u r] eqn:E. by apply span_spec in E as (_ & ? & _). Qed.

Lemma span_snd_stop k s : starts_in k (span k s).2 = false.
Proof. destruct (span k s) as [u r] eqn:E. by apply span_spec in E as (_ & _ & ?). Qed.

Lemma span_eq k s : s = (span k s).1 ++ (span k s).2.
Proof. destruct (span k s) as [u r] eqn:E. by apply span_spec in E as (? & _ & _). Qed.

(** The mask token is made of stars. *)
Lemma MASK_stars : Forall (fun c => c = STAR) MASK.
Proof. repeat constructor. Qed.

Lemma MASK_suffix_star l x : MASK = l ++ x -> x <> [] -> exists x', x = STAR :: x'.
Proof.
  intros E Hx. pose proof MASK_stars as H. rewrite E in H.
  apply Forall_app in H as [_ H]. destruct x as [|c x]; [done|].
  apply Forall_cons in H as [-> _]. eauto.
Qed.

Lemma MASK_compose_class : forallb (in_class CNotSpaceDash) MASK = true.
Proof. reflexivity. Qed.

Lemma MASK_yaml_class : forallb (in_class CNotQuote) MASK = true.
Proof. reflexivity. Qed.

(** A key without stars that starts a text [y ++ MASK ++ r] lies within [y]. *)
Lemma key_before_mask K y r t :
  STAR ∉ K -> K ++ t = y ++ MASK ++ r ->
  exists z, y = K ++ z /\ t = z ++ MASK ++ r.
Proof.
  intros HK E. apply app_eq_app in E as [l [[-> E]|[-> E]]]; [|eauto].
  destruct l as [|c l]; [exists []; simpl in E; by rewrite !app_nil_r|].
  exfalso. apply HK. change (MASK ++ r) with (STAR :: (drop 1 MASK ++ r)) in E.
  injection E as <- _. apply elem_of_app. right. left.
Qed.

(** Two texts that end the same text end with the same character. *)
Lemma same_end (X Y K z : text) :
  X ++ K = Y ++ z -> K <> [] -> z <> [] -> exists e, e ∈ K /\ e ∈ z.
Proof.
  intros E HK Hz.
  destruct (exists_last HK) as (K' & e & ->).
  destruct (exists_last Hz) as (z' & e' & ->).
  rewrite !app_assoc in E. apply app_inj_tail in E as [_ <-].
  exists e. split; apply elem_of_app; right; left.
Qed.

Lemma compose_pat_inj K K' : compose_pat K = compose_pat K' -> K = K'.
Proof.
  intros [= E]. revert K' E. induction K as [|c K IH]; intros [|c' K'] E; try done.
  injection E as -> E. f_equal. by apply IH.
Qed.

Lemma yaml_pat_inj K K' : yaml_pat K = yaml_pat K' -> K = K'.
Proof.
  intros [= E]. apply app_inv_tail in E.
  revert K' E. induction K as [|c K IH]; intros [|c' K'] E; try done.
  injection E as -> E. f_equal. by apply IH.
Qed.

(** * The compose layout: a pass keeps matches masked *)

Lemma compose_match_app K s :
  match_at (compose_pat K) (K ++ s) =
  match span CNotSpaceDash s with
  | ([], _) => None
  | (v, r) => Some (Match K v [] r)
  end.
Proof. rewrite match_at_compose. unfold compose_match. by rewrite strip_app. Qed.

Lemma compose_match_inv K t m :
  match_at (compose_pat K) t = Some m ->
  exists v r, t = K ++ v ++ r /\ v <> [] /\
    forallb (in_class CNotSpaceDash) v = true /\
    starts_in CNotSpaceDash r = false /\ m = Match K v [] r.
Proof.
  rewrite match_at_compose. unfold compose_match.
  destruct (strip K t) as [t1|] eqn:E1; [|done]. apply strip_spec in E1 as ->.
  destruct (span CNotSpaceDash t1) as [v r] eqn:Es.
  apply span_spec in Es as (-> & Hv & Hr).
  destruct v as [|c v]; [done|]. intros [= <-]. by exists (c :: v), r.
Qed.

Lemma compose_nonempty K t m :
  match_at (compose_pat K) t = Some m -> group0 m <> [].
Proof.
  intros (v & r & -> & Hv & _ & _ & ->)%compose_match_inv. unfold group0. simpl.
  destruct K; [by destruct v|done].
Qed.

Lemma compose_step Kj Kk :
  Kj <> [] -> STAR ∉ Kj -> Kk <> [] -> STAR ∉ Kk ->
  forall a t m,
    match_at (compose_pat Kk) t = Some m ->
    clean_after (compose_pat Kj) a t ->
    (compose_pat Kj = compose_pat Kk \/ all_masked (compose_pat Kj) t) ->
    clean_after (compose_pat Kj) (a ++ m_prefix m ++ MASK ++ m_suffix m) (m_rest m).
Proof.
  intros HKj HsKj HKk HsKk a t m Hm Hc Hor a1 x m' E Hx Hm'.
  apply compose_match_inv in Hm as (v & r & -> & Hv & Hvall & Hr & ->).
  cbn [m_prefix m_suffix m_rest] in *. rewrite app_nil_r, app_assoc in E.
  assert (Hstar : forall x' l, MASK = l ++ x' -> x' <> [] ->
            match_at (compose_pat Kj) (x' ++ r) = Some m' -> False).
  { intros x' l El Hx' Hmx. destruct (MASK_suffix_star _ _ El Hx') as [x2 ->].
    apply compose_match_inv in Hmx as (u & r' & Eu & _).
    destruct Kj as [|c Kj]; [done|]. injection Eu as <- _. apply HsKj. left. }
  apply app_eq_app in E as [l [[E1 ->]|[-> E1]]]; [|by destruct (Hstar x l)].
  destruct (decide (l = [])) as [->|Hl]; [by destruct (Hstar MASK [])|].
  pose proof Hm' as Hm2. rewrite match_at_compose in Hm2. unfold compose_match in Hm2.
  destruct (strip Kj ((l ++ MASK) ++ r)) as [t2|] eqn:E2; [|done].
  apply strip_spec in E2. rewrite <- app_assoc in E2. symmetry in E2.
  apply key_before_mask in E2 as (z & -> & ->); [|done].
  assert (Cov : z <> [] -> forall m0,
            match_at (compose_pat Kj) ((Kj ++ z) ++ v ++ r) = Some m0 ->
            m_value m0 = MASK).
  { intros Hz m0 Hm0. apply app_eq_app in E1 as [l' [[-> E1]|[-> E1]]].
    - destruct l' as [|c l'].
      + simpl in E1. destruct Hor as [Heq|Hall].
        * apply compose_pat_inj in Heq as ->.
          apply (f_equal length) in E1. rewrite length_app in E1.
          destruct z; [done|simpl in E1; lia].
        * apply (all_masked_head _ _ _ Hall). by rewrite <- E1.
      + apply (Hc a1 (c :: l') m0); [done..|].
        by rewrite E1, <- app_assoc in Hm0.
    - destruct Hor as [Heq|Hall].
      + apply compose_pat_inj in Heq as ->.
        apply (f_equal length) in E1. rewrite !length_app in E1.
        destruct z; [done|simpl in E1; lia].
      + apply (Hall l' ((Kj ++ z) ++ v ++ r) m0); [|done].
        by rewrite E1, <- !app_assoc. }
  rewrite span_app in Hm2. destruct (span CNotSpaceDash z) as [z1 z2] eqn:Ez.
  apply span_spec in Ez as (Ez & Hz1 & Hz2). cbn [fst snd] in Hm2.
  destruct z2 as [|c2 z2].
  - rewrite app_nil_r in Ez. subst z1.
    rewrite (span_app_stop _ MASK r) in Hm2 by done. cbn [fst snd] in Hm2.
    destruct z as [|c z]; [simpl in Hm2; by injection Hm2 as <-|].
    exfalso.
    assert (Hv0 : (c :: z) ++ v = MASK).
    { apply (Cov (ltac:(done)) (Match Kj ((c :: z) ++ v) [] r)).
      rewrite <- app_assoc, compose_match_app, app_assoc.
      rewrite span_app_stop; [done| |done].
      rewrite forallb_app. by rewrite Hz1, Hvall. }
    rewrite app_assoc in E1. symmetry in E1.
    destruct (same_end _ _ _ _ (eq_sym E1) HKk (ltac:(done) : c :: z <> []))
      as (e & HeK & Hez).
    pose proof MASK_stars as HM. rewrite <- Hv0 in HM.
    apply Forall_app in HM as [HM _]. rewrite Forall_forall in HM.
    apply HsKk. by rewrite <- (HM e Hez).
  - assert (Hz : z <> []) by (subst z; by destruct z1).
    assert (Hsp : forall s, span CNotSpaceDash (z ++ s) = (z1, (c2 :: z2) ++ s)).
    { intros s. rewrite span_app.
      assert (span CNotSpaceDash z = (z1, c2 :: z2)) as ->; [|done].
      subst z. by apply span_app_stop. }
    destruct z1 as [|c1 z1]; [done|]. injection Hm2 as <-.
    apply (Cov Hz (Match Kj (c1 :: z1) [] ((c2 :: z2) ++ v ++ r))).
    by rewrite <- app_assoc, compose_match_app, Hsp.
Qed.

(** * The quoted layout: a pass keeps matches masked *)

(** Concatenations, associated to the right. *)
Ltac norm_app := repeat first [rewrite <- app_assoc | progress cbn [app]].
Ltac norm_app_in H :=
  repeat first [rewrite <- app_assoc in H | progress cbn [app] in H].

Lemma not_quote_class (v : text) :
  forallb (in_class CNotQuote) v = true <-> QUOTE ∉ v.
Proof.
  induction v as [|c v IH]; simpl.
  - split; [intros _ H; by apply elem_of_nil in H|done].
  - rewrite andb_true_iff, IH, not_elem_of_cons. unfold in_class.
    destruct (N.eqb_spec c QUOTE); simpl; intuition congruence.
Qed.

Lemma space_no_quote (w : text) : forallb (in_class CSpace) w = true -> QUOTE ∉ w.
Proof.
  induction w as [|c w IH]; simpl.
  - intros _ H; by apply elem_of_nil in H.
  - intros [Hc Hw]%andb_true_iff. apply not_elem_of_cons. split; [|by apply IH].
    intros <-. by vm_compute in Hc.
Qed.

(** A text splits at its first quote in one way only. *)
Lemma first_quote_unique (a b a' b' : text) :
  QUOTE ∉ a -> QUOTE ∉ a' -> a ++ QUOTE :: b = a' ++ QUOTE :: b' -> a = a' /\ b = b'.
Proof.
  revert a'. induction a as [|c a IH]; intros [|c' a'] Ha Ha' E; simpl in E.
  - by injection E as ->.
  - injection E as <- _. destruct Ha'. left.
  - injection E as -> _. destruct Ha. left.
  - injection E as -> E. apply not_elem_of_cons in Ha as [_ Ha].
    apply not_elem_of_cons in Ha' as [_ Ha'].
    by destruct (IH a' Ha Ha' E) as [-> ->].
Qed.

(** A text with a single quote, its last character, has no two quotes. *)
Lemma two_quotes (X Y W V : text) :
  QUOTE ∉ X -> X ++ [QUOTE] <> Y ++ QUOTE :: W ++ QUOTE :: V.
Proof.
  revert Y. induction X as [|c X IH]; intros Y HX E.
  - apply (f_equal length) in E. simpl in E.
    rewrite length_app in E. simpl in E. rewrite length_app in E. simpl in E. lia.
  - apply not_elem_of_cons in HX as [Hc HX]. destruct Y as [|c' Y]; simpl in E.
    + by injection E as -> _.
    + injection E as _ E. by apply (IH Y).
Qed.

Lemma ends_with_quote (X l : text) (Y : text) :
  X ++ [QUOTE] = Y ++ l -> l <> [] -> exists l0, l = l0 ++ [QUOTE].
Proof.
  intros E Hl. destruct (exists_last Hl) as (l0 & e & ->).
  rewrite app_assoc in E. apply app_inj_tail in E as [_ <-]. eauto.
Qed.

Lemma yaml_match_intro K w v r :
  forallb (in_class CSpace) w = true -> forallb (in_class CNotQuote) v = true ->
  match_at (yaml_pat K) (K ++ w ++ [QUOTE] ++ v ++ [QUOTE] ++ r)
    = Some (Match (K ++ w ++ [QUOTE]) v [QUOTE] r).
Proof.
  intros Hw Hv. rewrite match_at_yaml. unfold yaml_match.
  rewrite strip_app, (span_app_stop CSpace w) by done.
  change ([QUOTE] ++ v ++ [QUOTE] ++ r) with ([QUOTE] ++ (v ++ [QUOTE] ++ r)).
  rewrite strip_app, (span_app_stop CNotQuote v) by done.
  by rewrite strip_app.
Qed.

Lemma yaml_match_inv K t m :
  match_at (yaml_pat K) t = Some m ->
  exists w v r, t = K ++ w ++ [QUOTE] ++ v ++ [QUOTE] ++ r /\
    forallb (in_class CSpace) w = true /\ forallb (in_class CNotQuote) v = true /\
    m = Match (K ++ w ++ [QUOTE]) v [QUOTE] r.
Proof.
  rewrite match_at_yaml. unfold yaml_match.
  destruct (strip K t) as [t1|] eqn:E1; [|done]. apply strip_spec in E1 as ->.
  destruct (span CSpace t1) as [w t2] eqn:Ew.
  apply span_spec in Ew as (-> & Hw & _).
  destruct (strip [QUOTE] t2) as [t3|] eqn:E2; [|done]. apply strip_spec in E2 as ->.
  destruct (span CNotQuote t3) as [v t4] eqn:Ev.
  apply span_spec in Ev as (-> & Hv & _).
  destruct (strip [QUOTE] t4) as [r|] eqn:E3; [|done]. apply strip_spec in E3 as ->.
  intros [= <-]. by exists w, v, r.
Qed.

Lemma yaml_nonempty K t m :
  match_at (yaml_pat K) t = Some m -> group0 m <> [].
Proof.
  intros (w & v & r & -> & _ & _ & ->)%yaml_match_inv. unfold group0. simpl.
  intros E. apply (f_equal length) in E. rewrite !length_app in E. simpl in E. lia.
Qed.

Lemma MASK_quote_suffix l x :
  MASK ++ [QUOTE] = l ++ x -> x <> [] ->
  exists c x', x = c :: x' /\ (c = STAR \/ c = QUOTE).
Proof.
  intros E Hx.
  assert (H : Forall (fun c => c = STAR \/ c = QUOTE) (MASK ++ [QUOTE])).
  { repeat constructor; by right. }
  rewrite E in H. apply Forall_app in H as [_ H]. destruct x as [|c x]; [done|].
  apply Forall_cons in H as [Hc _]. eauto.
Qed.

Lemma MASK_no_quote : QUOTE ∉ MASK.
Proof. by apply not_quote_class. Qed.

Lemma yaml_step Kj Kk :
  Kj <> [] -> QUOTE ∉ Kj -> STAR ∉ Kj -> QUOTE ∉ Kk ->
  forall a t m,
    match_at (yaml_pat Kk) t = Some m ->
    clean_after (yaml_pat Kj) a t ->
    (yaml_pat Kj = yaml_pat Kk \/ all_masked (yaml_pat Kj) t) ->
    clean_after (yaml_pat Kj) (a ++ m_prefix m ++ MASK ++ m_suffix m) (m_rest m).
Proof.
  intros HKj HqKj HsKj HqKk a t m Hm Hc _ a1 x m' E Hx Hm'.
  apply yaml_match_inv in Hm as (w & v & r & -> & Hw & Hv & ->).
  cbn [m_prefix m_suffix m_rest m_value] in *.
  assert (Hhead : forall x' l, MASK ++ [QUOTE] = l ++ x' -> x' <> [] ->
            match_at (yaml_pat Kj) (x' ++ r) = Some m' -> False).
  { intros x' l El Hx' Hmx.
    destruct (MASK_quote_suffix _ _ El Hx') as (c & x2 & -> & Hc').
    apply yaml_match_inv in Hmx as (w' & u & r' & Eu & _).
    destruct Kj as [|c0 Kj]; [done|]. injection Eu as <- _.
    destruct Hc' as [-> | ->]; [apply HsKj|apply HqKj]; left. }
  rewrite app_assoc in E.
  apply app_eq_app in E as [l [[E1 ->]|[-> E1]]]; [|by destruct (Hhead x l)].
  destruct (decide (l = [])) as [->|Hl]; [by destruct (Hhead (MASK ++ [QUOTE]) [])|].
  assert (Hlq : QUOTE ∈ l).
  { rewrite !app_assoc in E1. destruct (ends_with_quote _ _ _ E1 Hl) as [l0 ->].
    apply elem_of_app. right. left. }
  apply list_elem_of_split_l in Hlq as (l1 & z & -> & Hl1).
  apply yaml_match_inv in Hm' as (w' & u & r' & Eu & Hw' & Hu & ->).
  cbn [m_value].
  assert (Eu' : l1 ++ QUOTE :: (z ++ MASK ++ QUOTE :: r)
                = (Kj ++ w') ++ QUOTE :: (u ++ QUOTE :: r')).
  { norm_app_in Eu. norm_app. exact Eu. }
  apply first_quote_unique in Eu' as [-> Ez]; [|done|].
  2:{ rewrite not_elem_of_app. split; [done|by apply space_no_quote]. }
  apply not_quote_class in Hu.
  destruct (decide (z = [])) as [->|Hz].
  { cbn [app] in Ez.
    apply first_quote_unique in Ez as [<- _]; [done|apply MASK_no_quote|done]. }
  assert (Hzq : QUOTE ∈ z).
  { assert (E2 : ((a ++ Kk) ++ w) ++ [QUOTE] = (a1 ++ (Kj ++ w') ++ [QUOTE]) ++ z).
    { norm_app_in E1. norm_app. exact E1. }
    destruct (ends_with_quote _ _ _ E2 Hz) as [z0 ->].
    apply elem_of_app. right. left. }
  apply list_elem_of_split_l in Hzq as (u0 & z2 & -> & Hu0).
  norm_app_in Ez.
  apply first_quote_unique in Ez as [<- _]; [|done..].
  assert (Hm0 : match_at (yaml_pat Kj)
                  (((Kj ++ w') ++ QUOTE :: u0 ++ QUOTE :: z2) ++ v ++ [QUOTE] ++ r)
                = Some (Match (Kj ++ w' ++ [QUOTE]) u0 [QUOTE] (z2 ++ v ++ [QUOTE] ++ r))).
  { rewrite <- (yaml_match_intro Kj w' u0 (z2 ++ v ++ [QUOTE] ++ r))
      by (done || by apply not_quote_class).
    f_equal. by norm_app. }
  apply app_eq_app in E1 as [l' [[-> E1]|[-> E1]]].
  - destruct l' as [|c l'].
    + exfalso. apply (two_quotes (Kk ++ w) (Kj ++ w') u0 z2).
      * rewrite not_elem_of_app. split; [done|by apply space_no_quote].
      * norm_app_in E1. norm_app. by rewrite E1.
    + apply (Hc a1 (c :: l')
               (Match (Kj ++ w' ++ [QUOTE]) u0 [QUOTE] (z2 ++ v ++ [QUOTE] ++ r))
               eq_refl); [done|].
      rewrite <- Hm0. f_equal. rewrite E1. by norm_app.
  - exfalso. apply (two_quotes (Kk ++ w) (l' ++ Kj ++ w') u0 z2).
    + rewrite not_elem_of_app. split; [done|by apply space_no_quote].
    + norm_app_in E1. norm_app. by rewrite E1.
Qed.

(** * Masking a masked content *)

Lemma good_key_spec K :
  good_key K = true -> K <> [] /\ (STAR ∉ K) /\ (QUOTE ∉ K).
Proof.
  destruct K as [|c K]; [done|]. unfold good_key. intros H. split; [done|].
  rewrite forallb_forall in H.
  split; intros Hin; apply list_elem_of_In, H in Hin; by vm_compute in Hin.
Qed.

Lemma compose_keeps Kj Kk t :
  good_key Kj = true -> good_key Kk = true ->
  (compose_pat Kj = compose_pat Kk \/ all_masked (compose_pat Kj) t) ->
  all_masked (compose_pat Kj) (mask_pass (compose_pat Kk) t).
Proof.
  intros (HKj & HsKj & _)%good_key_spec (HKk & HsKk & _)%good_key_spec Hor.
  apply (pass_keeps_masked (compose_pat Kj) (compose_pat Kk)
           (compose_nonempty Kk) (compose_step Kj Kk HKj HsKj HKk HsKk) t []);
    [apply clean_after_nil|done].
Qed.

Lemma yaml_keeps Kj Kk t :
  good_key Kj = true -> good_key Kk = true ->
  (yaml_pat Kj = yaml_pat Kk \/ all_masked (yaml_pat Kj) t) ->
  all_masked (yaml_pat Kj) (mask_pass (yaml_pat Kk) t).
Proof.
  intros (HKj & HsKj & HqKj)%good_key_spec (HKk & HsKk & HqKk)%good_key_spec Hor.
  apply (pass_keeps_masked (yaml_pat Kj) (yaml_pat Kk)
           (yaml_nonempty Kk) (yaml_step Kj Kk HKj HqKj HsKj HqKk) t []);
    [apply clean_after_nil|done].
Qed.

Lemma mask_spec_cons p ps s :
  mask_spec (p :: ps) s =
  ((mask_spec ps (mask_pass p s)).1, mask_caps p s ++ (mask_spec ps (mask_pass p s)).2).
Proof.
  cbn [mask_spec]. unfold mask_pass, mask_caps.
  destruct (mask_pattern_spec p s) as [c1 v1]. cbn [fst snd].
  by destruct (mask_spec ps c1).
Qed.

Section Idempotent.
Variable ps : list pattern.
Hypothesis keeps : forall pj pk t,
  pj ∈ ps -> pk ∈ ps -> (pj = pk \/ all_masked pj t) -> all_masked pj (mask_pass pk t).

Lemma mask_spec_all_masked qs s pj :
  (forall q, q ∈ qs -> q ∈ ps) -> pj ∈ ps ->
  (all_masked pj s \/ pj ∈ qs) ->
  all_masked pj (mask_spec qs s).1.
Proof.
  revert s. induction qs as [|q qs IH]; intros s Hqs Hj Hor.
  - destruct Hor as [H|H%elem_of_nil]; done.
  - rewrite mask_spec_cons. cbn [fst].
    assert (Hq : q ∈ ps) by (apply Hqs; left).
    apply IH; [intros q' Hq'; apply Hqs; by right|done|].
    destruct Hor as [H|[->|H]%elem_of_cons].
    + left. apply keeps; auto.
    + left. apply keeps; auto.
    + by right.
Qed.

Lemma mask_spec_fixed qs s :
  (forall q, q ∈ qs -> all_masked q s) -> mask_spec qs s = (s, []).
Proof.
  induction qs as [|q qs IH]; intros H; [done|].
  rewrite mask_spec_cons.
  destruct (mask_pass_all_masked q s) as [-> ->]; [apply H; left|].
  rewrite IH; [done|]. intros q' Hq'. apply H. by right.
Qed.

(** Masking what [mask] produced changes nothing and captures nothing. *)
Lemma mask_spec_twice s : mask_spec ps (mask_spec ps s).1 = ((mask_spec ps s).1, []).
Proof.
  apply mask_spec_fixed. intros q Hq. apply mask_spec_all_masked; auto.
Qed.
End Idempotent.

(** A pass that captures nothing changes nothing. *)
Lemma mask_pass_no_caps p s : mask_caps p s = [] -> mask_pass p s = s.
Proof.
  induction s as [s Em ->|c s Em IH|m Em Eg|m c s Em Eg IH|m s Em Eg IH]
    using (scan_ind p).
  - by rewrite mask_pass_nil.
  - rewrite mask_pass_skip, mask_caps_skip by done. intros H. by rewrite IH.
  - unfold mask_caps, mask_pass, mask_pattern_spec, matches.
    rewrite items_unfold, Em, Eg. cbn [snd fst omap list_omap fld_of map].
    destruct (decide (m_value m = MASK)) as [Ev|Ev].
    + unfold group0 in Eg. rewrite Ev in Eg. by destruct (m_prefix m).
    + by rewrite filter_cons_True by done.
  - unfold mask_caps, mask_pass, mask_pattern_spec, matches.
    rewrite items_unfold, Em, Eg. cbn [snd fst omap list_omap fld_of map].
    destruct (decide (m_value m = MASK)) as [Ev|Ev].
    + unfold group0 in Eg. rewrite Ev in Eg. by destruct (m_prefix m).
    + by rewrite filter_cons_True by done.
  - rewrite (mask_pass_match p s m), (mask_caps_match p s m) by done.
    destruct (decide (m_value m = MASK)) as [Ev|Ev]; [|done].
    intros H. rewrite IH by done. rewrite (match_at_split _ _ _ Em).
    unfold group0. by rewrite Ev.
Qed.

Lemma mask_spec_no_caps ps s : (mask_spec ps s).2 = [] -> mask_spec ps s = (s, []).
Proof.
  revert s. induction ps as [|p ps IH]; intros s; [done|].
  rewrite mask_spec_cons. cbn [snd]. intros [H1 H2]%app_eq_nil.
  rewrite (mask_pass_no_caps p s H1) in H2 |- *. rewrite H1.
  rewrite (IH s H2). done.
Qed.

(** * Masking twice *)

Lemma in_compose_patterns p :
  p ∈ compose_patterns -> exists K, p = compose_pat K /\ good_key K = true.
Proof.
  unfold compose_patterns. rewrite !elem_of_cons, elem_of_nil.
  intros [->|[->|[]]]; eexists; (split; [apply compose_pattern_pat|reflexivity]).
Qed.

Lemma in_yaml_patterns p :
  p ∈ yaml_patterns -> exists K, p = yaml_pat K /\ good_key K = true.
Proof.
  unfold yaml_patterns. rewrite !elem_of_cons, elem_of_nil.
  intros [->|[->|[->|[->|[]]]]]; eexists; (split; [apply yaml_pattern_pat|reflexivity]).
Qed.

Lemma config_keeps f ps pj pk t :
  (f, ps) ∈ FILES_CONFIG -> pj ∈ ps -> pk ∈ ps ->
  (pj = pk \/ all_masked pj t) -> all_masked pj (mask_pass pk t).
Proof.
  unfold FILES_CONFIG. rewrite !elem_of_cons, elem_of_nil.
  intros [[= -> ->]|[[= -> ->]|[]]] Hj Hk.
  - apply in_compose_patterns in Hj as (Kj & -> & HKj).
    apply in_compose_patterns in Hk as (Kk & -> & HKk). by apply compose_keeps.
  - apply in_yaml_patterns in Hj as (Kj & -> & HKj).
    apply in_yaml_patterns in Hk as (Kk & -> & HKk). by apply yaml_keeps.
Qed.

Lemma mask_content_twice f ps s :
  (f, ps) ∈ FILES_CONFIG ->
  mask_content ps (mask_content ps s).1 = ((mask_content ps s).1, []).
Proof.
  intros Hin. rewrite !mask_content_spec. apply mask_spec_twice.
  intros pj pk t. by apply (config_keeps f ps).
Qed.

(** After [mask], no configured file has anything left to capture. *)
Lemma mask_settles w f ps c1 :
  (f, ps) ∈ FILES_CONFIG -> files (mask w) !! f = Some c1 ->
  mask_content ps c1 = (c1, []).
Proof.
  intros Hin Hf. pose proof (mask_lookup w f ps Hin) as H.
  destruct (files w !! f) as [c|]; [|destruct H; congruence].
  destruct (mask_content ps c).2 as [|v vs] eqn:E.
  - destruct H as [H _]. rewrite Hf in H. injection H as ->.
    rewrite mask_content_spec in E |- *. by apply mask_spec_no_caps.
  - destruct H as [H _]. rewrite Hf in H. injection H as ->.
    by apply (mask_content_twice f).
Qed.

Lemma mask_file_settled fs secrets out f ps :
  (forall c, fs !! f = Some c -> mask_content ps c = (c, [])) ->
  mask_file (fs, secrets, out) (f, ps) = (fs, secrets, out).
Proof.
  intros H. unfold mask_file. destruct (fs !! f) as [c|]; [|done].
  by rewrite (H c eq_refl).
Qed.

Lemma mask_mask w : mask (mask w) = mask w.
Proof.
  assert (Hs : forall f ps c, (f, ps) ∈ FILES_CONFIG ->
             files (mask w) !! f = Some c -> mask_content ps c = (c, [])).
  { intros f ps c. apply mask_settles. }
  assert (Hj : exists d, secrets_file (mask w) = StoreJson d).
  { unfold mask. destruct (load_secrets w). destruct (fold_left _ _ _) as [[? ?] ?].
    eauto. }
  destruct Hj as [d Hd]. destruct (mask w) as [fs sf out] eqn:Ew.
  cbn [files secrets_file] in *. subst sf.
  unfold mask at 1. unfold load_secrets. cbn [files secrets_file printed].
  unfold FILES_CONFIG in *. cbn [fold_left].
  rewrite !mask_file_settled.
  - by rewrite app_nil_r.
  - intros c. apply Hs. right; left.
  - intros c. apply Hs. left.
Qed.

(** * Documents *)

Lemma no_match_None p t : no_match p t = true <-> match_at p t = None.
Proof. unfold no_match. destruct (match_at p t); split; congruence. Qed.

Lemma nonempty_suffixes_app a x2 : x2 <> [] -> x2 ∈ nonempty_suffixes (a ++ x2).
Proof.
  intros Hx. induction a as [|c a IH]; simpl.
  - destruct x2 as [|c x2]; [done|]. left.
  - by right.
Qed.

Lemma inner_spec x x1 x2 : x = x1 ++ x2 -> x1 <> [] -> x2 <> [] -> x2 ∈ inner x.
Proof.
  intros -> H1 H2. destruct x1 as [|c x1]; [done|]. simpl.
  by apply nonempty_suffixes_app.
Qed.

Lemma quietb_quiet ps x r : quietb ps x r = true -> quiet ps x r.
Proof.
  unfold quietb. rewrite forallb_forall. intros H q x1 x2 Hq E H1 H2.
  pose proof (inner_spec x x1 x2 E H1 H2) as Hin.
  apply list_elem_of_In, H in Hin. rewrite forallb_forall in Hin.
  apply no_match_None, Hin. by apply list_elem_of_In.
Qed.

Lemma faithfulb_Faithful ps D : faithfulb ps D = true -> Faithful ps D.
Proof.
  induction D as [|[c|p pre v suf] D IH]; simpl.
  - rewrite forallb_forall. intros H. constructor. intros q Hq.
    apply no_match_None, H. by apply list_elem_of_In.
  - intros [H1 H2]%andb_true_iff. rewrite forallb_forall in H1.
    constructor; [|by apply IH]. intros q Hq.
    apply no_match_None, H1. by apply list_elem_of_In.
  - rewrite !andb_true_iff. intros [[[[[H1 H2] H3] H4] H5] H6].
    apply bool_decide_eq_true in H1, H2, H3. rewrite forallb_forall in H4.
    constructor; [done..| |by apply quietb_quiet|by apply IH].
    intros q Hq Hne. apply list_elem_of_In, H4 in Hq.
    apply orb_true_iff in Hq as [Hq|Hq]; [by apply bool_decide_eq_true in Hq|].
    by apply no_match_None.
Qed.

Lemma drender_cons i D : drender (i :: D) = ditem_text i ++ drender D.
Proof. reflexivity. Qed.

(** The scan copies a stretch in which the pattern matches nowhere. *)
Lemma items_skip p x r :
  (forall x1 x2, x = x1 ++ x2 -> x2 <> [] -> match_at p (x2 ++ r) = None) ->
  items p (x ++ r) = map Ch x ++ items p r.
Proof.
  induction x as [|c x IH]; intros H; [done|].
  cbn [app map]. rewrite items_unfold.
  pose proof (H [] (c :: x) eq_refl ltac:(done)) as H0. cbn [app] in H0.
  rewrite H0. f_equal.
  apply IH. intros x1 x2 -> Hx. by apply (H (c :: x1) x2).
Qed.

Lemma items_faithful ps D p :
  Faithful ps D -> p ∈ ps -> items p (drender D) = proj p D.
Proof.
  intros HD Hp. induction HD as [Hn|c D Hn HD IH|q pre v suf D Hq Hne Hm Ho Hi HD IH].
  - change (drender []) with ([] : text). rewrite items_unfold. by rewrite (Hn p Hp).
  - rewrite drender_cons. cbn [ditem_text app proj]. rewrite items_unfold.
    by rewrite (Hn p Hp), IH.
  - rewrite drender_cons. cbn [ditem_text proj].
    destruct (decide (q = p)) as [->|Hqp].
    + rewrite items_unfold, Hm. unfold group0. cbn [m_prefix m_value m_suffix m_rest].
      destruct (pre ++ v ++ suf) eqn:E; [done|]. by rewrite IH.
    + rewrite <- IH. apply items_skip. intros x1 x2 E Hx2.
      destruct x1 as [|c x1].
      * simpl in E. subst x2. apply Ho; [done|]. by intros ->.
      * by apply (Hi p (c :: x1) x2).
Qed.

Lemma concat_masked_chars x : concat (map masked_item (map Ch x)) = x.
Proof. induction x as [|c x IH]; simpl; by rewrite ?IH. Qed.

Lemma omap_fld_chars x l : omap fld_of (map Ch x ++ l) = omap fld_of l.
Proof. induction x as [|c x IH]; simpl; done. Qed.

(** One pass of [mask] over a document. *)
Lemma mask_pass_doc ps D p :
  Faithful ps D -> p ∈ ps -> mask_pass p (drender D) = drender (dmask (only p) D).
Proof.
  intros HD Hp. unfold mask_pass, mask_pattern_spec. cbn [fst].
  rewrite (items_faithful ps D p HD Hp). clear HD.
  induction D as [|[c|q pre v suf] D IH]; [done|..].
  - cbn [proj map concat dmask dmask_item]. rewrite drender_cons.
    cbn [masked_item ditem_text app]. by rewrite IH.
  - cbn [proj dmask map dmask_item]. unfold only at 1.
    destruct (decide (q = p)) as [->|Hqp].
    + rewrite bool_decide_eq_true_2 by done. cbn [map concat].
      rewrite masked_item_fld, drender_cons. cbn [ditem_text m_prefix m_suffix].
      by rewrite IH.
    + rewrite bool_decide_eq_false_2 by done. rewrite map_app, concat_app.
      rewrite concat_masked_chars, drender_cons. cbn [ditem_text]. by rewrite IH.
Qed.

Lemma mask_caps_doc ps D p :
  Faithful ps D -> p ∈ ps ->
  mask_caps p (drender D) = filter (fun v => v <> MASK) (field_values p D).
Proof.
  intros HD Hp. unfold mask_caps, mask_pattern_spec, matches. cbn [snd].
  rewrite (items_faithful ps D p HD Hp). clear HD. f_equal.
  induction D as [|[c|q pre v suf] D IH]; [done|..].
  - cbn [proj omap list_omap fld_of field_values]. exact IH.
  - cbn [proj field_values]. destruct (decide (q = p)) as [->|Hqp].
    + cbn [omap list_omap fld_of map m_value]. by rewrite <- IH.
    + by rewrite omap_fld_chars.
Qed.

(** In a document whose fields of [q] are all masked, every match of [q]
    is masked. *)
Lemma faithful_all_masked ps D q :
  Faithful ps D -> q ∈ ps -> Forall (fun v => v = MASK) (field_values q D) ->
  all_masked q (drender D).
Proof.
  intros HD Hq. induction HD as [Hn|c D Hn HD IH|p pre v suf D Hp Hne Hm Ho Hi HD IH];
    intros Hv.
  - intros a t m E Hm. symmetry in E. apply app_eq_nil in E as [-> ->].
    change (drender []) with ([] : text) in Hm. by rewrite (Hn q Hq) in Hm.
  - rewrite drender_cons. apply all_masked_split; [|by apply IH].
    intros a1 x m E Hx Hm. cbn [ditem_text] in E.
    destruct a1 as [|c1 a1]; [|by destruct a1, x].
    simpl in E. subst x. simpl in Hm. by rewrite (Hn q Hq) in Hm.
  - rewrite drender_cons. cbn [field_values] in Hv.
    apply all_masked_split.
    + intros a1 x m E Hx Hm'. cbn [ditem_text] in E. destruct a1 as [|c1 a1].
      * simpl in E. subst x. destruct (decide (p = q)) as [->|Hpq].
        -- rewrite Hm in Hm'. injection Hm' as <-. by apply Forall_cons in Hv as [-> _].
        -- rewrite Ho in Hm' by done. done.
      * by rewrite (Hi q (c1 :: a1) x Hq E) in Hm'.
    + apply IH. destruct (decide (p = q)); [by apply Forall_cons in Hv as [_ ?]|done].
Qed.

Lemma items_agree q q' (s : text) :
  (forall a t, s = a ++ t -> match_at q' t = match_at q t) ->
  items q' s = items q s.
Proof.
  induction s as [s Em ->|c s Em IH|m Em Eg|m c s Em Eg IH|m s Em Eg IH]
    using (scan_ind q); intros H.
  - rewrite (items_unfold q'), (items_unfold q). rewrite (H [] []) by done.
    by rewrite Em.
  - rewrite (items_unfold q'), (items_unfold q). rewrite (H [] (c :: s)) by done.
    rewrite Em. f_equal. apply IH. intros a t ->. by apply (H (c :: a) t).
  - rewrite (items_unfold q'), (items_unfold q). rewrite (H [] []) by done.
    by rewrite Em, Eg.
  - rewrite (items_unfold q'), (items_unfold q). rewrite (H [] (c :: s)) by done.
    rewrite Em, Eg. do 2 f_equal. apply IH. intros a t ->. by apply (H (c :: a) t).
  - rewrite (items_unfold q'), (items_unfold q). rewrite (H [] s) by done.
    rewrite Em. destruct (group0 m) eqn:E; [done|]. f_equal.
    apply IH. intros a0 t0 Ea. apply (H (group0 m ++ a0) t0).
    by rewrite (match_at_split _ _ _ Em), Ea, app_assoc.
Qed.

Lemma items_masked_form q q' s :
  masked_agrees q q' -> all_masked q s -> items q' s = items q s.
Proof.
  intros Hag Hall. apply items_agree. intros a t E.
  destruct (Hag t) as [Hn Hs]. destruct (match_at q t) as [m|] eqn:Em.
  - apply Hs; [done|]. by apply (Hall a t m).
  - by apply Hn.
Qed.

(** * Masked selections of a document *)

Lemma dmask_ext s1 s2 D : (forall p, s1 p = s2 p) -> dmask s1 D = dmask s2 D.
Proof.
  intros H. unfold dmask. apply map_ext. intros [c|p pre v suf]; [done|].
  simpl. by rewrite H.
Qed.

Lemma dmask_dmask s1 s2 D : dmask s1 (dmask s2 D) = dmask (fun p => s2 p || s1 p) D.
Proof.
  unfold dmask. rewrite map_map. apply map_ext. intros [c|p pre v suf]; [done|].
  simpl. destruct (s2 p); simpl; [|done]. by destruct (s1 p).
Qed.

Lemma dmask_cons sel i D : dmask sel (i :: D) = dmask_item sel i :: dmask sel D.
Proof. reflexivity. Qed.

Lemma dmask_none D : dmask (fun _ => false) D = D.
Proof. unfold dmask. induction D as [|[c|p pre v suf] D IH]; simpl; by rewrite ?IH. Qed.

Lemma field_values_unselected sel q D :
  sel q = false -> field_values q (dmask sel D) = field_values q D.
Proof.
  intros Hq. induction D as [|[c|p pre v suf] D IH]; simpl; [done..|].
  destruct (sel p) eqn:Ep; simpl; destruct (decide (p = q)) as [->|]; congruence.
Qed.

Lemma field_values_selected sel q D :
  sel q = true -> Forall (fun v => v = MASK) (field_values q (dmask sel D)).
Proof.
  intros Hq. induction D as [|[c|p pre v suf] D IH]; simpl; [done..|].
  destruct (sel p) eqn:Ep; simpl; destruct (decide (p = q)) as [->|];
    try congruence; try done. by constructor.
Qed.

Lemma field_values_no_mask q D :
  no_masked_field D = true ->
  filter (fun v => v <> MASK) (field_values q D) = field_values q D.
Proof.
  induction D as [|[c|p pre v suf] D IH]; simpl; [done..|].
  intros [Hv HD]%andb_true_iff. apply bool_decide_eq_true in Hv.
  destruct (decide (p = q)); [|by apply IH].
  rewrite filter_cons_True by done. by rewrite IH.
Qed.

Lemma drop_cons_inv (l : list text) i v vs :
  drop i l = v :: vs -> l !! i = Some v /\ drop (S i) l = vs.
Proof.
  revert i. induction l as [|x l IH]; intros [|i]; simpl; try done.
  - by intros [= -> ->].
  - intros H. by apply IH.
Qed.

Lemma restore_from_chars_app i x d stored :
  restore_from i (map Ch x ++ d) stored = x ++ restore_from i d stored.
Proof. induction x as [|c x IH]; simpl; by rewrite ?IH. Qed.

Lemma count_matches_chars_app x d : count_matches (map Ch x ++ d) = count_matches d.
Proof. unfold count_matches. by rewrite omap_fld_chars. Qed.

(** Restoring the fields of [q] from the stored values. *)
Lemma restore_doc q D0 sel i stored T :
  sel q = true ->
  drop i stored = field_values q D0 ++ T ->
  restore_from i (proj q (dmask sel D0)) stored = drender (dmask (without sel q) D0) /\
  count_matches (proj q (dmask sel D0)) = length (field_values q D0).
Proof.
  intros Hq. revert i. induction D0 as [|[c|p pre v suf] D IH]; intros i Hd.
  - done.
  - rewrite !dmask_cons. cbn [dmask_item proj restore_from field_values] in *.
    change (count_matches (Ch c :: ?d)) with (count_matches d).
    destruct (IH i Hd) as [-> ->]. done.
  - rewrite !dmask_cons. cbn [dmask_item field_values] in *. unfold without at 1.
    revert Hd. destruct (decide (p = q)) as [->|Hpq]; intros Hd.
    + rewrite Hq. rewrite bool_decide_eq_true_2 by done. cbn [andb negb proj].
      rewrite decide_True by done. cbn [restore_from m_prefix m_suffix].
      change (count_matches (Fld ?m :: ?d)) with (S (count_matches d)).
      cbn [app] in Hd. apply drop_cons_inv in Hd as [Hi Hd].
      destruct (IH (S i) Hd) as [-> ->]. rewrite Hi.
      by rewrite drender_cons.
    + rewrite bool_decide_eq_false_2 by done. rewrite andb_true_r.
      destruct (IH i Hd) as [IH1 IH2].
      destruct (sel p); cbn [proj]; rewrite decide_False by done;
        rewrite restore_from_chars_app, count_matches_chars_app, IH1, IH2;
        by rewrite drender_cons.
Qed.

(** One pass of [unmask] over a document whose fields of [q] are masked. *)
Lemma unmask_pass_doc ps D0 sel q q' T :
  Faithful ps (dmask sel D0) -> q ∈ ps -> sel q = true -> masked_agrees q q' ->
  unmask_pattern_spec q' (drender (dmask sel D0)) (field_values q D0 ++ T)
  = (drender (dmask (without sel q) D0), T).
Proof.
  intros HD Hq Hsel Hag. unfold unmask_pattern_spec.
  rewrite (items_masked_form q q') by
    (done || by apply (faithful_all_masked ps), field_values_selected).
  rewrite (items_faithful ps _ q HD Hq).
  destruct (restore_doc q D0 sel 0 (field_values q D0 ++ T) T Hsel eq_refl) as [-> ->].
  by rewrite drop_app_length.
Qed.

(** * Mask and unmask over a document *)

Lemma among_cons q qs p : among (q :: qs) p = only q p || among qs p.
Proof.
  unfold among, only. rewrite <- bool_decide_or. apply bool_decide_ext.
  apply elem_of_cons.
Qed.

Section RoundTrip.
Variable ps : list pattern.
Variable D0 : doc.
Hypothesis variants : forall sel, Faithful ps (dmask sel D0).
Hypothesis no_mask : no_masked_field D0 = true.

Lemma mask_spec_doc qs sel :
  (forall q, q ∈ qs -> q ∈ ps) -> NoDup qs -> (forall q, q ∈ qs -> sel q = false) ->
  mask_spec qs (drender (dmask sel D0)) =
  (drender (dmask (fun p => sel p || among qs p) D0),
   concat (map (fun q => field_values q D0) qs)).
Proof.
  revert sel. induction qs as [|q qs IH]; intros sel Hin Hnd Hsel.
  - cbn [mask_spec map concat]. f_equal. f_equal. apply dmask_ext. intros p.
    unfold among. rewrite bool_decide_eq_false_2; [by rewrite orb_false_r|].
    apply not_elem_of_nil.
  - apply NoDup_cons in Hnd as [Hq Hnd].
    assert (Hqps : q ∈ ps) by (apply Hin; left).
    rewrite mask_spec_cons.
    rewrite (mask_pass_doc ps _ q (variants sel) Hqps).
    rewrite (mask_caps_doc ps _ q (variants sel) Hqps).
    rewrite field_values_unselected by (apply Hsel; left).
    rewrite field_values_no_mask by done.
    rewrite dmask_dmask. rewrite IH; [| |done|].
    + cbn [fst snd map concat]. f_equal. f_equal. apply dmask_ext. intros p.
      by rewrite among_cons, orb_assoc.
    + intros q' Hq'. apply Hin. by right.
    + intros q' Hq'. rewrite (Hsel q') by (by right). unfold only. simpl.
      apply bool_decide_eq_false_2. intros ->. done.
Qed.

Lemma unmask_spec_doc (g : pattern -> pattern) qs sel T :
  (forall q, q ∈ qs -> q ∈ ps) -> NoDup qs -> (forall q, q ∈ qs -> sel q = true) ->
  (forall q, q ∈ qs -> masked_agrees q (g q)) ->
  unmask_spec (map g qs) (drender (dmask sel D0))
    (concat (map (fun q => field_values q D0) qs) ++ T) =
  (drender (dmask (fun p => sel p && negb (among qs p)) D0), T).
Proof.
  revert sel. induction qs as [|q qs IH]; intros sel Hin Hnd Hsel Hag.
  - cbn [map unmask_spec concat app]. f_equal. f_equal. apply dmask_ext. intros p.
    unfold among. rewrite bool_decide_eq_false_2; [by rewrite andb_true_r|].
    apply not_elem_of_nil.
  - apply NoDup_cons in Hnd as [Hq Hnd].
    assert (Hqps : q ∈ ps) by (apply Hin; left).
    cbn [map unmask_spec concat]. rewrite <- app_assoc.
    rewrite (unmask_pass_doc ps D0 sel q (g q)); [|done|done|apply Hsel; left|apply Hag; left].
    rewrite IH; [| |done| |].
    + f_equal. f_equal. apply dmask_ext. intros p.
      rewrite among_cons. unfold without, only.
      by rewrite negb_orb, andb_assoc.
    + intros q' Hq'. apply Hin. by right.
    + intros q' Hq'. unfold without. rewrite (Hsel q') by (by right). simpl.
      rewrite bool_decide_eq_false_2; [done|]. intros ->. done.
    + intros q' Hq'. apply Hag. by right.
Qed.

(** Unmasking what [mask] produced, with the values it captured. *)
Lemma round_trip_doc (g : pattern -> pattern) T :
  NoDup ps -> (forall q, q ∈ ps -> masked_agrees q (g q)) ->
  unmask_spec (map g ps) (mask_spec ps (drender D0)).1
    ((mask_spec ps (drender D0)).2 ++ T) = (drender D0, T).
Proof.
  intros Hnd Hag.
  pose proof (mask_spec_doc ps (fun _ => false)) as Hm.
  rewrite dmask_none in Hm. rewrite Hm by done. cbn [fst snd].
  rewrite (unmask_spec_doc g ps) by (try done; intros q Hq; simpl; by apply bool_decide_eq_true_2).
  f_equal. rewrite <- (dmask_none D0) at 2. f_equal. apply dmask_ext. intros p.
  simpl. by destruct (among ps p).
Qed.
End RoundTrip.

(** * Masking fields keeps a document faithful *)

Section Variants.
Variable ps : list pattern.
Hypothesis stab_none : forall p r r' x,
  p ∈ ps -> first_diff ps r r' -> x <> [] ->
  match_at p (x ++ r) = None -> match_at p (x ++ r') = None.
Hypothesis stab_some : forall p pre v suf r r',
  p ∈ ps -> first_diff ps r r' ->
  match_at p ((pre ++ v ++ suf) ++ r) = Some (Match pre v suf r) ->
  match_at p ((pre ++ v ++ suf) ++ r') = Some (Match pre v suf r').
Hypothesis swap : forall p pre v suf r,
  p ∈ ps ->
  match_at p ((pre ++ v ++ suf) ++ r) = Some (Match pre v suf r) ->
  match_at p ((pre ++ MASK ++ suf) ++ r) = Some (Match pre MASK suf r) /\
  quiet ps (pre ++ MASK ++ suf) r /\
  (forall q, q ∈ ps -> q <> p -> match_at q ((pre ++ MASK ++ suf) ++ r) = None).

Lemma first_diff_app x r r' : first_diff ps r r' -> first_diff ps (x ++ r) (x ++ r').
Proof.
  intros [r0|g p pre v v' suf r2 r2' Hp H1 H2]; [constructor|].
  rewrite !(app_assoc x g). by apply (first_diff_field ps (x ++ g) p).
Qed.

Lemma faithful_dmask sel D :
  Faithful ps D ->
  Faithful ps (dmask sel D) /\ first_diff ps (drender D) (drender (dmask sel D)).
Proof.
  induction 1 as [Hn|c D Hn HD [IH Hfd]|p pre v suf D Hp Hne Hm Ho Hi HD [IH Hfd]].
  - split; [by constructor|constructor].
  - rewrite dmask_cons, !drender_cons. cbn [dmask_item ditem_text]. split.
    + constructor; [|done]. intros q Hq.
      apply (stab_none q (drender D) _ [c] Hq Hfd); [done|by apply Hn].
    + by apply first_diff_app.
  - rewrite dmask_cons, !drender_cons. cbn [dmask_item ditem_text].
    pose proof (stab_some p pre v suf _ _ Hp Hfd Hm) as Hm'.
    destruct (sel p).
    + destruct (swap p pre v suf _ Hp Hm') as (Hs & Hq & Hoth).
      cbn [ditem_text]. split.
      * constructor; try done. intros E. apply (f_equal length) in E.
        rewrite !length_app in E. simpl in E. lia.
      * by apply (first_diff_field ps [] p pre v MASK suf).
    + cbn [ditem_text]. split.
      * constructor; try done.
        -- intros q Hq Hqp. apply (stab_none q (drender D) _ _ Hq Hfd Hne).
           by apply Ho.
        -- intros q x1 x2 Hq E Hx1 Hx2.
           apply (stab_none q (drender D) _ x2 Hq Hfd Hx2). by apply (Hi q x1 x2).
      * by apply first_diff_app.
Qed.

Lemma faithful_variants D sel : Faithful ps D -> Faithful ps (dmask sel D).
Proof. intros H. by apply faithful_dmask. Qed.
End Variants.

(** * Keys *)

Lemma key_ok_spec K :
  key_ok K = true ->
  K <> [] /\ (STAR ∉ K) /\ (QUOTE ∉ K) /\ forallb (in_class CNotSpaceDash) K = true.
Proof.
  unfold key_ok. intros [H1 H2]%andb_true_iff.
  by destruct (good_key_spec K H1) as (? & ? & ?).
Qed.

Lemma suffixes_app a t : t ∈ suffixes (a ++ t).
Proof. induction a as [|c a IH]; [apply suffixes_self|]. simpl. by right. Qed.

Lemma occurs_in_intro K a b : occurs_in K (a ++ K ++ b) = true.
Proof.
  unfold occurs_in. apply existsb_exists. exists (K ++ b). split.
  - apply list_elem_of_In, suffixes_app.
  - apply bool_decide_eq_true. rewrite strip_app. eauto.
Qed.

Lemma independent_spec Ks Ki Kj a b :
  independent Ks = true -> Ki ∈ Ks -> Kj ∈ Ks -> Kj = a ++ Ki ++ b ->
  a = [] /\ b = [].
Proof.
  unfold independent. rewrite forallb_forall. intros H Hi Hj E.
  apply list_elem_of_In, H in Hi. rewrite forallb_forall in Hi.
  apply list_elem_of_In, Hi in Hj. apply orb_true_iff in Hj as [Hj|Hj].
  - apply bool_decide_eq_true in Hj. subst Ki.
    apply (f_equal length) in E. rewrite !length_app in E.
    split; apply length_zero_iff_nil; lia.
  - rewrite E, occurs_in_intro in Hj. done.
Qed.

Lemma keys_ok_spec Ks :
  keys_ok Ks = true ->
  (forall K, K ∈ Ks -> key_ok K = true) /\ independent Ks = true /\ NoDup Ks.
Proof.
  unfold keys_ok. rewrite !andb_true_iff. intros [[H1 H2] H3].
  rewrite forallb_forall in H1. apply bool_decide_eq_true in H3.
  split; [|done]. intros K HK. by apply H1, list_elem_of_In.
Qed.

(** * The compose layout is stable under masking *)

Lemma compose_match_none K s :
  match_at (compose_pat K) (K ++ s) = None <-> starts_in CNotSpaceDash s = false.
Proof.
  rewrite compose_match_app. destruct s as [|c s]; simpl; [done|].
  destruct (in_class CNotSpaceDash c); [|done].
  destruct (span CNotSpaceDash s). split; congruence.
Qed.

Lemma starts_in_app k l s : l <> [] -> starts_in k (l ++ s) = starts_in k l.
Proof. by destruct l. Qed.

Lemma starts_in_all k v : v <> [] -> forallb (in_class k) v = true -> starts_in k v = true.
Proof. destruct v as [|c v]; [done|]. simpl. by intros _ [? _]%andb_true_iff. Qed.

Lemma compose_field_inv K pre v suf r :
  match_at (compose_pat K) ((pre ++ v ++ suf) ++ r) = Some (Match pre v suf r) ->
  pre = K /\ suf = [] /\ v <> [] /\ forallb (in_class CNotSpaceDash) v = true /\
  starts_in CNotSpaceDash r = false.
Proof.
  intros (v0 & r0 & E & Hv & Hall & Hr & [= -> -> -> ->])%compose_match_inv. done.
Qed.

Section ComposeStable.
Variable Ks : list text.
Hypothesis Hkeys : keys_ok Ks = true.

Lemma compose_in p : p ∈ map compose_pat Ks -> exists K, K ∈ Ks /\ p = compose_pat K.
Proof. intros (K & -> & HK)%list_elem_of_fmap. eauto. Qed.

Lemma compose_stab_none p r r' x :
  p ∈ map compose_pat Ks -> first_diff (map compose_pat Ks) r r' -> x <> [] ->
  match_at p (x ++ r) = None -> match_at p (x ++ r') = None.
Proof.
  destruct (keys_ok_spec Ks Hkeys) as (Hok & Hind & _).
  intros (Kj & HKj & ->)%compose_in Hfd Hx Hn.
  destruct Hfd as [r|g p pre v v' suf r2 r2' Hp H1 H2]; [done|].
  apply compose_in in Hp as (Kk & HKk & ->).
  apply compose_field_inv in H1 as (-> & -> & Hv & Hvall & Hr).
  apply compose_field_inv in H2 as (_ & _ & Hv' & Hvall' & Hr').
  rewrite !app_nil_r in *.
  destruct (match_at (compose_pat Kj) (x ++ g ++ (Kk ++ v') ++ r2')) as [m|] eqn:Em;
    [|done].
  exfalso. apply compose_match_inv in Em as (u & rr & E & Hu & Huall & _).
  assert (E' : (x ++ g ++ Kk) ++ (v' ++ r2') = Kj ++ (u ++ rr)).
  { rewrite <- E. by norm_app. }
  apply app_eq_app in E' as [l [[E1 E2]|[E1 E2]]].
  - (* the key ends within the common part *)
    assert (Hs : starts_in CNotSpaceDash (l ++ v ++ r2) = true).
    { destruct l as [|c l].
      - simpl. rewrite starts_in_app by done. by apply starts_in_all.
      - simpl in E2 |- *. destruct u as [|c' u]; [done|]. injection E2 as -> _.
        simpl in Huall. by apply andb_true_iff in Huall as [? _]. }
    assert (Ho : x ++ g ++ (Kk ++ v) ++ r2 = Kj ++ l ++ v ++ r2).
    { transitivity ((x ++ g ++ Kk) ++ v ++ r2); [by norm_app|].
      rewrite E1. by norm_app. }
    rewrite Ho in Hn. apply compose_match_none in Hn. congruence.
  - (* the key would reach beyond the key of the field *)
    assert (E3 : Kj = (x ++ g) ++ Kk ++ l) by (rewrite E1; by norm_app).
    destruct (independent_spec Ks Kk Kj _ _ Hind HKk HKj E3) as [Ha _].
    by destruct x.
Qed.

Lemma compose_stab_some p pre v suf r r' :
  p ∈ map compose_pat Ks -> first_diff (map compose_pat Ks) r r' ->
  match_at p ((pre ++ v ++ suf) ++ r) = Some (Match pre v suf r) ->
  match_at p ((pre ++ v ++ suf) ++ r') = Some (Match pre v suf r').
Proof.
  destruct (keys_ok_spec Ks Hkeys) as (Hok & Hind & _).
  intros (K & HK & ->)%compose_in Hfd Hm.
  apply compose_field_inv in Hm as (-> & -> & Hv & Hvall & Hr).
  rewrite app_nil_r, <- app_assoc, compose_match_app.
  assert (Hr' : starts_in CNotSpaceDash r' = false).
  { destruct Hfd as [r|g p pre v0 v' suf r2 r2' Hp H1 H2]; [done|].
    destruct g as [|c g]; [|done]. exfalso.
    apply compose_in in Hp as (Kk & HKk & ->).
    apply compose_field_inv in H1 as (-> & -> & _).
    destruct (key_ok_spec Kk (Hok Kk HKk)) as (Hne & _ & _ & Hall).
    cbn [app] in Hr. rewrite <- !app_assoc in Hr.
    rewrite starts_in_app in Hr by done.
    by rewrite starts_in_all in Hr. }
  rewrite span_app_stop by done. by destruct v.
Qed.

Lemma compose_swap p pre v suf r :
  p ∈ map compose_pat Ks ->
  match_at p ((pre ++ v ++ suf) ++ r) = Some (Match pre v suf r) ->
  match_at p ((pre ++ MASK ++ suf) ++ r) = Some (Match pre MASK suf r) /\
  quiet (map compose_pat Ks) (pre ++ MASK ++ suf) r /\
  (forall q, q ∈ map compose_pat Ks -> q <> p ->
     match_at q ((pre ++ MASK ++ suf) ++ r) = None).
Proof.
  destruct (keys_ok_spec Ks Hkeys) as (Hok & Hind & _).
  intros (K & HK & ->)%compose_in Hm.
  apply compose_field_inv in Hm as (-> & -> & Hv & Hvall & Hr).
  rewrite !app_nil_r.
  assert (Hkey : forall Kq y t, Kq ∈ Ks -> K = y ++ t -> t <> [] ->
            is_Some (match_at (compose_pat Kq) (t ++ MASK ++ r)) -> y = [] /\ Kq = K).
  { intros Kq y t HKq Ey Ht [m Hm].
    apply compose_match_inv in Hm as (u & rr & E & _).
    destruct (key_ok_spec Kq (Hok Kq HKq)) as (_ & Hstar & _).
    symmetry in E. apply key_before_mask in E as (z & -> & _); [|done].
    assert (E3 : K = y ++ Kq ++ z) by done.
    destruct (independent_spec Ks Kq K _ _ Hind HKq HK E3) as [-> ->].
    by rewrite app_nil_r in E3. }
  split; [|split].
  - rewrite <- app_assoc, compose_match_app. by rewrite span_app_stop.
  - intros q x1 x2 (Kq & HKq & ->)%compose_in E Hx1 Hx2.
    destruct (match_at (compose_pat Kq) (x2 ++ r)) as [m|] eqn:Em; [|done]. exfalso.
    apply app_eq_app in E as [l [[E1 E2]|[E1 E2]]].
    + destruct (decide (l = [])) as [->|Hl].
      * simpl in E2. subst x2.
        apply compose_match_inv in Em as (u & rr & E & _).
        destruct (key_ok_spec Kq (Hok Kq HKq)) as (Hne & Hstar & _).
        destruct Kq as [|c Kq]; [done|]. injection E as <- _. apply Hstar. left.
      * subst x2. rewrite <- app_assoc in Em.
        destruct (Hkey Kq x1 l HKq E1 Hl) as [-> _]; [eauto|done].
    + destruct (MASK_suffix_star _ _ E2 Hx2) as [x3 ->].
      apply compose_match_inv in Em as (u & rr & E & _).
      destruct (key_ok_spec Kq (Hok Kq HKq)) as (Hne & Hstar & _).
      destruct Kq as [|c Kq]; [done|]. injection E as <- _. apply Hstar. left.
  - intros q (Kq & HKq & ->)%compose_in Hne.
    destruct (match_at (compose_pat Kq) ((K ++ MASK) ++ r)) as [m|] eqn:Em; [|done].
    exfalso. rewrite <- app_assoc in Em.
    destruct (key_ok_spec K (Hok K HK)) as (HKne & _).
    destruct (Hkey Kq [] K HKq eq_refl HKne) as [_ ->]; [eauto|done].
Qed.

Lemma compose_variants D sel :
  Faithful (map compose_pat Ks) D -> Faithful (map compose_pat Ks) (dmask sel D).
Proof.
  apply faithful_variants.
  - apply compose_stab_none.
  - apply compose_stab_some.
  - apply compose_swap.
Qed.
End ComposeStable.

(** * The quoted layout is stable under masking *)

Lemma yaml_field_inv K pre v suf r :
  match_at (yaml_pat K) ((pre ++ v ++ suf) ++ r) = Some (Match pre v suf r) ->
  exists w, pre = K ++ w ++ [QUOTE] /\ suf = [QUOTE] /\
    forallb (in_class CSpace) w = true /\ forallb (in_class CNotQuote) v = true.
Proof.
  intros (w & v0 & r0 & E & Hw & Hv & [= -> -> -> ->])%yaml_match_inv. eauto.
Qed.

(** Two texts that end in whitespace after a character that is none. *)
Lemma trailing_spaces (a b w1 w2 : text) ea eb :
  (a ++ [ea]) ++ w1 = (b ++ [eb]) ++ w2 ->
  forallb (in_class CSpace) w1 = true -> forallb (in_class CSpace) w2 = true ->
  in_class CSpace ea = false -> in_class CSpace eb = false ->
  a ++ [ea] = b ++ [eb] /\ w1 = w2.
Proof.
  intros E H1 H2 Ha Hb.
  assert (Er : rev w1 ++ ea :: rev a = rev w2 ++ eb :: rev b).
  { apply (f_equal (@rev char)) in E. rewrite !rev_app_distr in E.
    simpl in E. exact E. }
  assert (Hs : forall w e t, forallb (in_class CSpace) w = true ->
            in_class CSpace e = false ->
            span CSpace (rev w ++ e :: t) = (rev w, e :: t)).
  { intros w e t Hw He. apply span_app_stop; [|done].
    rewrite forallb_forall in *. intros c Hc. apply Hw. by apply in_rev. }
  pose proof (Hs w1 ea (rev a) H1 Ha) as S1. rewrite Er in S1.
  rewrite (Hs w2 eb (rev b) H2 Hb) in S1. injection S1 as S1 S2 S3.
  apply (f_equal (@rev char)) in S1, S3. rewrite !rev_involutive in S1, S3.
  by subst.
Qed.

Lemma key_last K :
  key_ok K = true -> exists a e, K = a ++ [e] /\ in_class CSpace e = false.
Proof.
  intros (Hne & _ & _ & Hall)%key_ok_spec.
  destruct (exists_last Hne) as (a & e & ->). exists a, e. split; [done|].
  rewrite forallb_app in Hall. apply andb_true_iff in Hall as [_ He].
  simpl in He. rewrite andb_true_r in He. unfold in_class in *.
  apply negb_true_iff, orb_false_iff in He as [-> _]. done.
Qed.

(** A key and whitespace against another key and whitespace, after a text. *)
Lemma key_space_eq Ka Kb y wa wb :
  key_ok Ka = true -> key_ok Kb = true ->
  Ka ++ wa = (y ++ Kb) ++ wb ->
  forallb (in_class CSpace) wa = true -> forallb (in_class CSpace) wb = true ->
  Ka = y ++ Kb /\ wa = wb.
Proof.
  intros (a & ea & -> & Ha)%key_last (b & eb & -> & Hb)%key_last E Hwa Hwb.
  rewrite (app_assoc y b [eb]) in E |- *.
  by apply trailing_spaces.
Qed.

Section YamlStable.
Variable Ks : list text.
Hypothesis Hkeys : keys_ok Ks = true.

Lemma yaml_in p : p ∈ map yaml_pat Ks -> exists K, K ∈ Ks /\ p = yaml_pat K.
Proof. intros (K & -> & HK)%list_elem_of_fmap. eauto. Qed.

Lemma yaml_stab_some p pre v suf r r' :
  p ∈ map yaml_pat Ks ->
  match_at p ((pre ++ v ++ suf) ++ r) = Some (Match pre v suf r) ->
  match_at p ((pre ++ v ++ suf) ++ r') = Some (Match pre v suf r').
Proof.
  intros (K & HK & ->)%yaml_in (w & -> & -> & Hw & Hv)%yaml_field_inv.
  rewrite <- (yaml_match_intro K w v r') by done. f_equal. by norm_app.
Qed.

Lemma yaml_stab_none p r r' x :
  p ∈ map yaml_pat Ks -> first_diff (map yaml_pat Ks) r r' -> x <> [] ->
  match_at p (x ++ r) = None -> match_at p (x ++ r') = None.
Proof.
  destruct (keys_ok_spec Ks Hkeys) as (Hok & Hind & _).
  intros (Kj & HKj & ->)%yaml_in Hfd Hx Hn.
  destruct Hfd as [r|g p pre v v' suf r2 r2' Hp H1 H2]; [done|].
  apply yaml_in in Hp as (Kk & HKk & ->).
  apply yaml_field_inv in H1 as (w & -> & -> & Hw & Hv).
  clear H2.
  destruct (match_at (yaml_pat Kj) (x ++ g ++ ((Kk ++ w ++ [QUOTE]) ++ v' ++ [QUOTE]) ++ r2'))
    as [m|] eqn:Em; [|done].
  exfalso. apply yaml_match_inv in Em as (w' & u & rr & E & Hw' & Hu & _).
  destruct (key_ok_spec Kj (Hok Kj HKj)) as (HKjne & _ & HqKj & _).
  assert (Hq1 : QUOTE ∉ Kj ++ w').
  { rewrite not_elem_of_app. split; [done|by apply space_no_quote]. }
  assert (E' : (x ++ g ++ Kk ++ w) ++ QUOTE :: (v' ++ QUOTE :: r2')
               = (Kj ++ w') ++ QUOTE :: (u ++ QUOTE :: rr)).
  { norm_app_in E. norm_app. exact E. }
  assert (Eo : x ++ g ++ ((Kk ++ w ++ [QUOTE]) ++ v ++ [QUOTE]) ++ r2
               = (x ++ g ++ Kk ++ w) ++ QUOTE :: (v ++ QUOTE :: r2)) by by norm_app.
  rewrite Eo in Hn. clear Eo.
  destruct (decide (QUOTE ∈ x ++ g ++ Kk ++ w)) as [Hin|Hnin].
  - (* the opening quote lies before the field *)
    apply list_elem_of_split_l in Hin as (A1 & A2 & EA & HA1).
    rewrite EA in E', Hn. norm_app_in E'. norm_app_in Hn.
    rewrite (app_assoc Kj w') in E'.
    apply first_quote_unique in E' as [-> _]; [|done..].
    assert (Hq2 : QUOTE ∈ A2 ++ QUOTE :: v ++ QUOTE :: r2).
    { apply elem_of_app. right. left. }
    apply list_elem_of_split_l in Hq2 as (u0 & t0 & Eu & Hu0).
    rewrite Eu in Hn. apply not_quote_class in Hu0.
    pose proof (yaml_match_intro Kj w' u0 t0 Hw' Hu0) as Hs.
    norm_app_in Hs. norm_app_in Hn. congruence.
  - (* the opening quote is the one of the field *)
    apply first_quote_unique in E' as [E' _]; [|done..].
    assert (E2 : Kj ++ w' = ((x ++ g) ++ Kk) ++ w) by (rewrite <- E'; by norm_app).
    apply key_space_eq in E2 as [E2 _]; [|by auto..].
    assert (E3 : Kj = (x ++ g) ++ Kk ++ []) by by rewrite app_nil_r.
    destruct (independent_spec Ks Kk Kj _ _ Hind HKk HKj E3) as [Ha _].
    by destruct x.
Qed.

Lemma yaml_swap p pre v suf r :
  p ∈ map yaml_pat Ks ->
  match_at p ((pre ++ v ++ suf) ++ r) = Some (Match pre v suf r) ->
  match_at p ((pre ++ MASK ++ suf) ++ r) = Some (Match pre MASK suf r) /\
  quiet (map yaml_pat Ks) (pre ++ MASK ++ suf) r /\
  (forall q, q ∈ map yaml_pat Ks -> q <> p ->
     match_at q ((pre ++ MASK ++ suf) ++ r) = None).
Proof.
  destruct (keys_ok_spec Ks Hkeys) as (Hok & Hind & _).
  intros (K & HK & ->)%yaml_in (w & -> & -> & Hw & Hv)%yaml_field_inv.
  assert (Hkey : forall Kq y l0, Kq ∈ Ks -> K ++ w = y ++ l0 ->
            is_Some (match_at (yaml_pat Kq) (l0 ++ QUOTE :: MASK ++ QUOTE :: r)) ->
            y = [] /\ Kq = K).
  { intros Kq y l0 HKq Ey [m Hm].
    apply yaml_match_inv in Hm as (w' & u & rr & E & Hw' & _).
    destruct (key_ok_spec Kq (Hok Kq HKq)) as (_ & _ & HqKq & _).
    destruct (key_ok_spec K (Hok K HK)) as (_ & _ & HqK & _).
    assert (E' : l0 ++ QUOTE :: (MASK ++ QUOTE :: r)
                 = (Kq ++ w') ++ QUOTE :: (u ++ QUOTE :: rr)).
    { norm_app_in E. norm_app. exact E. }
    apply first_quote_unique in E' as [-> _].
    - rewrite app_assoc in Ey. apply key_space_eq in Ey as [Ey _]; [|by auto..].
      assert (E3 : K = y ++ Kq ++ []) by by rewrite app_nil_r.
      destruct (independent_spec Ks Kq K _ _ Hind HKq HK E3) as [-> _].
      by rewrite app_nil_r in E3.
    - intros Hin. assert (Hin' : QUOTE ∈ K ++ w).
      { rewrite Ey. apply elem_of_app. by right. }
      apply elem_of_app in Hin' as [?|?]; [done|]. by apply (space_no_quote w).
    - rewrite not_elem_of_app. split; [done|by apply space_no_quote]. }
  assert (Hfirst : forall Kq c t, Kq ∈ Ks -> c = STAR \/ c = QUOTE ->
            match_at (yaml_pat Kq) (c :: t) = None).
  { intros Kq c t HKq Hc.
    destruct (match_at (yaml_pat Kq) (c :: t)) as [m|] eqn:Em; [|done]. exfalso.
    apply yaml_match_inv in Em as (w' & u & rr & E & _).
    destruct (key_ok_spec Kq (Hok Kq HKq)) as (Hne & Hstar & Hquote & _).
    destruct Kq as [|c0 Kq]; [done|]. injection E as <- _.
    destruct Hc as [-> | ->]; [apply Hstar|apply Hquote]; left. }
  split; [|split].
  - rewrite <- (yaml_match_intro K w MASK r) by (done || apply MASK_yaml_class).
    f_equal. by norm_app.
  - intros q x1 x2 (Kq & HKq & ->)%yaml_in E Hx1 Hx2.
    apply app_eq_app in E as [l [[E1 E2]|[E1 E2]]].
    + destruct (decide (l = [])) as [->|Hl].
      * simpl in E2. subst x2. by apply Hfirst; [|left].
      * subst x2. rewrite !app_assoc in E1.
        destruct (ends_with_quote _ _ _ E1 Hl) as [l0 ->].
        rewrite app_assoc in E1. apply app_inj_tail in E1 as [E1 _].
        destruct (match_at (yaml_pat Kq) (((l0 ++ [QUOTE]) ++ MASK ++ [QUOTE]) ++ r))
          as [m|] eqn:Em; [|done].
        exfalso. norm_app_in Em.
        destruct (Hkey Kq x1 l0 HKq E1) as [-> _]; [eauto|done].
    + destruct (MASK_quote_suffix _ _ E2 Hx2) as (c & x3 & -> & Hc).
      by apply Hfirst.
  - intros q (Kq & HKq & ->)%yaml_in Hne.
    destruct (match_at (yaml_pat Kq) (((K ++ w ++ [QUOTE]) ++ MASK ++ [QUOTE]) ++ r))
      as [m|] eqn:Em; [|done].
    exfalso. norm_app_in Em.
    destruct (Hkey Kq [] (K ++ w) HKq eq_refl) as [_ ->]; [|done].
    rewrite <- app_assoc. eauto.
Qed.

Lemma yaml_variants D sel :
  Faithful (map yaml_pat Ks) D -> Faithful (map yaml_pat Ks) (dmask sel D).
Proof.
  apply faithful_variants.
  - apply yaml_stab_none.
  - intros p pre v suf r r' Hp _. by apply yaml_stab_some.
  - apply yaml_swap.
Qed.
End YamlStable.

(** * Round trip for the configured files *)

Lemma compose_masked_agrees K : masked_agrees (compose_pat K) (compose_masked K).
Proof.
  intros t. rewrite match_at_compose, match_at_compose_masked.
  unfold compose_match, compose_masked_match.
  destruct (strip K t) as [t1|] eqn:E1; [|done]. split.
  - destruct (strip MASK t1) as [r|] eqn:E2; [|done].
    apply strip_spec in E2 as ->. rewrite span_app.
    rewrite (span_all _ MASK) by done. cbn [snd].
    destruct (span CNotSpaceDash r). done.
  - intros m Hm Hv. destruct (span CNotSpaceDash t1) as [v r] eqn:Es.
    apply span_spec in Es as (-> & _ & _).
    destruct v as [|c v]; [done|]. injection Hm as <-. cbn [m_value] in Hv.
    rewrite Hv. by rewrite strip_app.
Qed.

Lemma yaml_masked_agrees K : masked_agrees (yaml_pat K) (yaml_masked K).
Proof.
  intros t. rewrite match_at_yaml, match_at_yaml_masked.
  unfold yaml_match, yaml_masked_match.
  destruct (strip K t) as [t1|] eqn:E1; [|done].
  destruct (span CSpace t1) as [w t2] eqn:Ew.
  destruct (strip [QUOTE] t2) as [t3|] eqn:E2; [|done]. split.
  - destruct (strip MASK t3) as [t4|] eqn:E3; [|done].
    destruct (strip [QUOTE] t4) as [r|] eqn:E4; [|done].
    apply strip_spec in E3 as ->. apply strip_spec in E4 as ->.
    rewrite (span_app_stop CNotQuote MASK) by done. by rewrite strip_app.
  - intros m Hm Hv. destruct (span CNotQuote t3) as [v t4] eqn:Es.
    apply span_spec in Es as (-> & _ & _).
    destruct (strip [QUOTE] t4) as [r|] eqn:E4; [|done].
    injection Hm as <-. cbn [m_value] in Hv. subst v.
    by rewrite strip_app, E4.
Qed.

Lemma config_layout f ps :
  (f, ps) ∈ FILES_CONFIG ->
  NoDup ps /\
  (forall D sel, Faithful ps D -> Faithful ps (dmask sel D)) /\
  (forall q, q ∈ ps -> masked_agrees q (mask_search_pattern f q)).
Proof.
  unfold FILES_CONFIG. rewrite !elem_of_cons, elem_of_nil.
  intros [[= -> ->]|[[= -> ->]|[]]].
  - change compose_patterns with (map compose_pat (map lit compose_keys)).
    split; [by apply (bool_decide_unpack _)|]. split.
    + intros D sel. by apply compose_variants.
    + intros q (K & -> & _)%list_elem_of_fmap. apply compose_masked_agrees.
  - change yaml_patterns with (map yaml_pat (map lit yaml_keys)).
    split; [by apply (bool_decide_unpack _)|]. split.
    + intros D sel. by apply yaml_variants.
    + intros q (K & -> & _)%list_elem_of_fmap. apply yaml_masked_agrees.
Qed.

Lemma config_round_trip f ps D T :
  (f, ps) ∈ FILES_CONFIG -> faithfulb ps D = true -> no_masked_field D = true ->
  unmask_content f ps (mask_content ps (drender D)).1
    ((mask_content ps (drender D)).2 ++ T) = (drender D, T).
Proof.
  intros Hin HD Hnm. destruct (config_layout f ps Hin) as (Hnd & Hvar & Hag).
  rewrite (unmask_content_spec f ps _ _ Hin), mask_content_spec.
  apply round_trip_doc; try done.
  intros sel. apply Hvar. by apply faithfulb_Faithful.
Qed.

Lemma config_mask_doc f ps D :
  (f, ps) ∈ FILES_CONFIG -> faithfulb ps D = true -> no_masked_field D = true ->
  mask_content ps (drender D) =
  (drender (dmask (among ps) D), concat (map (fun q => field_values q D) ps)).
Proof.
  intros Hin HD Hnm. destruct (config_layout f ps Hin) as (Hnd & Hvar & Hag).
  rewrite mask_content_spec.
  pose proof (mask_spec_doc ps D (fun sel => Hvar D sel (faithfulb_Faithful ps D HD))
                Hnm ps (fun _ => false)) as Hm.
  rewrite dmask_none in Hm. by rewrite Hm.
Qed.

(** One turn of the loop of [unmask], seen from a path [f]. *)
Lemma unmask_file_lookup secrets fs out g qs f :
  let st' := unmask_file secrets (fs, out) (g, qs) in
  (f <> g -> st'.1 !! f = fs !! f) /\
  (f = g ->
   st'.1 !! f =
   match fs !! f, secrets !! f with
   | Some c, Some st => Some (unmask_content f qs c st).1
   | _, _ => fs !! f
   end).
Proof.
  simpl. split.
  - intros Hne. destruct (fs !! g) as [c|] eqn:E; [|done].
    destruct (secrets !! g) as [st|]; [|done].
    destruct (unmask_content g qs c st). simpl. by rewrite lookup_insert_ne.
  - intros ->. destruct (fs !! g) as [c|] eqn:E; [|done].
    destruct (secrets !! g) as [st|]; [|done].
    destruct (unmask_content g qs c st). simpl. by rewrite lookup_insert_eq.
Qed.

(** What [unmask] leaves at a configured path. *)
Lemma unmask_lookup w f ps :
  (f, ps) ∈ FILES_CONFIG ->
  files (unmask w) !! f =
  if decide (stored w = ∅) then files w !! f
  else match files w !! f, stored w !! f with
       | Some c, Some st => Some (unmask_content f ps c st).1
       | _, _ => files w !! f
       end.
Proof.
  intros Hin. unfold unmask, stored.
  destruct (load_secrets w) as [secrets out0]. cbn [fst].
  destruct (decide (secrets = ∅)) as [E|E]; [done|].
  unfold FILES_CONFIG in *. cbn [fold_left].
  destruct (unmask_file secrets (files w, printed w ++ out0)
              (COMPOSE_FILE, compose_patterns)) as [fs1 out1] eqn:E1.
  destruct (unmask_file secrets (fs1, out1) (YAML_FILE, yaml_patterns))
    as [fs2 out2] eqn:E2.
  pose proof (unmask_file_lookup secrets (files w) (printed w ++ out0)
                COMPOSE_FILE compose_patterns f) as [H1n H1e].
  pose proof (unmask_file_lookup secrets fs1 out1 YAML_FILE yaml_patterns f)
    as [H2n H2e].
  rewrite E1 in H1n, H1e. rewrite E2 in H2n, H2e. cbn [fst snd files] in *.
  apply elem_of_cons in Hin as [[= -> ->]|Hin].
  - rewrite (H2n compose_yaml_paths). by apply H1e.
  - apply elem_of_cons in Hin as [[= -> ->]|Hin]; [|by apply elem_of_nil in Hin].
    rewrite (H2e eq_refl). by rewrite (H1n (not_eq_sym compose_yaml_paths)).
Qed.


(** Fields of a document and the values recorded for them. *)
Lemma field_values_app p D1 D2 :
  field_values p (D1 ++ D2) = field_values p D1 ++ field_values p D2.
Proof.
  induction D1 as [|[c|q pre v suf] D1 IH]; simpl; [done..|].
  destruct (decide (q = p)); by rewrite IH.
Qed.

Lemma faithful_field_in ps D1 p pre v suf D2 :
  Faithful ps (D1 ++ Field p pre v suf :: D2) -> p ∈ ps.
Proof.
  induction D1 as [|i D1 IH]; simpl; intros H; inversion H; subst; auto.
Qed.

Lemma field_values_two p D1 D2 D3 k1 s1 k2 s2 v :
  field_values p (D1 ++ Field p k1 v s1 :: D2 ++ Field p k2 v s2 :: D3)
  = field_values p D1 ++ v :: field_values p D2 ++ v :: field_values p D3.
Proof.
  rewrite field_values_app. cbn [field_values]. rewrite decide_True by done.
  rewrite field_values_app. cbn [field_values]. by rewrite decide_True by done.
Qed.

Lemma captured_two ps p (D : doc) l1 l2 l3 v :
  p ∈ ps -> field_values p D = l1 ++ v :: l2 ++ v :: l3 ->
  exists a b, concat (map (fun q => field_values q D) ps) = a ++ v :: l2 ++ v :: b.
Proof.
  intros Hp E. apply list_elem_of_split in Hp as (ps1 & ps2 & ->).
  rewrite map_app, concat_app. cbn [map concat]. rewrite E.
  exists (concat (map (fun q => field_values q D) ps1) ++ l1),
         (l3 ++ concat (map (fun q => field_values q D) ps2)).
  rewrite <- !app_assoc. do 2 f_equal. cbn [app]. f_equal.
  by rewrite <- app_assoc.
Qed.

(** ** Matches of the masked forms *)

Lemma unmask_pass_step q s m v rest :
  match_at q s = Some m -> m_value m = MASK ->
  re_sub q unmask_replacer s (v :: rest) =
    ((m_prefix m ++ v ++ m_suffix m) ++ (re_sub q unmask_replacer (m_rest m) rest).1,
     (re_sub q unmask_replacer (m_rest m) rest).2).
Proof.
  intros E Hv. rewrite re_sub_unfold, E, (unmask_replacer_cons m v rest Hv).
  destruct (group0 m) as [|c g] eqn:Eg.
  - unfold group0 in Eg. rewrite Hv in Eg.
    apply app_eq_nil in Eg as [_ Eg]. apply app_eq_nil in Eg as [Eg _].
    by vm_compute in Eg.
  - by destruct (re_sub q unmask_replacer (m_rest m) rest).
Qed.

Lemma compose_masked_inv K t m :
  match_at (compose_masked K) t = Some m -> exists r, t = K ++ MASK ++ r.
Proof.
  rewrite match_at_compose_masked. unfold compose_masked_match.
  destruct (strip K t) as [t1|] eqn:E1; [|done].
  destruct (strip MASK t1) as [r|] eqn:E2; [|done]. intros _.
  apply strip_spec in E1 as ->. apply strip_spec in E2 as ->. by exists r.
Qed.

Lemma yaml_masked_inv K t m :
  match_at (yaml_masked K) t = Some m ->
  exists w r, t = K ++ w ++ [QUOTE] ++ MASK ++ [QUOTE] ++ r /\
              forallb (in_class CSpace) w = true.
Proof.
  rewrite match_at_yaml_masked. unfold yaml_masked_match.
  destruct (strip K t) as [t0|] eqn:E0; [|done].
  destruct (span CSpace t0) as [w t1] eqn:Es.
  destruct (strip [QUOTE] t1) as [t2|] eqn:E1; [|done].
  destruct (strip MASK t2) as [t3|] eqn:E2; [|done].
  destruct (strip [QUOTE] t3) as [r|] eqn:E3; [|done]. intros _.
  apply strip_spec in E0 as ->. apply span_spec in Es as (-> & Hw & _).
  apply strip_spec in E1 as ->. apply strip_spec in E2 as ->.
  apply strip_spec in E3 as ->. by exists w, r.
Qed.

Lemma compose_masked_match_inv K t m :
  match_at (compose_masked K) t = Some m ->
  t = K ++ MASK ++ m_rest m /\ m = Match K MASK [] (m_rest m).
Proof.
  rewrite match_at_compose_masked. unfold compose_masked_match.
  destruct (strip K t) as [t1|] eqn:E1; [|done].
  destruct (strip MASK t1) as [r|] eqn:E2; [|done]. intros [= <-].
  apply strip_spec in E1 as ->. by apply strip_spec in E2 as ->.
Qed.

Lemma yaml_masked_match_inv K t m :
  match_at (yaml_masked K) t = Some m ->
  exists w, forallb (in_class CSpace) w = true /\
    t = K ++ w ++ [QUOTE] ++ MASK ++ [QUOTE] ++ m_rest m /\
    m = Match (K ++ w ++ [QUOTE]) MASK [QUOTE] (m_rest m).
Proof.
  rewrite match_at_yaml_masked. unfold yaml_masked_match.
  destruct (strip K t) as [t0|] eqn:E0; [|done].
  destruct (span CSpace t0) as [w t1] eqn:Es.
  destruct (strip [QUOTE] t1) as [t2|] eqn:E1; [|done].
  destruct (strip MASK t2) as [t3|] eqn:E2; [|done].
  destruct (strip [QUOTE] t3) as [r|] eqn:E3; [|done]. intros [= <-].
  apply strip_spec in E0 as ->. apply span_spec in Es as (-> & Hw & _).
  apply strip_spec in E1 as ->. apply strip_spec in E2 as ->.
  apply strip_spec in E3 as ->. by exists w.
Qed.

Lemma compose_masked_match_intro K r :
  match_at (compose_masked K) (K ++ MASK ++ r) = Some (Match K MASK [] r).
Proof.
  rewrite match_at_compose_masked. unfold compose_masked_match.
  by rewrite !strip_app.
Qed.

Lemma yaml_masked_match_intro K w r :
  forallb (in_class CSpace) w = true ->
  match_at (yaml_masked K) (K ++ w ++ [QUOTE] ++ MASK ++ [QUOTE] ++ r)
    = Some (Match (K ++ w ++ [QUOTE]) MASK [QUOTE] r).
Proof.
  intros Hw. rewrite match_at_yaml_masked. unfold yaml_masked_match.
  rewrite strip_app.
  rewrite (span_app_stop CSpace w ([QUOTE] ++ MASK ++ [QUOTE] ++ r) Hw eq_refl).
  by rewrite !strip_app.
Qed.

(** The masked-form patterns of a configured file match where the key is
    immediately followed by the token, and nowhere else. *)
Lemma masked_form_shape f ps p t m :
  (f, ps) ∈ FILES_CONFIG -> p ∈ ps ->
  match_at (mask_search_pattern f p) t = Some m <-> token_after_key f p t m.
Proof.
  unfold FILES_CONFIG. rewrite !elem_of_cons, elem_of_nil.
  intros [[= -> ->]|[[= -> ->]|[]]] Hp.
  - rewrite compose_patterns_keys in Hp.
    apply list_elem_of_fmap in Hp as (key & -> & Hkey).
    rewrite compose_pattern_pat, mask_search_compose. split.
    + intros [Et Em]%compose_masked_match_inv. left. split; [done|].
      by exists key.
    + intros [[_ (key' & Ep & -> & ->)]|[Hf _]];
        [|by destruct compose_yaml_paths].
      rewrite !compose_pattern_pat in Ep. apply compose_pat_inj in Ep as <-.
      apply compose_masked_match_intro.
  - rewrite yaml_patterns_keys in Hp.
    apply list_elem_of_fmap in Hp as (key & -> & Hkey).
    rewrite yaml_pattern_pat, mask_search_yaml. split.
    + intros (w & Hw & Et & Em)%yaml_masked_match_inv. right. split; [done|].
      by exists key, w.
    + intros [[Hf _]|[_ (key' & w & Ep & Hw & -> & ->)]];
        [by destruct compose_yaml_paths|].
      rewrite !yaml_pattern_pat in Ep. apply yaml_pat_inj in Ep as <-.
      by apply yaml_masked_match_intro.
Qed.

(** A stretch of text in which the pattern matches at no position is copied
    by the scan, with the state of the callback as it was. *)
Lemma re_sub_skip_prefix {St} (q : pattern) (repl : mtch -> St -> text * St)
    (a t : text) (st : St) :
  (forall x y, a = x ++ y -> y <> [] -> match_at q (y ++ t) = None) ->
  re_sub q repl (a ++ t) st = (a ++ (re_sub q repl t st).1, (re_sub q repl t st).2).
Proof.
  induction a as [|c a IH]; intros H.
  - cbn [app]. by destruct (re_sub q repl t st).
  - assert (E : match_at q (c :: a ++ t) = None) by (by apply (H [] (c :: a))).
    cbn [app]. rewrite re_sub_unfold, E.
    rewrite IH; [done|]. intros x y -> Hy. by apply (H (c :: x) y).
Qed.

(** * The properties of the specification *)

(** C6. Unmask safety on an empty or unreadable store: when the store file
    is absent or does not parse, [load_secrets] yields the empty mapping
    (after printing the error in the second case), and [unmask] leaves every
    file and the store file as they are and ends by printing the notice that
    no secrets were found. *)
Theorem unmask_without_store (w : world) :
  secrets_file w = StoreAbsent \/ secrets_file w = StoreCorrupt ->
  (load_secrets w).1 = ∅ /\
  files (unmask w) = files w /\
  secrets_file (unmask w) = secrets_file w /\
  printed (unmask w) =
    printed w ++ match secrets_file w with
                 | StoreCorrupt => [ErrorLoadingSecrets]
                 | _ => []
                 end ++ [NoSecretsFound].
Proof.
  unfold unmask, load_secrets.
  intros [E|E]; rewrite E; simpl; by rewrite decide_True.
Qed.

Lemma unmask_without_store_witness :
  let w := World {[ COMPOSE_FILE := lit "DATABASE_PASSWORD=******" ]} StoreCorrupt [] in
  files (unmask w) = files w /\
  printed (unmask w) = [ErrorLoadingSecrets; NoSecretsFound].
Proof.
  intros w.
  destruct (unmask_without_store w (or_intror eq_refl)) as (_ & Hf & _ & Hp).
  split; [exact Hf|exact Hp].
Defined.

(** C7. Mask write condition and file frame: for a configured file that
    exists, once all its patterns are processed, if at least one value was
    captured the captured sequence is stored under the file's path,
    replacing whatever was there, and the modified content is written; if
    none was captured the file keeps its content and the store keeps for
    that path exactly what it had before the run (an entry of an earlier
    run, or none). *)
Theorem mask_write_condition (w : world) (f : string) (ps : list pattern)
    (content : text) :
  (f, ps) ∈ FILES_CONFIG ->
  files w !! f = Some content ->
  ((mask_content ps content).2 <> [] ->
     files (mask w) !! f = Some (mask_content ps content).1 /\
     stored (mask w) !! f = Some (mask_content ps content).2) /\
  ((mask_content ps content).2 = [] ->
     files (mask w) !! f = Some content /\
     stored (mask w) !! f = stored w !! f).
Proof.
  intros Hin Hf. pose proof (mask_at_path w f ps content Hin Hf) as H.
  destruct (mask_content ps content).2; split; intros; done.
Qed.

Lemma mask_write_condition_witness :
  let w := World {[ COMPOSE_FILE := lit "DATABASE_PASSWORD=hunter2" ]} StoreAbsent [] in
  files (mask w) !! COMPOSE_FILE = Some (lit "DATABASE_PASSWORD=******") /\
  stored (mask w) !! COMPOSE_FILE = Some [lit "hunter2"].
Proof.
  intros w.
  assert (Hin : (COMPOSE_FILE, compose_patterns) ∈ FILES_CONFIG) by (unfold FILES_CONFIG; left).
  assert (Hf : files w !! COMPOSE_FILE = Some (lit "DATABASE_PASSWORD=hunter2"))
    by apply lookup_singleton_eq.
  destruct (mask_write_condition w COMPOSE_FILE compose_patterns _ Hin Hf) as [H _].
  apply H. vm_compute. discriminate.
Defined.

(** C2. Capture order: for every content and every ordered pattern list, the
    loop of [mask] computes what the specification describes.  The captured
    sequence lists the patterns in list order and, within a pattern, the
    values of its matches from left to right; each pattern scans the content
    as the patterns before it left it. *)
Theorem capture_order (patterns : list pattern) (content : text) :
  mask_content patterns content = mask_spec patterns content.
Proof. apply mask_content_spec. Qed.

(** C4. Partial restoration: when a configured file holds more masked
    occurrences than the stored sequence has entries, [unmask] restores the
    first ones the scan comes across, as many as there are stored values,
    leaves every later occurrence as it is, raises no error, uses up the
    whole sequence, and reports the stored length minus the remaining length,
    which is the stored length. *)
Theorem partial_restoration (f : string) (ps : list pattern)
    (content : text) (stored : list text) :
  (f, ps) ∈ FILES_CONFIG ->
  (length stored < occurrences (map (mask_search_pattern f) ps) content stored)%nat ->
  unmask_content f ps content stored
    = unmask_spec (map (mask_search_pattern f) ps) content stored /\
  (unmask_content f ps content stored).2 = [] /\
  forall fs out secrets,
    fs !! f = Some content -> secrets !! f = Some stored ->
    unmask_file secrets (fs, out) (f, ps) =
      (<[f := (unmask_spec (map (mask_search_pattern f) ps) content stored).1]> fs,
       out ++ [UnmaskedSecrets (Z.of_nat (length stored)) f]).
Proof.
  intros Hin Hocc.
  pose proof (unmask_content_spec f ps content stored Hin) as Hspec.
  pose proof (unmask_spec_remaining (map (mask_search_pattern f) ps) content stored) as Hlen.
  assert (Hnil : (unmask_content f ps content stored).2 = []).
  { rewrite Hspec. apply length_zero_iff_nil. lia. }
  split; [done|]. split; [done|].
  intros fs out secrets Hf Hs. unfold unmask_file. rewrite Hf, Hs.
  rewrite <- Hspec. destruct (unmask_content f ps content stored) as [nc cur].
  simpl in Hnil. subst cur. cbn [length Z.of_nat]. by rewrite Z.sub_0_r.
Qed.

Lemma partial_restoration_witness :
  unmask_content COMPOSE_FILE compose_patterns
    (lit "DATABASE_PASSWORD=****** DATABASE_PASSWORD=******") [lit "a"]
  = (lit "DATABASE_PASSWORD=a DATABASE_PASSWORD=******", []).
Proof.
  assert (Hin : (COMPOSE_FILE, compose_patterns) ∈ FILES_CONFIG)
    by (unfold FILES_CONFIG; left).
  destruct (partial_restoration COMPOSE_FILE compose_patterns
              (lit "DATABASE_PASSWORD=****** DATABASE_PASSWORD=******") [lit "a"] Hin)
    as (H & _ & _).
  - vm_compute. lia.
  - rewrite H. vm_compute. reflexivity.
Defined.

(** C8. Prefix and suffix preservation: each pass of [mask] and of [unmask]
    returns the content it scanned with nothing but value zones of matches
    rewritten: the characters between matches and the prefix and suffix of
    every match are the same, in the same order; and a zone that [unmask]
    rewrote held the mask token. *)
Theorem frame_preservation (f : string) (ps : list pattern)
    (content : text) (stored : list text) :
  edit_chain value_edit ps content (mask_content ps content).1 /\
  edit_chain masked_value_edit (map (mask_search_pattern f) ps) content
    (unmask_content f ps content stored).1.
Proof.
  split; [apply mask_fold_chain|apply unmask_fold_chain].
Qed.

(** C9, as stated, fails when it is read on the content given to [unmask]:
    in a compose file that holds a key followed by two mask tokens, the
    second token is not immediately preceded by a configured key, and the
    content holds one match of the first masked-form pattern and none of the
    second.  With a first stored value that is the other key, the first pass
    puts that key in front of the second token, the second pass rewrites the
    token, and two values are used. *)
Lemma stray_token_counterexample :
  let head := lit "DATABASE_PASSWORD=******" in
  let content := head ++ MASK in
  let stored := [lit "MYSQL_ROOT_PASSWORD="; lit "z"] in
  Forall (fun key => ~ (lit key `suffix_of` head)) compose_keys /\
  map (fun p => length (matches (mask_search_pattern COMPOSE_FILE p) content))
    compose_patterns = [1; 0]%nat /\
  unmask_content COMPOSE_FILE compose_patterns content stored
    = (lit "DATABASE_PASSWORD=MYSQL_ROOT_PASSWORD=z", []) /\
  ~ (MASK `suffix_of` (unmask_content COMPOSE_FILE compose_patterns content stored).1).
Proof.
  intros head content stored. split; [|split; [|split]].
  - repeat constructor; apply (bool_decide_unpack _); by vm_compute.
  - by vm_compute.
  - by vm_compute.
  - apply (bool_decide_unpack _). by vm_compute.
Qed.

(** C9, amended.  Stray mask tokens are inert within each pass of [unmask]:
    for every content of a configured file and every stored sequence, the
    passes do what the specification describes, one masked-form pattern
    after the other, each over the content as the passes before it left it.
    A masked-form pattern matches a text exactly when the text starts with
    the key immediately followed by the mask token, for the quoted layout
    with optional whitespace and the opening quote between them and the
    closing quote after the token.  In a pass, a stretch of the content in
    which the masked-form pattern of the pass matches at no position is
    copied as it is, whatever mask tokens it holds, and uses no value; at a
    match, while a value is left, the first value left takes the place of
    the token and the pass goes on after the match.  The values used up are
    as many as the matches the scans come across (or all of them, if there
    are fewer), and a content in which no masked-form pattern matches at any
    position comes back unchanged with the stored sequence untouched.  A
    token that comes to stand after a key only through a value an earlier
    pass restored is a match for a later pass. *)
Theorem stray_tokens_inert (f : string) (ps : list pattern)
    (content : text) (stored : list text) :
  (f, ps) ∈ FILES_CONFIG ->
  unmask_content f ps content stored
    = unmask_spec (map (mask_search_pattern f) ps) content stored /\
  (length stored - length (unmask_content f ps content stored).2)%nat
    = Nat.min (length stored)
        (occurrences (map (mask_search_pattern f) ps) content stored) /\
  ((forall q, q ∈ map (mask_search_pattern f) ps -> matches_anywhere q content = false) ->
   unmask_content f ps content stored = (content, stored)) /\
  (forall p t m, p ∈ ps ->
     (match_at (mask_search_pattern f p) t = Some m <-> token_after_key f p t m)) /\
  (forall p a t st, p ∈ ps ->
     (forall x y, a = x ++ y -> y <> [] ->
        match_at (mask_search_pattern f p) (y ++ t) = None) ->
     re_sub (mask_search_pattern f p) unmask_replacer (a ++ t) st
       = (a ++ (re_sub (mask_search_pattern f p) unmask_replacer t st).1,
          (re_sub (mask_search_pattern f p) unmask_replacer t st).2)) /\
  (forall p t m v st, p ∈ ps ->
     match_at (mask_search_pattern f p) t = Some m ->
     re_sub (mask_search_pattern f p) unmask_replacer t (v :: st)
       = ((m_prefix m ++ v ++ m_suffix m)
            ++ (re_sub (mask_search_pattern f p) unmask_replacer (m_rest m) st).1,
          (re_sub (mask_search_pattern f p) unmask_replacer (m_rest m) st).2)).
Proof.
  intros Hin.
  pose proof (unmask_content_spec f ps content stored Hin) as Hspec.
  split; [exact Hspec|]. rewrite Hspec. split; [|split; [|split; [|split]]].
  - rewrite unmask_spec_remaining. lia.
  - apply unmask_spec_no_match.
  - intros p t m Hp. by apply (masked_form_shape f ps).
  - intros p a t st _. apply re_sub_skip_prefix.
  - intros p t m v st Hp Hm. apply unmask_pass_step; [done|].
    pose proof (config_masked_form f ps Hin) as Hmf.
    rewrite Forall_forall in Hmf. by apply (Hmf p Hp t m).
Qed.

Lemma stray_tokens_inert_witness :
  unmask_content COMPOSE_FILE compose_patterns
    (lit "****** PASSWORD=****** DATABASE_PASSWORD=****** ******") [lit "s"; lit "t"]
  = (lit "****** PASSWORD=****** DATABASE_PASSWORD=s ******", [lit "t"]).
Proof.
  assert (Hin : (COMPOSE_FILE, compose_patterns) ∈ FILES_CONFIG)
    by (unfold FILES_CONFIG; left).
  rewrite (proj1 (stray_tokens_inert COMPOSE_FILE compose_patterns
    (lit "****** PASSWORD=****** DATABASE_PASSWORD=****** ******")
    [lit "s"; lit "t"] Hin)).
  by vm_compute.
Defined.

(** C10. Empty secrets are captured: a quoted key followed by an empty pair
    of quotes is a match of the key's pattern with the empty string as its
    value; [mask_replacer] appends the empty string to the captured sequence
    and writes the mask token between the quotes, and [unmask_replacer] puts
    the empty string back.  For each of the four keys, a file holding the
    key, a space and the two quotes is masked with one secret reported, and
    unmasked to what it was. *)
Theorem empty_secret_captured (key : string) (w rest : text) (acc : list text) :
  forallb is_space w = true ->
  match_at (yaml_pattern key) (lit key ++ w ++ [QUOTE; QUOTE] ++ rest)
    = Some (Match (lit key ++ w ++ [QUOTE]) [] [QUOTE] rest) /\
  mask_replacer (Match (lit key ++ w ++ [QUOTE]) [] [QUOTE] rest) acc
    = ((lit key ++ w ++ [QUOTE]) ++ MASK ++ [QUOTE], acc ++ [[]]) /\
  unmask_replacer (Match (lit key ++ w ++ [QUOTE]) MASK [QUOTE] rest) ([] :: acc)
    = ((lit key ++ w ++ [QUOTE]) ++ [] ++ [QUOTE], acc) /\
  Forall (fun k =>
    let content := lit k ++ lit " " ++ [QUOTE; QUOTE] in
    let masked := lit k ++ lit " " ++ [QUOTE] ++ MASK ++ [QUOTE] in
    mask_content yaml_patterns content = (masked, [[]]) /\
    unmask_content YAML_FILE yaml_patterns masked [[]] = (content, []) /\
    printed (mask (World {[ YAML_FILE := content ]} StoreAbsent []))
      = [MaskedSecrets 1 YAML_FILE]) yaml_keys.
Proof.
  intros Hw. split; [|split; [|split]].
  - rewrite yaml_pattern_pat, match_at_yaml. unfold yaml_match.
    rewrite strip_app. rewrite (span_app_stop CSpace w) by done.
    reflexivity.
  - reflexivity.
  - reflexivity.
  - repeat constructor; vm_compute; reflexivity.
Qed.

Lemma empty_secret_captured_witness :
  match_at (yaml_pattern "password:")
    (lit "password:" ++ lit " " ++ [QUOTE; QUOTE] ++ lit " # none")
  = Some (Match (lit "password:" ++ lit " " ++ [QUOTE]) [] [QUOTE] (lit " # none")).
Proof.
  apply (empty_secret_captured "password:" (lit " ") (lit " # none") []).
  reflexivity.
Defined.

(** C3. Idempotent masking: a second run of [mask] right after the first
    leaves every file, the store and the output as the first run left them;
    on every configured file the second run captures nothing and returns the
    content unchanged; and the callback leaves a match whose value zone is
    already the mask token as it is and records nothing for it. *)
Theorem mask_idempotent (w : world) :
  mask (mask w) = mask w /\
  (forall f ps c, (f, ps) ∈ FILES_CONFIG -> files (mask w) !! f = Some c ->
     mask_content ps c = (c, [])) /\
  (forall m acc, m_value m = MASK -> mask_replacer m acc = (group0 m, acc)).
Proof.
  split; [apply mask_mask|]. split.
  - intros f ps c. apply mask_settles.
  - intros m acc E. unfold mask_replacer. by rewrite decide_True.
Qed.

Lemma mask_idempotent_witness :
  mask_content compose_patterns (lit "DATABASE_PASSWORD=******")
  = (lit "DATABASE_PASSWORD=******", []).
Proof.
  destruct (mask_idempotent
              (World {[ COMPOSE_FILE := lit "DATABASE_PASSWORD=hunter2" ]} StoreAbsent []))
    as (_ & H & _).
  apply (H COMPOSE_FILE compose_patterns).
  - unfold FILES_CONFIG. left.
  - vm_compute. reflexivity.
Defined.




(** C5, as stated, fails: a compose file in which the first pattern finds
    the value x in two places, the second of them after the other key.
    [mask] records an entry for each, and [unmask] restores one of the two
    places only: the second key takes the other entry. *)
Lemma duplicates_counterexample :
  let p := compose_pattern "DATABASE_PASSWORD=" in
  let original := lit "DATABASE_PASSWORD=x MYSQL_ROOT_PASSWORD=DATABASE_PASSWORD=x" in
  let masked := (mask_content compose_patterns original).1 in
  let stored := (mask_content compose_patterns original).2 in
  map m_value (matches p original) = [lit "x"; lit "x"] /\
  stored = [lit "x"; lit "x"; lit "DATABASE_PASSWORD=******"] /\
  masked = lit "DATABASE_PASSWORD=****** MYSQL_ROOT_PASSWORD=******" /\
  unmask_content COMPOSE_FILE compose_patterns masked stored
    = (lit "DATABASE_PASSWORD=x MYSQL_ROOT_PASSWORD=x", [lit "DATABASE_PASSWORD=******"]) /\
  map m_value (matches p (unmask_content COMPOSE_FILE compose_patterns masked stored).1)
    = [lit "x"] /\
  (unmask_content COMPOSE_FILE compose_patterns masked stored).1 <> original.
Proof.
  repeat split; by vm_compute.
Qed.

(** C5, amended.  Positional correctness with duplicates: take a configured
    file whose content is a sequence of filler characters and fields, each
    field a match of one of the file's patterns, such that the patterns match
    in the content at the fields only, and such that no field holds the mask
    token.  If two fields of one pattern hold the same value, [mask] records
    two separate entries with that value, with between them the values of
    the fields of that pattern that lie between the two, and [unmask], given
    what [mask] produced, restores the content, both fields with it, and uses
    up every entry.  In every content, a pass of [mask] records the value of
    each match it rewrites, one entry for each, equal values included. *)
Theorem duplicates_kept (f : string) (ps : list pattern) (p : pattern)
    (D1 D2 D3 : doc) (k1 s1 k2 s2 v : text) :
  let D := D1 ++ Field p k1 v s1 :: D2 ++ Field p k2 v s2 :: D3 in
  (f, ps) ∈ FILES_CONFIG ->
  faithfulb ps D = true ->
  no_masked_field D = true ->
  (exists a b, (mask_content ps (drender D)).2
                 = a ++ v :: field_values p D2 ++ v :: b) /\
  (mask_content ps (drender D)).1 = drender (dmask (among ps) D) /\
  unmask_content f ps (mask_content ps (drender D)).1 (mask_content ps (drender D)).2
    = (drender D, []) /\
  (forall q content acc,
     (re_sub q mask_replacer content acc).2
       = acc ++ filter (fun x => x <> MASK) (map m_value (matches q content))).
Proof.
  intros D Hin HD Hnm.
  assert (Hp : p ∈ ps).
  { apply faithfulb_Faithful in HD. by apply faithful_field_in in HD. }
  rewrite (config_mask_doc f ps D Hin HD Hnm). cbn [fst snd].
  split; [|split; [done|split]].
  - apply (captured_two ps p D (field_values p D1) _ (field_values p D3) v Hp).
    apply field_values_two.
  - pose proof (config_round_trip f ps D [] Hin HD Hnm) as H.
    rewrite (config_mask_doc f ps D Hin HD Hnm) in H. cbn [fst snd] in H.
    by rewrite app_nil_r in H.
  - intros q content acc. by rewrite re_sub_mask.
Qed.

Lemma duplicates_kept_witness :
  let p := compose_pattern "DATABASE_PASSWORD=" in
  let k := lit "DATABASE_PASSWORD=" in
  let D := [Field p k (lit "hunter2") []; Gap 32; Field p k (lit "hunter2") []] in
  drender D = lit "DATABASE_PASSWORD=hunter2 DATABASE_PASSWORD=hunter2" /\
  mask_content compose_patterns (drender D)
    = (lit "DATABASE_PASSWORD=****** DATABASE_PASSWORD=******",
       [lit "hunter2"; lit "hunter2"]) /\
  unmask_content COMPOSE_FILE compose_patterns
      (mask_content compose_patterns (drender D)).1
      (mask_content compose_patterns (drender D)).2
    = (drender D, []).
Proof.
  intros p k D. split; [by vm_compute|]. split; [by vm_compute|].
  refine (proj1 (proj2 (proj2
    (duplicates_kept COMPOSE_FILE compose_patterns p [] [Gap 32] []
       k [] k [] (lit "hunter2") _ _ _)))).
  - unfold FILES_CONFIG. left.
  - vm_compute. reflexivity.
  - vm_compute. reflexivity.
Defined.

(** * Further properties of the program *)

(** ** What the two commands leave alone *)

Lemma configured_path f :
  (exists ps, (f, ps) ∈ FILES_CONFIG) \/ (f <> COMPOSE_FILE /\ f <> YAML_FILE).
Proof.
  destruct (decide (f = COMPOSE_FILE)) as [->|H1].
  - left. exists compose_patterns. unfold FILES_CONFIG. left.
  - destruct (decide (f = YAML_FILE)) as [->|H2]; [|by right].
    left. exists yaml_patterns. unfold FILES_CONFIG. right. left.
Qed.

Lemma mask_other_path w f :
  f <> COMPOSE_FILE -> f <> YAML_FILE ->
  files (mask w) !! f = files w !! f /\ stored (mask w) !! f = stored w !! f.
Proof.
  intros H1 H2. unfold mask, stored.
  destruct (load_secrets w) as [secrets out0] eqn:El. unfold FILES_CONFIG.
  cbn [fold_left].
  destruct (mask_file (files w, secrets, printed w ++ out0)
              (COMPOSE_FILE, compose_patterns)) as [[fs1 sec1] out1] eqn:E1.
  destruct (mask_file (fs1, sec1, out1) (YAML_FILE, yaml_patterns))
    as [[fs2 sec2] out2] eqn:E2.
  pose proof (mask_file_lookup (files w) secrets (printed w ++ out0)
                COMPOSE_FILE compose_patterns f) as [H1n _].
  pose proof (mask_file_lookup fs1 sec1 out1 YAML_FILE yaml_patterns f) as [H2n _].
  rewrite E1 in H1n. rewrite E2 in H2n. cbn [fst snd] in *.
  cbn [files secrets_file load_secrets fst].
  destruct (H1n H1) as [<- <-]. by apply H2n.
Qed.

Lemma unmask_other_path w f :
  f <> COMPOSE_FILE -> f <> YAML_FILE -> files (unmask w) !! f = files w !! f.
Proof.
  intros H1 H2. unfold unmask.
  destruct (load_secrets w) as [secrets out0].
  destruct (decide (secrets = ∅)) as [E|E]; [done|].
  unfold FILES_CONFIG. cbn [fold_left].
  destruct (unmask_file secrets (files w, printed w ++ out0)
              (COMPOSE_FILE, compose_patterns)) as [fs1 out1] eqn:E1.
  destruct (unmask_file secrets (fs1, out1) (YAML_FILE, yaml_patterns))
    as [fs2 out2] eqn:E2.
  pose proof (unmask_file_lookup secrets (files w) (printed w ++ out0)
                COMPOSE_FILE compose_patterns f) as [H1n _].
  pose proof (unmask_file_lookup secrets fs1 out1 YAML_FILE yaml_patterns f)
    as [H2n _].
  rewrite E1 in H1n. rewrite E2 in H2n. cbn [fst snd files] in *.
  rewrite (H2n H2). by apply H1n.
Qed.


Lemma unmask_same_paths w f : files (unmask w) !! f = None <-> files w !! f = None.
Proof.
  destruct (configured_path f) as [[ps Hin]|[H1 H2]].
  - rewrite (unmask_lookup w f ps Hin).
    destruct (decide (stored w = ∅)); [done|].
    destruct (files w !! f) as [c|]; [|done].
    by destruct (stored w !! f).
  - by rewrite (unmask_other_path w f H1 H2).
Qed.

Lemma unmask_store w : secrets_file (unmask w) = secrets_file w.
Proof.
  unfold unmask. destruct (load_secrets w) as [secrets out0].
  destruct (decide (secrets = ∅)); [done|].
  by destruct (fold_left (unmask_file secrets) FILES_CONFIG (files w, printed w ++ out0)).
Qed.

Lemma mask_store_parses w : secrets_file (mask w) = StoreJson (stored (mask w)).
Proof.
  unfold stored, mask. destruct (load_secrets w) as [secrets out0].
  by destruct (fold_left mask_file FILES_CONFIG (files w, secrets, printed w ++ out0))
    as [[fs sec] out].
Qed.



(** X2. [unmask] never writes the store file; it creates no file and deletes
    none; a path that is not in the configuration keeps its content; and a
    file whose path has no entry in the store keeps its content. *)
Theorem unmask_frame (w : world) (f : string) :
  secrets_file (unmask w) = secrets_file w /\
  (files (unmask w) !! f = None <-> files w !! f = None) /\
  (f <> COMPOSE_FILE -> f <> YAML_FILE -> files (unmask w) !! f = files w !! f) /\
  (stored w !! f = None -> files (unmask w) !! f = files w !! f).
Proof.
  split; [apply unmask_store|]. split; [apply unmask_same_paths|].
  split; [apply unmask_other_path|].
  intros Hs. destruct (configured_path f) as [[ps Hin]|[H1 H2]].
  - rewrite (unmask_lookup w f ps Hin), Hs.
    destruct (decide (stored w = ∅)); [done|]. by destruct (files w !! f).
  - by apply unmask_other_path.
Qed.

Lemma unmask_frame_witness :
  let w := World {[ COMPOSE_FILE := lit "DATABASE_PASSWORD=******" ]}
             (StoreJson {[ YAML_FILE := [lit "pw"] ]}) [] in
  files (unmask w) !! COMPOSE_FILE = Some (lit "DATABASE_PASSWORD=******").
Proof.
  intros w.
  destruct (unmask_frame w COMPOSE_FILE) as (_ & _ & _ & H).
  rewrite H; by vm_compute.
Defined.

(** ** What [mask] leaves in the files and in the store *)

Lemma mask_content_all_masked f ps s p :
  (f, ps) ∈ FILES_CONFIG -> p ∈ ps -> all_masked p (mask_content ps s).1.
Proof.
  intros Hin Hp. rewrite mask_content_spec.
  apply (mask_spec_all_masked ps); [|done|done|by right].
  intros pj pk t. by apply (config_keeps f ps).
Qed.

Lemma mask_file_content w f ps c :
  (f, ps) ∈ FILES_CONFIG -> files (mask w) !! f = Some c ->
  exists c0, files w !! f = Some c0 /\ c = (mask_content ps c0).1.
Proof.
  intros Hin Hf. pose proof (mask_lookup w f ps Hin) as H.
  destruct (files w !! f) as [c0|]; [|destruct H; congruence].
  exists c0. split; [done|].
  destruct (mask_content ps c0).2 as [|v vs] eqn:E.
  - destruct H as [H _]. rewrite Hf in H. injection H as ->.
    rewrite mask_content_spec in E |- *. by rewrite (mask_spec_no_caps _ _ E).
  - destruct H as [H _]. rewrite Hf in H. by injection H as ->.
Qed.

(** X3. After [mask], in every configured file, at every position where one
    of the file's patterns matches, the value zone of the match is the mask
    token: no value that a pattern of the file can find is left readable.
    The same holds of the content that the passes over any text return. *)
Theorem mask_hides_values (w : world) (f : string) (ps : list pattern)
    (p : pattern) :
  (f, ps) ∈ FILES_CONFIG -> p ∈ ps ->
  (forall s a t m,
     (mask_content ps s).1 = a ++ t -> match_at p t = Some m -> m_value m = MASK) /\
  (forall c a t m,
     files (mask w) !! f = Some c -> c = a ++ t ->
     match_at p t = Some m -> m_value m = MASK).
Proof.
  intros Hin Hp. split.
  - intros s a t m E Hm.
    exact (mask_content_all_masked f ps s p Hin Hp a t m E Hm).
  - intros c a t m Hf E Hm.
    destruct (mask_file_content w f ps c Hin Hf) as (c0 & _ & ->).
    exact (mask_content_all_masked f ps c0 p Hin Hp a t m E Hm).
Qed.

Lemma mask_hides_values_witness :
  let w := World {[ COMPOSE_FILE := lit "x MYSQL_ROOT_PASSWORD=pw -v" ]} StoreAbsent [] in
  files (mask w) !! COMPOSE_FILE = Some (lit "x MYSQL_ROOT_PASSWORD=****** -v") /\
  m_value (Match (lit "MYSQL_ROOT_PASSWORD=") MASK [] (lit " -v")) = MASK.
Proof.
  intros w. split; [by vm_compute|].
  assert (Hin : (COMPOSE_FILE, compose_patterns) ∈ FILES_CONFIG)
    by (unfold FILES_CONFIG; left).
  assert (Hp : compose_pattern "MYSQL_ROOT_PASSWORD=" ∈ compose_patterns)
    by (unfold compose_patterns; right; left).
  destruct (mask_hides_values w COMPOSE_FILE compose_patterns _ Hin Hp) as [_ H].
  apply (H (lit "x MYSQL_ROOT_PASSWORD=****** -v") (lit "x ")
           (lit "MYSQL_ROOT_PASSWORD=****** -v")).
  - by vm_compute.
  - reflexivity.
  - by vm_compute.
Defined.

Lemma mask_spec_caps ps s : Forall (fun v => v <> MASK) (mask_spec ps s).2.
Proof.
  revert s. induction ps as [|p ps IH]; intros s; [constructor|].
  rewrite mask_spec_cons. cbn [snd]. apply Forall_app. split; [|apply IH].
  unfold mask_caps, mask_pattern_spec. cbn [snd].
  apply Forall_forall. intros v Hv. by apply list_elem_of_filter in Hv as [Hv _].
Qed.

(** X4. The values [mask] captures are never the mask token, for any
    patterns and content; and an entry that [mask] writes into the store for
    a configured file is not empty and holds no mask token. *)
Theorem mask_captures_no_token (w : world) (f : string) (ps : list pattern)
    (content : text) :
  Forall (fun v => v <> MASK) (mask_content ps content).2 /\
  ((f, ps) ∈ FILES_CONFIG -> files w !! f = Some content ->
   stored (mask w) !! f <> stored w !! f ->
   exists l, stored (mask w) !! f = Some l /\ l <> [] /\
             Forall (fun v => v <> MASK) l).
Proof.
  assert (Hc : Forall (fun v => v <> MASK) (mask_content ps content).2)
    by (rewrite mask_content_spec; apply mask_spec_caps).
  split; [done|]. intros Hin Hf Hne.
  pose proof (mask_at_path w f ps content Hin Hf) as H.
  destruct (mask_content ps content).2 as [|v vs]; [by destruct H|].
  destruct H as [_ H]. by exists (v :: vs).
Qed.

Lemma mask_captures_no_token_witness :
  let w := World {[ COMPOSE_FILE := lit "DATABASE_PASSWORD=****** MYSQL_ROOT_PASSWORD=pw" ]}
             (StoreJson {[ COMPOSE_FILE := [lit "old"] ]}) [] in
  exists l, stored (mask w) !! COMPOSE_FILE = Some l /\ l <> [] /\
            Forall (fun v => v <> MASK) l.
Proof.
  intros w.
  refine (proj2 (mask_captures_no_token w COMPOSE_FILE compose_patterns
                   (lit "DATABASE_PASSWORD=****** MYSQL_ROOT_PASSWORD=pw")) _ _ _).
  - unfold FILES_CONFIG. left.
  - by vm_compute.
  - by vm_compute.
Defined.

(** X5. When the store file is absent or does not parse, [mask] starts from
    the empty mapping: the store it writes holds, for each path, either
    nothing or exactly what this run captured in that configured file, so
    whatever an unreadable store file held is replaced. *)
Theorem mask_on_unreadable_store (w : world) (f : string) :
  secrets_file w = StoreAbsent \/ secrets_file w = StoreCorrupt ->
  secrets_file (mask w) = StoreJson (stored (mask w)) /\
  (stored (mask w) !! f = None \/
   exists ps content,
     (f, ps) ∈ FILES_CONFIG /\ files w !! f = Some content /\
     (mask_content ps content).2 <> [] /\
     stored (mask w) !! f = Some (mask_content ps content).2).
Proof.
  intros Hs.
  assert (He : stored w !! f = None).
  { unfold stored, load_secrets. by destruct Hs as [-> | ->]. }
  split; [apply mask_store_parses|].
  destruct (configured_path f) as [[ps Hin]|[H1 H2]].
  - pose proof (mask_lookup w f ps Hin) as H.
    destruct (files w !! f) as [c|] eqn:Ef.
    + destruct (mask_content ps c).2 as [|v vs] eqn:E.
      * left. destruct H as [_ ->]. done.
      * right. exists ps, c. rewrite E. by destruct H.
    + left. destruct H as [_ ->]. done.
  - left. destruct (mask_other_path w f H1 H2) as [_ ->]. done.
Qed.

Lemma mask_on_unreadable_store_witness :
  let w := World {[ YAML_FILE := lit "api_key: " ++ [QUOTE] ++ lit "k1" ++ [QUOTE] ]}
             StoreCorrupt [] in
  secrets_file (mask w) = StoreJson {[ YAML_FILE := [lit "k1"] ]}.
Proof.
  intros w.
  destruct (mask_on_unreadable_store w YAML_FILE (or_intror eq_refl)) as [H _].
  rewrite H. by vm_compute.
Defined.

(** ** What [unmask] uses of the stored sequence *)



Lemma unmask_spec_drop qs s stored :
  exists k, (unmask_spec qs s stored).2 = drop k stored.
Proof.
  revert s stored. induction qs as [|q qs IH]; intros s stored.
  - by exists 0%nat.
  - cbn [unmask_spec]. unfold unmask_pattern_spec.
    destruct (IH (restore_from 0 (items q s) stored)
                 (drop (count_matches (items q s)) stored)) as [k ->].
    rewrite drop_drop. by eexists.
Qed.

Lemma unmask_content_tail f ps content stored :
  (f, ps) ∈ FILES_CONFIG ->
  (unmask_content f ps content stored).2
  = drop (length stored - length (unmask_content f ps content stored).2) stored.
Proof.
  intros Hin. rewrite (unmask_content_spec f ps content stored Hin).
  destruct (unmask_spec_drop (map (mask_search_pattern f) ps) content stored)
    as [k ->].
  rewrite length_drop.
  destruct (decide (k <= length stored)%nat) as [Hk|Hk].
  - f_equal. lia.
  - rewrite !drop_ge by lia. done.
Qed.

(** X6. [unmask] takes the stored values from the front, in order: what is
    left after the passes over a configured file is the stored sequence
    without its first values, as many as were used.  For a file that exists
    and has an entry in the store, the turn of the loop always writes the
    file and always reports, with a count that is not negative and not more
    than the number of stored values. *)
Theorem unmask_uses_front (f : string) (ps : list pattern)
    (content : text) (stored : list text) :
  (f, ps) ∈ FILES_CONFIG ->
  let left := (unmask_content f ps content stored).2 in
  let used := (length stored - length left)%nat in
  left = drop used stored /\
  forall fs out secrets,
    fs !! f = Some content -> secrets !! f = Some stored ->
    unmask_file secrets (fs, out) (f, ps) =
      (<[f := (unmask_content f ps content stored).1]> fs,
       out ++ [UnmaskedSecrets (Z.of_nat used) f]) /\
    (0 <= Z.of_nat used <= Z.of_nat (length stored))%Z.
Proof.
  intros Hin left used. split; [by apply unmask_content_tail|].
  intros fs out secrets Hf Hs. split; [|subst used; lia].
  unfold unmask_file. rewrite Hf, Hs. subst used left.
  pose proof (unmask_content_tail f ps content stored Hin) as Ht.
  destruct (unmask_content f ps content stored) as [nc cur]. cbn [fst snd] in *.
  assert (length cur <= length stored)%nat by (rewrite Ht, length_drop; lia).
  do 4 f_equal. lia.
Qed.

Lemma unmask_uses_front_witness :
  unmask_content COMPOSE_FILE compose_patterns
    (lit "MYSQL_ROOT_PASSWORD=****** DATABASE_PASSWORD=******")
    [lit "a"; lit "b"; lit "c"]
  = (lit "MYSQL_ROOT_PASSWORD=b DATABASE_PASSWORD=a", [lit "c"]).
Proof.
  assert (Hin : (COMPOSE_FILE, compose_patterns) ∈ FILES_CONFIG)
    by (unfold FILES_CONFIG; left).
  pose proof (proj1 (unmask_uses_front COMPOSE_FILE compose_patterns
    (lit "MYSQL_ROOT_PASSWORD=****** DATABASE_PASSWORD=******")
    [lit "a"; lit "b"; lit "c"] Hin)) as H.
  apply injective_projections; [by vm_compute|].
  rewrite H. by vm_compute.
Defined.



(** ** Where a value zone ends *)

Lemma mask_pass_step p s m acc :
  match_at p s = Some m -> group0 m <> [] ->
  re_sub p mask_replacer s acc =
    ((m_prefix m ++ MASK ++ m_suffix m) ++ (re_sub p mask_replacer (m_rest m) []).1,
     acc ++ (if decide (m_value m = MASK) then [] else [m_value m])
         ++ (re_sub p mask_replacer (m_rest m) []).2).
Proof.
  intros E Hg. rewrite !re_sub_mask. cbn [fst snd app].
  change (mask_pattern_spec p s).1 with (mask_pass p s).
  change (mask_pattern_spec p s).2 with (mask_caps p s).
  by rewrite (mask_pass_match p s m E Hg), (mask_caps_match p s m E Hg).
Qed.

(** X8. The value zone of an environment-style pattern is the longest run
    of characters after the key that are neither whitespace nor a dash, and
    must not be empty.  So a pass of [mask] over the key followed by such a
    run [v] and a rest [r] (empty, or starting with whitespace or a dash)
    writes the mask token in place of [v] alone, records [v] unless it is the
    token, and goes on with [r], which stays in the file: a value with a dash
    in it is masked up to the dash only.  Where the key is followed by
    nothing, whitespace or a dash there is no match. *)
Theorem compose_value_boundary (key : string) (v r : text) (acc : list text) :
  forallb (in_class CNotSpaceDash) v = true ->
  starts_in CNotSpaceDash r = false ->
  match_at (compose_pattern key) (lit key ++ r) = None /\
  (v <> [] ->
   match_at (compose_pattern key) (lit key ++ v ++ r)
     = Some (Match (lit key) v [] r) /\
   re_sub (compose_pattern key) mask_replacer (lit key ++ v ++ r) acc
     = (lit key ++ MASK ++ (re_sub (compose_pattern key) mask_replacer r []).1,
        acc ++ (if decide (v = MASK) then [] else [v])
            ++ (re_sub (compose_pattern key) mask_replacer r []).2)).
Proof.
  intros Hv Hr. rewrite compose_pattern_pat. split.
  - rewrite compose_match_app.
    pose proof (span_app_stop CNotSpaceDash [] r eq_refl Hr) as H.
    cbn [app] in H. by rewrite H.
  - intros Hne.
    assert (E : match_at (compose_pat (lit key)) (lit key ++ v ++ r)
                = Some (Match (lit key) v [] r)).
    { rewrite compose_match_app, (span_app_stop CNotSpaceDash v r Hv Hr).
      by destruct v. }
    split; [exact E|].
    rewrite (mask_pass_step _ _ _ acc E (compose_nonempty _ _ _ E)).
    cbn [m_prefix m_value m_suffix m_rest]. by rewrite app_nil_r, <- app_assoc.
Qed.

Lemma compose_value_boundary_witness :
  re_sub (compose_pattern "DATABASE_PASSWORD=") mask_replacer
    (lit "DATABASE_PASSWORD=ab-cd") []
  = (lit "DATABASE_PASSWORD=******-cd", [lit "ab"]).
Proof.
  destruct (compose_value_boundary "DATABASE_PASSWORD=" (lit "ab") (lit "-cd") []
              eq_refl eq_refl) as [_ H].
  destruct H as [_ H]; [discriminate|].
  etrans; [exact H|]. by vm_compute.
Defined.

Lemma yaml_unclosed K (w t : text) :
  forallb (in_class CSpace) w = true -> QUOTE ∉ t ->
  match_at (yaml_pat K) (K ++ w ++ [QUOTE] ++ t) = None.
Proof.
  intros Hw Ht. destruct (match_at (yaml_pat K) (K ++ w ++ [QUOTE] ++ t)) as [m|] eqn:E;
    [|done].
  apply yaml_match_inv in E as (w' & v' & r' & E & Hw' & _ & _).
  apply app_inv_head in E. cbn [app] in E.
  apply first_quote_unique in E as [_ ->]; [|by apply space_no_quote..].
  exfalso. apply Ht. apply elem_of_app. right. left.
Qed.

(** X9. The value zone of a quoted pattern is whatever stands between the
    double quote that follows the key (after optional whitespace, line breaks
    included) and the next double quote: any characters but the double quote,
    line breaks included, or none at all.  A pass of [mask] writes the mask
    token between the two quotes, records the value unless it is the token,
    and goes on after the closing quote.  Without a closing quote there is no
    match. *)
Theorem yaml_value_boundary (key : string) (w v r : text) (acc : list text) :
  forallb is_space w = true ->
  QUOTE ∉ v ->
  match_at (yaml_pattern key) (lit key ++ w ++ [QUOTE] ++ v ++ [QUOTE] ++ r)
    = Some (Match (lit key ++ w ++ [QUOTE]) v [QUOTE] r) /\
  re_sub (yaml_pattern key) mask_replacer
      (lit key ++ w ++ [QUOTE] ++ v ++ [QUOTE] ++ r) acc
    = ((lit key ++ w ++ [QUOTE]) ++ MASK ++ [QUOTE]
         ++ (re_sub (yaml_pattern key) mask_replacer r []).1,
       acc ++ (if decide (v = MASK) then [] else [v])
           ++ (re_sub (yaml_pattern key) mask_replacer r []).2) /\
  match_at (yaml_pattern key) (lit key ++ w ++ [QUOTE] ++ v) = None.
Proof.
  intros Hw Hv. rewrite yaml_pattern_pat.
  assert (E : match_at (yaml_pat (lit key))
                (lit key ++ w ++ [QUOTE] ++ v ++ [QUOTE] ++ r)
              = Some (Match (lit key ++ w ++ [QUOTE]) v [QUOTE] r)).
  { apply yaml_match_intro; [done|by apply not_quote_class]. }
  split; [exact E|]. split.
  - rewrite (mask_pass_step _ _ _ acc E (yaml_nonempty _ _ _ E)).
    cbn [m_prefix m_value m_suffix m_rest]. by rewrite <- !app_assoc.
  - by apply yaml_unclosed.
Qed.

Lemma yaml_value_boundary_witness :
  re_sub (yaml_pattern "password:") mask_replacer
    (lit "password:" ++ [10; 32; QUOTE] ++ lit "two" ++ [10] ++ lit "lines"
       ++ [QUOTE] ++ lit " # x") []
  = (lit "password:" ++ [10; 32; QUOTE] ++ MASK ++ [QUOTE] ++ lit " # x",
     [lit "two" ++ [10] ++ lit "lines"]).
Proof.
  destruct (yaml_value_boundary "password:" [10; 32]
              (lit "two" ++ [10] ++ lit "lines") (lit " # x") []) as (_ & H & _).
  - reflexivity.
  - apply not_quote_class. reflexivity.
  - etrans; [exact H|]. by vm_compute.
Defined.

(** ** A file without secrets *)

Lemma mask_spec_no_match ps s :
  (forall p, p ∈ ps -> matches_anywhere p s = false) -> mask_spec ps s = (s, []).
Proof.
  induction ps as [|p ps IH]; intros H; [done|].
  cbn [mask_spec]. unfold mask_pattern_spec, matches.
  rewrite (items_no_match p s) by (apply H; left).
  rewrite concat_masked_chars.
  pose proof (omap_fld_chars s []) as Ho. rewrite app_nil_r in Ho. rewrite Ho.
  cbn [omap list_omap map filter]. rewrite filter_nil.
  rewrite IH; [done|]. intros q Hq. apply H. by right.
Qed.

(** X10. A content in which none of the patterns matches at any position
    comes back from the passes of [mask] unchanged, with nothing captured;
    [mask] then leaves such a configured file and the store entry of its path
    as they are. *)
Theorem mask_without_matches (w : world) (f : string) (ps : list pattern)
    (content : text) :
  (forall p, p ∈ ps -> matches_anywhere p content = false) ->
  mask_content ps content = (content, []) /\
  ((f, ps) ∈ FILES_CONFIG -> files w !! f = Some content ->
   files (mask w) !! f = Some content /\ stored (mask w) !! f = stored w !! f).
Proof.
  intros H.
  assert (E : mask_content ps content = (content, []))
    by (rewrite mask_content_spec; by apply mask_spec_no_match).
  split; [done|]. intros Hin Hf.
  pose proof (mask_at_path w f ps content Hin Hf) as Hm. by rewrite E in Hm.
Qed.

Lemma mask_without_matches_witness :
  mask_content compose_patterns (lit "PASSWORD=hunter2 and ******")
  = (lit "PASSWORD=hunter2 and ******", []).
Proof.
  apply (mask_without_matches (World ∅ StoreAbsent []) COMPOSE_FILE).
  intros p Hp. unfold compose_patterns in Hp.
  apply elem_of_cons in Hp as [->|Hp]; [vm_compute; reflexivity|].
  apply elem_of_cons in Hp as [->|Hp]; [vm_compute; reflexivity|].
  by apply elem_of_nil in Hp.
Defined.

(** ** The entry point *)



(** ** What the commands print *)

Lemma mask_file_out fs secrets out f ps :
  (mask_file (fs, secrets, out) (f, ps)).2 =
  out ++ match fs !! f with
         | Some content =>
             match (mask_content ps content).2 with
             | [] => []
             | v :: vs => [MaskedSecrets (length (v :: vs)) f]
             end
         | None => []
         end.
Proof.
  unfold mask_file. destruct (fs !! f) as [c|]; [|by rewrite app_nil_r].
  destruct (mask_content ps c) as [nc [|v vs]]; [by rewrite app_nil_r|done].
Qed.

(** X12. [mask] prints, after the error of an unreadable store if there is
    one, a line for each configured file that exists and in which it
    captures at least one value, in the order of the configuration, with the
    number of values captured; whether a file gets its line depends on that
    file alone, as it was before the run. *)
Theorem mask_output (w : world) :
  printed (mask w)
  = printed w ++ (load_secrets w).2 ++ concat (map (mask_report w) FILES_CONFIG).
Proof.
  unfold mask. destruct (load_secrets w) as [secrets out0] eqn:El.
  unfold FILES_CONFIG. cbn [fold_left map concat snd].
  destruct (mask_file (files w, secrets, printed w ++ out0)
              (COMPOSE_FILE, compose_patterns)) as [[fs1 sec1] out1] eqn:E1.
  destruct (mask_file (fs1, sec1, out1) (YAML_FILE, yaml_patterns))
    as [[fs2 sec2] out2] eqn:E2.
  pose proof (mask_file_out (files w) secrets (printed w ++ out0)
                COMPOSE_FILE compose_patterns) as H1.
  pose proof (mask_file_out fs1 sec1 out1 YAML_FILE yaml_patterns) as H2.
  pose proof (mask_file_lookup (files w) secrets (printed w ++ out0)
                COMPOSE_FILE compose_patterns YAML_FILE) as [Hn _].
  rewrite E1 in H1, Hn. rewrite E2 in H2. cbn [fst snd] in *.
  destruct (Hn (not_eq_sym compose_yaml_paths)) as [Hy _].
  cbn [printed]. rewrite H2, H1, Hy. unfold mask_report.
  by rewrite app_nil_r, <- !app_assoc.
Qed.

Lemma unmask_file_out secrets fs out f ps :
  (unmask_file secrets (fs, out) (f, ps)).2 =
  out ++ match fs !! f, secrets !! f with
         | Some content, Some file_secrets =>
             [UnmaskedSecrets
                (Z.of_nat (length file_secrets)
                 - Z.of_nat (length (unmask_content f ps content file_secrets).2))%Z f]
         | _, _ => []
         end.
Proof.
  unfold unmask_file. destruct (fs !! f) as [c|]; [|by rewrite app_nil_r].
  destruct (secrets !! f) as [st|]; [|by rewrite app_nil_r].
  by destruct (unmask_content f ps c st).
Qed.

(** X13. [unmask] prints, when the store is empty or unreadable, the error
    of the unreadable store if there is one and the notice that there is
    nothing to restore; otherwise a line for each configured file that exists
    and has an entry in the store, in the order of the configuration, with
    the number of stored values it used, also when that number is zero. *)
Theorem unmask_output (w : world) :
  printed (unmask w)
  = printed w ++ (load_secrets w).2 ++
    (if decide (stored w = ∅) then [NoSecretsFound]
     else concat (map (unmask_report w) FILES_CONFIG)).
Proof.
  unfold unmask, stored, unmask_report, stored.
  destruct (load_secrets w) as [secrets out0] eqn:El. cbn [fst snd].
  destruct (decide (secrets = ∅)) as [E|E]; [done|].
  unfold FILES_CONFIG. cbn [fold_left map concat].
  destruct (unmask_file secrets (files w, printed w ++ out0)
              (COMPOSE_FILE, compose_patterns)) as [fs1 out1] eqn:E1.
  destruct (unmask_file secrets (fs1, out1) (YAML_FILE, yaml_patterns))
    as [fs2 out2] eqn:E2.
  pose proof (unmask_file_out secrets (files w) (printed w ++ out0)
                COMPOSE_FILE compose_patterns) as H1.
  pose proof (unmask_file_out secrets fs1 out1 YAML_FILE yaml_patterns) as H2.
  pose proof (unmask_file_lookup secrets (files w) (printed w ++ out0)
                COMPOSE_FILE compose_patterns YAML_FILE) as [Hn _].
  rewrite E1 in H1, Hn. rewrite E2 in H2. cbn [fst snd] in *.
  rewrite (Hn (not_eq_sym compose_yaml_paths)) in H2.
  cbn [printed]. rewrite H2, H1.
  by rewrite app_nil_r, <- !app_assoc.
Qed.

(** ** Masking again after a round trip *)

Lemma unmask_stored w : stored (unmask w) = stored w.
Proof. unfold stored, load_secrets. by rewrite unmask_store. Qed.



(** ** What [unmask] takes for a masked value *)


(** X15. In the environment-style layout the masked form of a pattern is
    the key followed by the mask token, with nothing required after it: a
    pass of [unmask] that has a stored value left puts it in place of the
    token wherever the key is followed by the token, also when the value in
    the file goes on after the token, and what follows stays.  In the quoted
    layout the token must fill the quotes: when anything but the closing
    quote follows the token there is no match. *)
Theorem masked_value_extent (key : string) (w r : text) (c : char)
    (v : text) (rest : list text) :
  re_sub (mask_search_pattern COMPOSE_FILE (compose_pattern key)) unmask_replacer
      (lit key ++ MASK ++ r) (v :: rest)
    = (lit key ++ v ++
         (re_sub (mask_search_pattern COMPOSE_FILE (compose_pattern key))
            unmask_replacer r rest).1,
       (re_sub (mask_search_pattern COMPOSE_FILE (compose_pattern key))
          unmask_replacer r rest).2) /\
  (forallb is_space w = true -> c <> QUOTE ->
   match_at (mask_search_pattern YAML_FILE (yaml_pattern key))
     (lit key ++ w ++ [QUOTE] ++ MASK ++ c :: r) = None).
Proof.
  rewrite compose_pattern_pat, yaml_pattern_pat, mask_search_compose, mask_search_yaml.
  split.
  - rewrite (unmask_pass_step _ _ (Match (lit key) MASK [] r)); [|by
      rewrite match_at_compose_masked; unfold compose_masked_match;
      rewrite !strip_app|done].
    cbn [m_prefix m_suffix m_rest]. by rewrite app_nil_r, <- app_assoc.
  - intros Hw Hc. rewrite match_at_yaml_masked. unfold yaml_masked_match.
    rewrite strip_app.
    rewrite (span_app_stop CSpace w ([QUOTE] ++ MASK ++ c :: r) Hw eq_refl).
    rewrite !strip_app. cbn [strip].
    destruct (N.eqb_spec c QUOTE) as [E|E]; [done|done].
Qed.

Lemma masked_value_extent_witness :
  re_sub (mask_search_pattern COMPOSE_FILE (compose_pattern "DATABASE_PASSWORD="))
    unmask_replacer (lit "DATABASE_PASSWORD=******abc") [lit "pw"]
  = (lit "DATABASE_PASSWORD=pwabc", []) /\
  match_at (mask_search_pattern YAML_FILE (yaml_pattern "password:"))
    (lit "password: " ++ [QUOTE] ++ MASK ++ lit "abc" ++ [QUOTE]) = None.
Proof.
  destruct (masked_value_extent "DATABASE_PASSWORD=" (lit " ") (lit "bc" ++ [QUOTE])
              97 (lit "pw") []) as [_ H].
  split; [by vm_compute|].
  apply H; [reflexivity|discriminate].
Defined.

(** ** Running [unmask] again *)

(** X16. [unmask] does not use up the store: a second run starts again from
    the first stored value.  For a configured file that exists and has an
    entry in the store, two runs leave what the passes of the second, given
    the whole stored sequence again, make of the content the first left; so
    occurrences the first run left masked for want of values are filled by
    the second with the same first values. *)
Theorem unmask_twice (w : world) (f : string) (ps : list pattern)
    (content : text) (st : list text) :
  (f, ps) ∈ FILES_CONFIG ->
  files w !! f = Some content ->
  stored w !! f = Some st ->
  files (unmask w) !! f = Some (unmask_content f ps content st).1 /\
  files (unmask (unmask w)) !! f
    = Some (unmask_content f ps (unmask_content f ps content st).1 st).1.
Proof.
  intros Hin Hf Hs.
  assert (Hne : stored w <> ∅).
  { intros E. rewrite E in Hs. by rewrite lookup_empty in Hs. }
  assert (H1 : files (unmask w) !! f = Some (unmask_content f ps content st).1).
  { rewrite (unmask_lookup w f ps Hin), Hf, Hs. by rewrite decide_False. }
  split; [done|].
  rewrite (unmask_lookup (unmask w) f ps Hin), unmask_stored, H1, Hs.
  by rewrite decide_False.
Qed.

Lemma unmask_twice_witness :
  let w := World {[ COMPOSE_FILE := lit "DATABASE_PASSWORD=****** DATABASE_PASSWORD=******" ]}
             (StoreJson {[ COMPOSE_FILE := [lit "a"] ]}) [] in
  files (unmask w) !! COMPOSE_FILE
    = Some (lit "DATABASE_PASSWORD=a DATABASE_PASSWORD=******") /\
  files (unmask (unmask w)) !! COMPOSE_FILE
    = Some (lit "DATABASE_PASSWORD=a DATABASE_PASSWORD=a").
Proof.
  intros w.
  destruct (unmask_twice w COMPOSE_FILE compose_patterns
              (lit "DATABASE_PASSWORD=****** DATABASE_PASSWORD=******") [lit "a"])
    as [H1 H2].
  - unfold FILES_CONFIG. left.
  - by vm_compute.
  - by vm_compute.
  - rewrite H1, H2. split; by vm_compute.
Defined.

(** ** The round trip over all files *)



(** ** Keys inside longer words *)

Lemma first_char_unique (c : char) (a b a' b' : text) :
  c ∉ a -> c ∉ a' -> a ++ c :: b = a' ++ c :: b' -> a = a' /\ b = b'.
Proof.
  revert a'. induction a as [|x a IH]; intros [|x' a'] Ha Ha' E; simpl in E.
  - by injection E as ->.
  - injection E as <- _. destruct Ha'. left.
  - injection E as -> _. destruct Ha. left.
  - injection E as -> E. apply not_elem_of_cons in Ha as [_ Ha].
    apply not_elem_of_cons in Ha' as [_ Ha'].
    by destruct (IH a' Ha Ha' E) as [-> ->].
Qed.

Lemma no_key_before (c : char) (K0 x r r' : text) :
  c ∉ K0 -> c ∉ x -> x ++ (K0 ++ [c]) ++ r = (K0 ++ [c]) ++ r' -> x = [].
Proof.
  intros HK Hx E. rewrite <- !app_assoc in E. cbn [app] in E.
  rewrite app_assoc in E.
  apply first_char_unique in E as [E _]; [| |done].
  - apply (f_equal length) in E. rewrite length_app in E.
    destruct x; [done|]. simpl in E. lia.
  - intros [H|H]%elem_of_app; auto.
Qed.

Lemma mask_skip_prefix p (a s : text) acc :
  (forall x y, a = x ++ y -> y <> [] -> match_at p (y ++ s) = None) ->
  re_sub p mask_replacer (a ++ s) acc =
    (a ++ (re_sub p mask_replacer s []).1, acc ++ (re_sub p mask_replacer s []).2).
Proof.
  intros H. rewrite !re_sub_mask. cbn [fst snd app].
  change (mask_pattern_spec p (a ++ s)).1 with (mask_pass p (a ++ s)).
  change (mask_pattern_spec p (a ++ s)).2 with (mask_caps p (a ++ s)).
  change (mask_pattern_spec p s).1 with (mask_pass p s).
  change (mask_pattern_spec p s).2 with (mask_caps p s).
  induction a as [|c a IH]; [done|].
  assert (E : match_at p (c :: a ++ s) = None) by (by apply (H [] (c :: a))).
  cbn [app]. rewrite (mask_pass_skip p c (a ++ s) E), (mask_caps_skip p c (a ++ s) E).
  assert (IH' : (a ++ mask_pass p s, acc ++ mask_caps p s)
                = (mask_pass p (a ++ s), acc ++ mask_caps p (a ++ s))).
  { symmetry. apply IH. intros x y -> Hy. by apply (H (c :: x) y). }
  injection IH' as E1 E2. apply app_inv_head in E2. by rewrite <- E1, <- E2.
Qed.

Lemma yaml_key_last key : key ∈ yaml_keys -> exists K0, lit key = K0 ++ [58] /\ 58 ∉ K0.
Proof.
  unfold yaml_keys. intros H.
  repeat (apply elem_of_cons in H as [->|H];
          [match goal with
           | |- exists K0, lit ?k = _ /\ _ => exists (removelast (lit k))
           end; split; [by vm_compute|];
           intros Hc%list_elem_of_In; vm_compute in Hc; intuition discriminate|]).
  by apply elem_of_nil in H.
Qed.

Lemma compose_key_last key :
  key ∈ compose_keys -> exists K0, lit key = K0 ++ [61] /\ 61 ∉ K0.
Proof.
  unfold compose_keys. intros H.
  repeat (apply elem_of_cons in H as [->|H];
          [match goal with
           | |- exists K0, lit ?k = _ /\ _ => exists (removelast (lit k))
           end; split; [by vm_compute|];
           intros Hc%list_elem_of_In; vm_compute in Hc; intuition discriminate|]).
  by apply elem_of_nil in H.
Qed.

Lemma compose_pass_at_key K (v r : text) acc :
  forallb (in_class CNotSpaceDash) v = true -> v <> [] ->
  starts_in CNotSpaceDash r = false ->
  re_sub (compose_pat K) mask_replacer (K ++ v ++ r) acc
  = (K ++ MASK ++ (re_sub (compose_pat K) mask_replacer r []).1,
     acc ++ (if decide (v = MASK) then [] else [v])
         ++ (re_sub (compose_pat K) mask_replacer r []).2).
Proof.
  intros Hv Hne Hr.
  assert (E : match_at (compose_pat K) (K ++ v ++ r) = Some (Match K v [] r)).
  { rewrite compose_match_app, (span_app_stop CNotSpaceDash v r Hv Hr).
    by destruct v. }
  rewrite (mask_pass_step _ _ _ acc E (compose_nonempty _ _ _ E)).
  cbn [m_prefix m_value m_suffix m_rest]. by rewrite app_nil_r, <- app_assoc.
Qed.

Lemma yaml_pass_at_key K (w v r : text) acc :
  forallb is_space w = true -> QUOTE ∉ v ->
  re_sub (yaml_pat K) mask_replacer (K ++ w ++ [QUOTE] ++ v ++ [QUOTE] ++ r) acc
  = ((K ++ w ++ [QUOTE]) ++ MASK ++ [QUOTE]
       ++ (re_sub (yaml_pat K) mask_replacer r []).1,
     acc ++ (if decide (v = MASK) then [] else [v])
         ++ (re_sub (yaml_pat K) mask_replacer r []).2).
Proof.
  intros Hw Hv.
  assert (E : match_at (yaml_pat K) (K ++ w ++ [QUOTE] ++ v ++ [QUOTE] ++ r)
              = Some (Match (K ++ w ++ [QUOTE]) v [QUOTE] r)).
  { apply yaml_match_intro; [done|by apply not_quote_class]. }
  rewrite (mask_pass_step _ _ _ acc E (yaml_nonempty _ _ _ E)).
  cbn [m_prefix m_value m_suffix m_rest]. by rewrite <- !app_assoc.
Qed.

(** X18. The patterns are not anchored: a configured key is found also at
    the end of a longer word.  When the text before the key holds no equals
    sign (environment-style layout) or no colon (quoted layout), a pass of
    [mask] copies that text, masks the value after the key and records it,
    and goes on after the match; so the value of a longer key that ends in a
    configured key is masked too. *)
Theorem key_inside_word (a r : text) (acc : list text) :
  (forall key v,
     key ∈ compose_keys -> 61 ∉ a ->
     forallb (in_class CNotSpaceDash) v = true -> v <> [] ->
     starts_in CNotSpaceDash r = false ->
     re_sub (compose_pattern key) mask_replacer (a ++ lit key ++ v ++ r) acc
     = (a ++ lit key ++ MASK ++ (re_sub (compose_pattern key) mask_replacer r []).1,
        acc ++ (if decide (v = MASK) then [] else [v])
            ++ (re_sub (compose_pattern key) mask_replacer r []).2)) /\
  (forall key w v,
     key ∈ yaml_keys -> 58 ∉ a ->
     forallb is_space w = true -> QUOTE ∉ v ->
     re_sub (yaml_pattern key) mask_replacer
       (a ++ lit key ++ w ++ [QUOTE] ++ v ++ [QUOTE] ++ r) acc
     = (a ++ (lit key ++ w ++ [QUOTE]) ++ MASK ++ [QUOTE]
          ++ (re_sub (yaml_pattern key) mask_replacer r []).1,
        acc ++ (if decide (v = MASK) then [] else [v])
            ++ (re_sub (yaml_pattern key) mask_replacer r []).2)).
Proof.
  split.
  - intros key v Hk Ha Hv Hne Hr. rewrite compose_pattern_pat.
    destruct (compose_key_last key Hk) as (K0 & EK & HK0).
    rewrite mask_skip_prefix.
    + rewrite (compose_pass_at_key (lit key) v r [] Hv Hne Hr). cbn [fst snd app].
      done.
    + intros x y -> Hy.
      destruct (match_at (compose_pat (lit key)) (y ++ lit key ++ v ++ r))
        as [m|] eqn:E; [|done].
      apply compose_match_inv in E as (v' & r' & E & _).
      rewrite EK in E. apply no_key_before in E; [done|done|].
      intros H. apply Ha. apply elem_of_app. by right.
  - intros key w v Hk Ha Hw Hv. rewrite yaml_pattern_pat.
    destruct (yaml_key_last key Hk) as (K0 & EK & HK0).
    rewrite mask_skip_prefix.
    + rewrite (yaml_pass_at_key (lit key) w v r [] Hw Hv). cbn [fst snd app].
      done.
    + intros x y -> Hy.
      destruct (match_at (yaml_pat (lit key))
                  (y ++ lit key ++ w ++ [QUOTE] ++ v ++ [QUOTE] ++ r))
        as [m|] eqn:E; [|done].
      apply yaml_match_inv in E as (w' & v' & r' & E & _).
      rewrite EK in E. apply no_key_before in E; [done|done|].
      intros H. apply Ha. apply elem_of_app. by right.
Qed.

Lemma key_inside_word_witness :
  re_sub (yaml_pattern "password:") mask_replacer
    (lit "db_password: " ++ [QUOTE] ++ lit "pw" ++ [QUOTE]) []
  = (lit "db_password: " ++ [QUOTE] ++ MASK ++ [QUOTE], [lit "pw"]).
Proof.
  destruct (key_inside_word (lit "db_") [] []) as [_ H].
  specialize (H "password:" (lit " ") (lit "pw")).
  etrans; [apply H|by vm_compute].
  - unfold yaml_keys. left.
  - intros Hc%list_elem_of_In. vm_compute in Hc. intuition discriminate.
  - reflexivity.
  - apply not_quote_class. reflexivity.
Defined.

(** ** A run of [mask] that finds nothing *)

(** X19. When there is no readable store and [mask] captures nothing in any
    configured file, it leaves all files as they are and writes a store with
    the empty mapping; [unmask] after it changes no file and prints the
    notice that there is nothing to restore. *)
Theorem nothing_masked_nothing_restored (w : world) :
  secrets_file w = StoreAbsent \/ secrets_file w = StoreCorrupt ->
  (forall f ps c, (f, ps) ∈ FILES_CONFIG -> files w !! f = Some c ->
     (mask_content ps c).2 = []) ->
  files (mask w) = files w /\
  secrets_file (mask w) = StoreJson ∅ /\
  files (unmask (mask w)) = files w /\
  printed (unmask (mask w)) = printed (mask w) ++ [NoSecretsFound].
Proof.
  intros Hs Hc.
  assert (He : stored w = ∅).
  { unfold stored, load_secrets. by destruct Hs as [-> | ->]. }
  assert (Hl : forall f, files (mask w) !! f = files w !! f /\
                         stored (mask w) !! f = None).
  { intros f. rewrite <- (lookup_empty (M:=gmap string) f), <- He.
    destruct (configured_path f) as [[ps Hin]|[H1 H2]];
      [|by apply mask_other_path].
    pose proof (mask_lookup w f ps Hin) as H.
    destruct (files w !! f) as [c|] eqn:Ef; [|done].
    by rewrite (Hc f ps c Hin Ef) in H. }
  assert (Hf : files (mask w) = files w) by (apply map_eq; intros f; apply Hl).
  assert (Hm : stored (mask w) = ∅).
  { apply map_eq. intros f. rewrite lookup_empty. apply Hl. }
  assert (Hst : secrets_file (mask w) = StoreJson ∅)
    by (by rewrite mask_store_parses, Hm).
  split; [done|]. split; [done|].
  unfold unmask, load_secrets. rewrite Hst.
  rewrite decide_True by done. by rewrite Hf.
Qed.

Lemma nothing_masked_nothing_restored_witness :
  let w := World {[ COMPOSE_FILE := lit "DATABASE_PASSWORD=******" ]} StoreAbsent [] in
  printed (unmask (mask w)) = [NoSecretsFound].
Proof.
  intros w.
  destruct (nothing_masked_nothing_restored w) as (_ & _ & _ & H).
  - by left.
  - intros f ps c Hin Hf. unfold FILES_CONFIG in Hin.
    apply elem_of_cons in Hin as [[= -> ->]|Hin].
    + assert (E : files w !! COMPOSE_FILE = Some (lit "DATABASE_PASSWORD=******"))
        by (by vm_compute).
      rewrite E in Hf. injection Hf as <-. by vm_compute.
    + apply elem_of_cons in Hin as [[= -> ->]|Hin]; [|by apply elem_of_nil in Hin].
      assert (E : files w !! YAML_FILE = None) by (by vm_compute).
      rewrite E in Hf. discriminate.
  - rewrite H. by vm_compute.
Defined.

(** ** One pass of [unmask] undoes one pass of [mask] *)

Section PassRoundTrip.
Variables p q : pattern.
Hypothesis p_nonempty : forall t m, match_at p t = Some m -> group0 m <> [].
Hypothesis hit : forall t m r,
  match_at p t = Some m ->
  match_at q ((m_prefix m ++ MASK ++ m_suffix m) ++ r)
    = Some (Match (m_prefix m) MASK (m_suffix m) r).
Hypothesis back : forall t, is_Some (match_at q t) -> is_Some (match_at p t).
Hypothesis before : forall a s m X,
  match_at p s = Some m ->
  is_Some (match_at q (a ++ (m_prefix m ++ MASK ++ m_suffix m) ++ X)) ->
  is_Some (match_at p (a ++ s)).

Lemma pass_reflect s a :
  is_Some (match_at q (a ++ mask_pass p s)) -> is_Some (match_at p (a ++ s)).
Proof.
  revert a.
  induction s as [s Em ->|c s Em IH|m Em Eg|m c s Em Eg IH|m s Em Eg IH]
    using (scan_ind p); intros a H.
  - rewrite mask_pass_nil in H by done. by apply back.
  - rewrite mask_pass_skip in H by done.
    rewrite cons_middle, app_assoc in H. apply IH in H.
    by rewrite <- app_assoc in H.
  - by destruct (p_nonempty _ _ Em).
  - by destruct (p_nonempty _ _ Em).
  - rewrite (mask_pass_match p s m Em Eg) in H.
    exact (before a s m (mask_pass p (m_rest m)) Em H).
Qed.

Lemma no_hit_after c s :
  match_at p (c :: s) = None -> match_at q (c :: mask_pass p s) = None.
Proof.
  intros Em. destruct (match_at q (c :: mask_pass p s)) as [m|] eqn:E; [|done].
  assert (H : is_Some (match_at p ([c] ++ s))) by (apply pass_reflect; simpl; eauto).
  simpl in H. rewrite Em in H. by destruct H.
Qed.

Lemma matches_skip c s : match_at p (c :: s) = None -> matches p (c :: s) = matches p s.
Proof. intros E. unfold matches. by rewrite items_unfold, E. Qed.

Lemma matches_match s m :
  match_at p s = Some m -> group0 m <> [] -> matches p s = m :: matches p (m_rest m).
Proof.
  intros E Hg. unfold matches. rewrite items_unfold, E.
  by destruct (group0 m).
Qed.

Lemma pass_round_trip s T :
  Forall (fun m => m_value m <> MASK) (matches p s) ->
  re_sub q unmask_replacer (mask_pass p s) (mask_caps p s ++ T) = (s, T).
Proof.
  induction s as [s Em ->|c s Em IH|m Em Eg|m c s Em Eg IH|m s Em Eg IH]
    using (scan_ind p); intros Hv.
  - rewrite mask_pass_nil, mask_caps_nil by done. rewrite re_sub_unfold.
    destruct (match_at q []) as [m|] eqn:E; [|done].
    destruct (back [] (ex_intro _ m E)) as [m' Hm']. congruence.
  - rewrite mask_pass_skip, mask_caps_skip by done.
    rewrite re_sub_unfold, (no_hit_after c s Em).
    rewrite matches_skip in Hv by done. by rewrite (IH Hv).
  - by destruct (p_nonempty _ _ Em).
  - by destruct (p_nonempty _ _ Em).
  - rewrite (matches_match s m Em Eg) in Hv.
    apply Forall_cons in Hv as [Hm Hv].
    rewrite (mask_pass_match p s m Em Eg), (mask_caps_match p s m Em Eg).
    rewrite decide_False by done. cbn [app].
    rewrite (unmask_pass_step q _ _ _ _ (hit s m _ Em) eq_refl).
    cbn [m_prefix m_suffix m_rest]. rewrite (IH Hv). cbn [fst snd].
    f_equal. symmetry. exact (match_at_split p s m Em).
Qed.
End PassRoundTrip.

Lemma MASK_head : exists M, MASK = STAR :: M.
Proof. by eexists. Qed.

Lemma MASK_class : forallb (in_class CNotSpaceDash) MASK = true.
Proof. reflexivity. Qed.


Lemma compose_starts K c r :
  in_class CNotSpaceDash c = true -> is_Some (match_at (compose_pat K) (K ++ c :: r)).
Proof.
  intros Hc. rewrite compose_match_app. cbn [span]. rewrite Hc.
  destruct (span CNotSpaceDash r). eauto.
Qed.

Lemma compose_hit K t m r :
  match_at (compose_pat K) t = Some m ->
  match_at (compose_masked K) ((m_prefix m ++ MASK ++ m_suffix m) ++ r)
    = Some (Match (m_prefix m) MASK (m_suffix m) r).
Proof.
  intros (v & r0 & _ & _ & _ & _ & ->)%compose_match_inv.
  cbn [m_prefix m_suffix]. rewrite app_nil_r, <- app_assoc.
  rewrite match_at_compose_masked. unfold compose_masked_match.
  by rewrite !strip_app.
Qed.

Lemma compose_back K t :
  is_Some (match_at (compose_masked K) t) -> is_Some (match_at (compose_pat K) t).
Proof.
  intros [m (r & ->)%compose_masked_inv].
  destruct MASK_head as [M ->]. by apply compose_starts.
Qed.

Lemma compose_before K a s m X :
  STAR ∉ K ->
  match_at (compose_pat K) s = Some m ->
  is_Some (match_at (compose_masked K) (a ++ (m_prefix m ++ MASK ++ m_suffix m) ++ X)) ->
  is_Some (match_at (compose_pat K) (a ++ s)).
Proof.
  intros HK Em [m' Hq].
  destruct a as [|c a]; [eauto|].
  apply compose_match_inv in Em as (v & r0 & -> & _ & _ & _ & ->).
  cbn [m_prefix m_suffix] in Hq. rewrite app_nil_r in Hq.
  apply compose_masked_inv in Hq as (r' & E).
  assert (E' : K ++ (MASK ++ r') = ((c :: a) ++ K) ++ MASK ++ X).
  { rewrite <- E. by rewrite <- !app_assoc. }
  apply key_before_mask in E' as (z & Ez & E2); [|done].
  destruct z as [|x z].
  - apply (f_equal length) in Ez. rewrite app_nil_r, length_app in Ez.
    simpl in Ez. lia.
  - destruct MASK_head as [M EM]. rewrite EM in E2. injection E2 as <- _.
    rewrite app_assoc, Ez, <- app_assoc. by apply compose_starts.
Qed.

Lemma compose_pass_round_trip K s T :
  good_key K = true ->
  Forall (fun m => m_value m <> MASK) (matches (compose_pat K) s) ->
  re_sub (compose_masked K) unmask_replacer
    (mask_pass (compose_pat K) s) (mask_caps (compose_pat K) s ++ T) = (s, T).
Proof.
  intros (Hne & Hstar & _)%good_key_spec.
  apply pass_round_trip.
  - apply compose_nonempty.
  - apply compose_hit.
  - apply compose_back.
  - intros a s' m X. by apply compose_before.
Qed.


Lemma yaml_hit K t m r :
  match_at (yaml_pat K) t = Some m ->
  match_at (yaml_masked K) ((m_prefix m ++ MASK ++ m_suffix m) ++ r)
    = Some (Match (m_prefix m) MASK (m_suffix m) r).
Proof.
  intros (w & v & r0 & _ & Hw & _ & ->)%yaml_match_inv.
  cbn [m_prefix m_suffix]. rewrite <- !app_assoc.
  rewrite match_at_yaml_masked. unfold yaml_masked_match.
  rewrite strip_app.
  rewrite (span_app_stop CSpace w ([QUOTE] ++ MASK ++ [QUOTE] ++ r) Hw eq_refl).
  by rewrite !strip_app.
Qed.

Lemma yaml_back K t :
  is_Some (match_at (yaml_masked K) t) -> is_Some (match_at (yaml_pat K) t).
Proof.
  intros [m (w & r & -> & Hw)%yaml_masked_inv].
  rewrite (yaml_match_intro K w MASK r Hw); [eauto|].
  apply not_quote_class, MASK_no_quote.
Qed.

Lemma stars_no_key (K a w : text) : K <> [] -> STAR ∉ K -> MASK <> a ++ K ++ w.
Proof.
  intros Hne Hstar E. destruct K as [|c K]; [done|].
  assert (Hc : c ∈ MASK).
  { rewrite E. apply elem_of_app. right. left. }
  pose proof MASK_stars as Hs. rewrite Forall_forall in Hs.
  apply Hs in Hc as ->. apply Hstar. left.
Qed.

Lemma yaml_before K a s m X :
  K <> [] -> STAR ∉ K -> QUOTE ∉ K ->
  match_at (yaml_pat K) s = Some m ->
  is_Some (match_at (yaml_masked K) (a ++ (m_prefix m ++ MASK ++ m_suffix m) ++ X)) ->
  is_Some (match_at (yaml_pat K) (a ++ s)).
Proof.
  intros Hne Hstar Hquote Em [m' Hq].
  apply yaml_match_inv in Em as (w & v & r0 & -> & Hw & Hv & ->).
  cbn [m_prefix m_suffix] in Hq.
  apply yaml_masked_inv in Hq as (w' & r' & E & Hw').
  assert (E1 : (a ++ K ++ w) ++ QUOTE :: (MASK ++ [QUOTE] ++ X)
               = (K ++ w') ++ QUOTE :: (MASK ++ [QUOTE] ++ r')).
  { transitivity (a ++ ((K ++ w ++ [QUOTE]) ++ MASK ++ [QUOTE]) ++ X);
      [by rewrite <- !app_assoc|].
    rewrite E. by rewrite <- !app_assoc. }
  assert (HKw' : QUOTE ∉ K ++ w').
  { intros [H|H]%elem_of_app; [done|]. by apply (space_no_quote w'). }
  assert (HKw : forall a0, QUOTE ∉ a0 -> QUOTE ∉ a0 ++ K ++ w).
  { intros a0 Ha0 [H|H]%elem_of_app; [done|].
    apply elem_of_app in H as [H|H]; [done|]. by apply (space_no_quote w). }
  destruct (decide (QUOTE ∈ a)) as [Ha|Ha].
  - apply list_elem_of_split_l in Ha as (a1 & a2 & -> & Ha1).
    rewrite <- !app_assoc in E1. cbn [app] in E1.
    rewrite (app_assoc K w') in E1.
    apply first_quote_unique in E1 as [-> E2]; [|done|done].
    destruct (decide (QUOTE ∈ a2)) as [Hb|Hb].
    + apply list_elem_of_split_l in Hb as (b1 & b2 & -> & Hb1).
      rewrite <- (app_assoc b1) in E2. cbn [app] in E2.
      apply first_quote_unique in E2 as [-> _]; [|done|apply MASK_no_quote].
      match goal with
      | |- is_Some (match_at _ (?x ++ ?y)) =>
          replace (x ++ y) with (K ++ w' ++ [QUOTE] ++ MASK ++ [QUOTE] ++ (b2 ++ y))
            by (by rewrite <- !app_assoc)
      end.
      rewrite (yaml_match_intro K w' MASK _ Hw'); [eauto|].
      apply not_quote_class, MASK_no_quote.
    + exfalso. rewrite (app_assoc K w), (app_assoc a2) in E2.
      apply first_quote_unique in E2 as [E2 _];
        [|by apply HKw|apply MASK_no_quote].
      symmetry in E2. by apply stars_no_key in E2.
  - apply first_quote_unique in E1 as [E1 _]; [|by apply HKw|done].
    match goal with
    | |- is_Some (match_at _ ?t) =>
        replace t with (K ++ w' ++ [QUOTE] ++ v ++ [QUOTE] ++ r0)
          by (rewrite (app_assoc K w'), <- E1; by rewrite <- !app_assoc)
    end.
    rewrite (yaml_match_intro K w' v r0 Hw' Hv). eauto.
Qed.

Lemma yaml_pass_round_trip K s T :
  good_key K = true ->
  Forall (fun m => m_value m <> MASK) (matches (yaml_pat K) s) ->
  re_sub (yaml_masked K) unmask_replacer
    (mask_pass (yaml_pat K) s) (mask_caps (yaml_pat K) s ++ T) = (s, T).
Proof.
  intros (Hne & Hstar & Hquote)%good_key_spec.
  apply pass_round_trip.
  - apply yaml_nonempty.
  - apply yaml_hit.
  - apply yaml_back.
  - intros a s' m X. by apply yaml_before.
Qed.

(** X20. One pass of [unmask] undoes one pass of [mask], for every text:
    take a pattern of a configured file and any text in which no match of
    the pattern already holds the mask token.  The pass of [unmask] with the
    masked form of the pattern, run on what the pass of [mask] returned and
    given the values that pass captured (followed by any further values),
    returns the text exactly as it was and uses up exactly the captured
    values. *)
Theorem one_pass_round_trip (f : string) (ps : list pattern) (p : pattern)
    (s : text) (T : list text) :
  (f, ps) ∈ FILES_CONFIG -> p ∈ ps ->
  Forall (fun m => m_value m <> MASK) (matches p s) ->
  re_sub (mask_search_pattern f p) unmask_replacer
    (re_sub p mask_replacer s []).1 ((re_sub p mask_replacer s []).2 ++ T)
  = (s, T).
Proof.
  unfold FILES_CONFIG. rewrite !elem_of_cons, elem_of_nil.
  intros [[= -> ->]|[[= -> ->]|[]]] Hp Hv; rewrite re_sub_mask; cbn [fst snd app].
  - apply in_compose_patterns in Hp as (K & -> & HK).
    rewrite mask_search_compose. by apply compose_pass_round_trip.
  - apply in_yaml_patterns in Hp as (K & -> & HK).
    rewrite mask_search_yaml. by apply yaml_pass_round_trip.
Qed.

Lemma one_pass_round_trip_witness :
  let p := compose_pattern "DATABASE_PASSWORD=" in
  let s := lit "x DATABASE_PASSWORD=DATABASE_PASSWORD=a-b DATABASE_PASSWORD=******c" in
  re_sub p mask_replacer s []
    = (lit "x DATABASE_PASSWORD=******-b DATABASE_PASSWORD=******",
       [lit "DATABASE_PASSWORD=a"; lit "******c"]) /\
  re_sub (mask_search_pattern COMPOSE_FILE p) unmask_replacer
    (re_sub p mask_replacer s []).1 ((re_sub p mask_replacer s []).2 ++ [lit "more"])
  = (s, [lit "more"]).
Proof.
  intros p s. split; [by vm_compute|].
  apply (one_pass_round_trip COMPOSE_FILE compose_patterns).
  - unfold FILES_CONFIG. left.
  - unfold compose_patterns. left.
  - vm_compute. repeat constructor; discriminate.
Defined.
